(** * Shamir secret recovery: base decoding, modular inverse, Lagrange
      interpolation and share selection

    A shallow embedding of the BigInt variant of the solver (abc.js:
    [parseValueBigInt], [modInverse], [lagrangeInterpolateBigInt],
    [recoverSecret]) and the properties of it that the specification states.

    Conventions of the embedding.
    - A JavaScript BigInt is a [Z].  BigInt [/] truncates toward zero and
      BigInt [%] takes the sign of the dividend: they are [Z.quot] and
      [Z.rem].  Both throw a RangeError on a zero divisor.
    - A JavaScript Number is only ever used here as an integer or as NaN
      ([parseInt] results, array indices, [k]); it is a [Number], either
      [NaN] or [Num z], with [z] the mathematical value of the Number.
      [parseInt] rounds the integer it reads to a double
      ([nearest_double]); a zero carries no sign and there is no Infinity.
    - A string is a [string] of code units 0..255 (Basic Latin and Latin-1).
    - A thrown exception is the [Err] branch of [result]. *)

From Stdlib Require Import ZArith List String Ascii Bool Lia.
From Stdlib Require Import Zdivisibility Permutation Sorted.
From Stdlib Require Import Morphisms Setoid.
From Stdlib Require Floats.SpecFloat DecimalString.
Import ListNotations.

Local Open Scope string_scope.
Local Open Scope list_scope.
Local Open Scope Z_scope.

(* ================================================================== *)
(** ** Exceptions and the error monad *)

Inductive exn : Type :=
| InvalidDigit (char : ascii) (base : Z)
    (* throw new Error(`Invalid digit '${char}' for base ${base}`) *)
| RangeError_DivisionByZero      (* BigInt [/] or [%] by 0n *)
| RangeError_NotAnInteger        (* BigInt(NaN) *)
| TypeError_Undefined            (* property read on undefined, or
                                    BigInt arithmetic on undefined *)
| LoopBound.                     (* not a JavaScript exception: the iteration
                                    bound of the embedded while-loop was
                                    reached; [modInverse_loop_bound] shows
                                    that [modInverse] never produces it *)

Inductive result (A : Type) : Type :=
| Ok (v : A)
| Err (e : exn).

Arguments Ok {A} v.
Arguments Err {A} e.

Definition bind {A B : Type} (r : result A) (f : A -> result B) : result B :=
  match r with
  | Ok v => f v
  | Err e => Err e
  end.

Notation "x <- r ;; k" := (bind r (fun x => k))
  (at level 61, r at next level, right associativity).

(** JavaScript Numbers as the program uses them. *)
Inductive Number : Type :=
| NaN
| Num (z : Z).

(** [BigInt(x)] for a Number [x]. *)
Definition BigInt (x : Number) : result Z :=
  match x with
  | NaN => Err RangeError_NotAnInteger
  | Num z => Ok z
  end.

(** BigInt [a % m]. *)
Definition big_rem (a m : Z) : result Z :=
  if m =? 0 then Err RangeError_DivisionByZero else Ok (Z.rem a m).

(** BigInt [a / m]. *)
Definition big_quot (a m : Z) : result Z :=
  if m =? 0 then Err RangeError_DivisionByZero else Ok (Z.quot a m).

(* ================================================================== *)
(** ** modInverse (abc.js, lines 23-36) *)

(** One pass through the body of [while (a > 1n)]:
    [q = a / m; [a, m] = [m, a % m]; [x0, x1] = [x1 - q * x0, x0]]. *)
Record euclid_state : Type := mkState { st_a : Z; st_m : Z; st_x0 : Z; st_x1 : Z }.

Definition loop_body (s : euclid_state) : result euclid_state :=
  q <- big_quot (st_a s) (st_m s) ;;
  r <- big_rem (st_a s) (st_m s) ;;
  Ok (mkState (st_m s) r (st_x1 s - q * st_x0 s) (st_x0 s)).

(** The while-loop, cut off after [fuel] iterations. *)
Fixpoint modInverse_loop (fuel : nat) (s : euclid_state) : result euclid_state :=
  if st_a s >? 1 then
    match fuel with
    | O => Err LoopBound
    | S fuel' => s' <- loop_body s ;; modInverse_loop fuel' s'
    end
  else Ok s.

(** The second component at least halves every two iterations, so this many
    iterations are never exhausted ([modInverse_loop_bound]). *)
Definition iteration_bound (m : Z) : nat :=
  (2 * Z.to_nat (Z.log2 (Z.abs m)) + 4)%nat.

Definition modInverse (a m : Z) : result Z :=
  let m0 := m in
  if m =? 1 then Ok 0
  else
    s <- modInverse_loop (iteration_bound m) (mkState a m 0 1) ;;
    let x1 := st_x1 s in
    Ok (if x1 <? 0 then x1 + m0 else x1).

(* ================================================================== *)
(** ** Strings: toLowerCase, indexOf, parseInt *)

Definition code (c : ascii) : Z := Z.of_N (N_of_ascii c).

Definition ascii_of_code (z : Z) : ascii := ascii_of_N (Z.to_N z).

(** [String.prototype.toLowerCase] on one code unit of the Latin-1 range:
    A-Z and the capital letters U+00C0..U+00DE (but not the sign U+00D7)
    move up by 32, everything else stays. *)
Definition lower_char (c : ascii) : ascii :=
  let n := code c in
  if ((65 <=? n) && (n <=? 90)) || ((192 <=? n) && (n <=? 222) && negb (n =? 215))
  then ascii_of_code (n + 32)
  else c.

Fixpoint toLowerCase (s : string) : string :=
  match s with
  | EmptyString => EmptyString
  | String c rest => String (lower_char c) (toLowerCase rest)
  end.

(** [s.indexOf(c)] for a one-character [c]: the first position, or -1. *)
Fixpoint indexOf_from (s : string) (c : ascii) (i : Z) : Z :=
  match s with
  | EmptyString => -1
  | String d rest => if Ascii.eqb d c then i else indexOf_from rest c (i + 1)
  end.

Definition indexOf (s : string) (c : ascii) : Z := indexOf_from s c 0.

(** White space and line terminators that [parseInt] skips. *)
Definition isWhiteSpace (c : ascii) : bool :=
  let n := code c in
  ((9 <=? n) && (n <=? 13)) || (n =? 32) || (n =? 160).

Fixpoint trimStart (s : string) : string :=
  match s with
  | EmptyString => EmptyString
  | String c rest => if isWhiteSpace c then trimStart rest else s
  end.

(** The value of [c] as a digit of radix [R], if it is one. *)
Definition radix_digit (R : Z) (c : ascii) : option Z :=
  let n := code c in
  let d := if (48 <=? n) && (n <=? 57) then n - 48
           else if (97 <=? n) && (n <=? 122) then n - 87
           else if (65 <=? n) && (n <=? 90) then n - 55
           else 36 in
  if d <? R then Some d else None.

(** The longest prefix of radix-[R] digits, as a number; [None] when the
    prefix is empty. *)
Fixpoint parse_digits (R : Z) (s : string) (acc : option Z) : option Z :=
  match s with
  | EmptyString => acc
  | String c rest =>
      match radix_digit R c with
      | Some d =>
          parse_digits R rest
            (Some (match acc with Some v => v * R + d | None => d end))
      | None => acc
      end
  end.

Definition strip_hex_prefix (s : string) : option string :=
  match s with
  | String "0" (String "x" rest) => Some rest
  | String "0" (String "X" rest) => Some rest
  | _ => None
  end.

(** The Number value of a non-negative integer [v]: the nearest integer
    with at most 53 significant bits, the one with an even last bit when
    two are equally near.  Below 2^53 it is [v] itself. *)
Definition nearest_double (v : Z) : Z :=
  let e := Z.log2 v - 52 in
  if e <=? 0 then v
  else
    let q := v / 2 ^ e in
    let r := v mod 2 ^ e in
    let q' := if 2 * r <? 2 ^ e then q
              else if 2 ^ e <? 2 * r then q + 1
              else if Z.even q then q else q + 1 in
    q' * 2 ^ e.

(** [parseInt(s, radix)]; [radix = 0] stands for an absent radix.  The
    result is the Number value of the integer that the digits denote.
    This is the standard's result for radix 10 (up to 20 significant
    digits) and for the radices 2, 4, 8, 16 and 32; for the other radices
    the standard fixes the result only while the integer is below 2^53.
    Not represented: the sign of a zero (["-0"] gives [Num 0]) and the
    Infinity of a digit string whose integer rounds to 2^1024 or more.
    Statements that depend on a parsed number outside these ranges bound
    it. *)
Definition parseInt (s : string) (radix : Z) : Number :=
  let inputS := trimStart s in
  let '(sign, inputS) :=
    match inputS with
    | String "-" rest => (-1, rest)
    | String "+" rest => (1, rest)
    | _ => (1, inputS)
    end in
  if negb (radix =? 0) && ((radix <? 2) || (36 <? radix)) then NaN
  else
    let stripPrefix := (radix =? 0) || (radix =? 16) in
    let R := if radix =? 0 then 10 else radix in
    let '(R, inputS) :=
      match (if stripPrefix then strip_hex_prefix inputS else None) with
      | Some rest => (16, rest)
      | None => (R, inputS)
      end in
    match parse_digits R inputS None with
    | None => NaN
    | Some v => Num (sign * nearest_double v)
    end.

(* ================================================================== *)
(** ** parseValueBigInt (abc.js, lines 8-20) *)

Definition digits : string := "0123456789abcdefghijklmnopqrstuvwxyz".

(** The body of [for (let char of value)]. *)
Fixpoint parseValue_loop (bigBase : Z) (value : string) (res : Z) : result Z :=
  match value with
  | EmptyString => Ok res
  | String char rest =>
      let digit := indexOf digits char in
      if digit <? 0 then Err (InvalidDigit char bigBase)
      else parseValue_loop bigBase rest (res * bigBase + digit)
  end.

Definition parseValueBigInt (base : Number) (value : string) : result Z :=
  bigBase <- BigInt base ;;
  parseValue_loop bigBase (toLowerCase value) 0.

(* ================================================================== *)
(** ** lagrangeInterpolateBigInt (abc.js, lines 39-59) *)

(** A BigInt operand that may be [undefined] (an array read past the end). *)
Definition operand (v : option Z) : result Z :=
  match v with
  | Some z => Ok z
  | None => Err TypeError_Undefined
  end.

(** Lines 50-53, the body of [if (i !== j)]. *)
Definition inner_body (xi : Z) (targetX : Number) (primeMod : Z)
    (xPoints_j : Number) (term : option Z) : result (option Z) :=
  xj <- BigInt xPoints_j ;;
  t <- BigInt targetX ;;
  num <- big_rem (t - xj + primeMod) primeMod ;;
  den <- big_rem (xi - xj + primeMod) primeMod ;;
  tm <- operand term ;;
  a <- big_rem (tm * num) primeMod ;;
  inv <- modInverse den primeMod ;;
  term' <- big_rem (a * inv) primeMod ;;
  Ok (Some term').

(** [for (let j = 0; j < n; j++)] over [xPoints], the elements from
    position [j] on being [xs]. *)
Fixpoint inner_loop (i : nat) (xi : Z) (targetX : Number) (primeMod : Z)
    (j : nat) (xs : list Number) (term : option Z) : result (option Z) :=
  match xs with
  | [] => Ok term
  | xPoints_j :: rest =>
      if Nat.eqb i j then inner_loop i xi targetX primeMod (S j) rest term
      else
        term' <- inner_body xi targetX primeMod xPoints_j term ;;
        inner_loop i xi targetX primeMod (S j) rest term'
  end.

(** [for (let i = 0; i < n; i++)], the elements of [xPoints] from position
    [i] on being [xs]. *)
Fixpoint outer_loop (xPoints : list Number) (yPoints : list Z)
    (targetX : Number) (primeMod : Z)
    (i : nat) (xs : list Number) (total : Z) : result Z :=
  match xs with
  | [] => Ok total
  | xPoints_i :: rest =>
      xi <- BigInt xPoints_i ;;
      let yi := nth_error yPoints i in
      term <- inner_loop i xi targetX primeMod 0 xPoints yi ;;
      tm <- operand term ;;
      total' <- big_rem (total + tm) primeMod ;;
      outer_loop xPoints yPoints targetX primeMod (S i) rest total'
  end.

Definition lagrangeInterpolateBigInt (xPoints : list Number) (yPoints : list Z)
    (targetX : Number) (primeMod : Z) : result Z :=
  outer_loop xPoints yPoints targetX primeMod 0 xPoints 0.

(* ================================================================== *)
(** ** recoverSecret (abc.js, lines 64-91) *)

(** The value of one property of the request object: the [keys] record or a
    share record (whose [base] is given as the string it converts to). *)
Inductive propval : Type :=
| Keys (n k : Z)
| Share (base value : string).

(** A request object: its own properties in the order [Object.keys] lists
    them.  Property names are unique in a JavaScript object. *)
Definition object : Type := list (string * propval).

Definition Object_keys (data : object) : list string := map fst data.

Fixpoint get (data : object) (key : string) : option propval :=
  match data with
  | [] => None
  | (k, v) :: rest => if String.eqb k key then Some v else get rest key
  end.

(** Number subtraction, on integers and NaN. *)
Definition num_sub (a b : Number) : Number :=
  match a, b with
  | Num x, Num y => Num (x - y)
  | _, _ => NaN
  end.

(** [(a, b) => parseInt(a) - parseInt(b)]. *)
Definition compareFn (a b : string) : Number :=
  num_sub (parseInt a 0) (parseInt b 0).

(** [Array.prototype.sort(cmp)]: stable; [b] moves before [a] only when
    [cmp(a, b) > 0], and a NaN from the comparator counts as 0.  For a
    consistent comparator every stable sort gives this list; that is the
    case here when every name parses to a number.  With a name that parses
    to NaN the comparator is not consistent and the standard leaves the
    order to the engine: statements about the order require numeric
    names. *)
Definition comes_after (cmp : string -> string -> Number) (a b : string) : bool :=
  match cmp a b with
  | Num v => 0 <? v
  | NaN => false
  end.

Fixpoint insert (cmp : string -> string -> Number) (x : string)
    (l : list string) : list string :=
  match l with
  | [] => [x]
  | y :: rest => if comes_after cmp x y then y :: insert cmp x rest
                 else x :: y :: rest
  end.

Definition sort (cmp : string -> string -> Number) (l : list string) : list string :=
  fold_right (insert cmp) [] l.

(** [arr.slice(0, k)]; an absent [k] keeps the whole array and a negative
    one counts from the end. *)
Definition slice0 {A : Type} (l : list A) (k : option Z) : list A :=
  match k with
  | None => l
  | Some k =>
      let len := Z.of_nat (List.length l) in
      let final := if k <? 0 then Z.max (len + k) 0 else Z.min k len in
      firstn (Z.to_nat final) l
  end.

(** Lines 68-71: the property names used, in order. *)
Definition indices (data : object) (k : option Z) : list string :=
  slice0
    (sort compareFn
       (filter (fun key => negb (String.eqb key "keys")) (Object_keys data)))
    k.

(** Lines 76-81: the body of [indices.forEach]. *)
Definition decode_share (data : object) (key : string)
    (acc : list Number * list Z) : result (list Number * list Z) :=
  let '(xPoints, yPoints) := acc in
  match get data key with
  | None => Err TypeError_Undefined
  | Some (Share base value) =>
      let base := parseInt base 10 in
      let xPoints := xPoints ++ [parseInt key 0] in
      y <- parseValueBigInt base value ;;
      Ok (xPoints, yPoints ++ [y])
  | Some (Keys _ _) =>
      (* [base] and [value] are undefined: parseInt(undefined, 10) is NaN,
         and BigInt(NaN) throws before [value] is looked at *)
      let base := NaN in
      let xPoints := xPoints ++ [parseInt key 0] in
      y <- parseValueBigInt base EmptyString ;;
      Ok (xPoints, yPoints ++ [y])
  end.

Fixpoint forEach (data : object) (keys : list string)
    (acc : list Number * list Z) : result (list Number * list Z) :=
  match keys with
  | [] => Ok acc
  | key :: rest => acc' <- decode_share data key acc ;; forEach data rest acc'
  end.

Definition PRIME : Z := 2 ^ 521 - 1.

(** What [recoverSecret] prints. *)
Record recovered : Type := mkRecovered {
  used_indices : list Number;      (* "Used share indices:" *)
  decoded_shares : list Z;         (* "Decoded shares:" *)
  recoveredC : Z                   (* "Recovered secret (c):" *)
}.

Definition recoverSecret (data : object) : result recovered :=
  k <- match get data "keys" with
       | None => Err TypeError_Undefined
       | Some (Keys n k) => Ok (Some k)
       | Some (Share _ _) => Ok None
       end ;;
  let indices := indices data k in
  points <- forEach data indices ([], []) ;;
  let '(xPoints, yPoints) := points in
  recoveredC <- lagrangeInterpolateBigInt xPoints yPoints (Num 0) PRIME ;;
  Ok (mkRecovered xPoints yPoints recoveredC).

(** The two requests of the repository. *)
Definition sampleData : object :=
  [ ("1", Share "10" "4"); ("2", Share "2" "111"); ("3", Share "10" "12");
    ("6", Share "4" "213"); ("keys", Keys 4 3) ].

Definition secondData : object :=
  [ ("1", Share "6" "13444211440455345511");
    ("2", Share "15" "aed7015a346d635");
    ("3", Share "15" "6aeeb69631c227c");
    ("4", Share "16" "e1b5e05623d881f");
    ("5", Share "8" "316034514573652620673");
    ("6", Share "3" "2122212201122002221120200210011020220200");
    ("7", Share "3" "20120221122211000100210021102001201112121");
    ("8", Share "6" "20220554335330240002224253");
    ("9", Share "12" "45153788322a1255483");
    ("10", Share "7" "1101613130313526312514143");
    ("keys", Keys 10 7) ].

(* ================================================================== *)
(** * The Number variants (shamir_solver.js, test.js)

    These variants compute with JavaScript Numbers, IEEE 754 binary64
    values; they are [spec_float]s with the operations of the standard
    library's specification of binary64 (53 bits of precision, round to
    nearest even).  A [Number] of the first part ([NaN] or [Num z]) stands
    for the double nearest to [z]; [to_float] makes that explicit. *)

Definition float : Type := SpecFloat.spec_float.

Definition fzero : float := SpecFloat.S754_zero false.

Definition fnan : float := SpecFloat.S754_nan.

Definition of_int (z : Z) : float := SpecFloat.binary_normalize 53 1024 z 0 false.

Definition to_float (x : Number) : float :=
  match x with
  | NaN => fnan
  | Num z => of_int z
  end.

Definition fadd : float -> float -> float := SpecFloat.SFadd 53 1024.
Definition fsub : float -> float -> float := SpecFloat.SFsub 53 1024.
Definition fmul : float -> float -> float := SpecFloat.SFmul 53 1024.
Definition fdiv : float -> float -> float := SpecFloat.SFdiv 53 1024.

(** [isNaN(x)]. *)
Definition isNaN (x : float) : bool :=
  match x with
  | SpecFloat.S754_nan => true
  | _ => false
  end.

(** [Math.round(x)]: the integer nearest to [x], the larger one of two
    equally near; NaN, the infinities and the zeros are returned as they
    are, and a result of zero keeps the sign of [x]. *)
Definition Math_round (x : float) : float :=
  match x with
  | SpecFloat.S754_finite s m e =>
      if 0 <=? e then x
      else
        let d := 2 ^ (- e) in
        let twice := 2 * (if s then Z.neg m else Z.pos m) + d in
        let n := twice / (2 * d) in
        if n =? 0 then SpecFloat.S754_zero s else of_int n
  | _ => x
  end.

(** [ToInt32] on an integer, as [parseInt] applies it to its radix. *)
Definition ToInt32 (z : Z) : Z := (z + 2 ^ 31) mod 2 ^ 32 - 2 ^ 31.

(** [parseInt(s, radix)] for a radix that is itself a Number. *)
Definition parseInt_radix (s : string) (radix : Number) : Number :=
  parseInt s (match radix with NaN => 0 | Num z => ToInt32 z end).

(** [i.toString()] for a positive integer below 10^21. *)
Definition toString (i : Z) : string :=
  DecimalString.NilZero.string_of_uint (N.to_uint (Z.to_N i)).

(** A point or share [{ x, y }]. *)
Record point : Type := mkPoint { px : float; py : float }.

(** What these variants throw. *)
Inductive js_error : Type :=
| Error_invalid_digit (char : ascii) (base : Number)
    (* throw new Error(`Invalid digit '${value[i]}' for base ${base}`) *)
| Error_not_enough_points (k : Z) (have : nat)
    (* throw new Error(`Not enough valid points ... Need ${k}, have ${n}`) *)
| TypeError_property_of_undefined.

Inductive completion (A : Type) : Type :=
| Returned (v : A)
| Thrown (e : js_error).

Arguments Returned {A} v.
Arguments Thrown {A} e.

(** [testCase.keys.n] and [testCase.keys.k]; reading them off a missing
    [keys] throws, and off a share record gives undefined. *)
Definition keys_of (data : object) : completion (option Z * option Z) :=
  match get data "keys" with
  | None => Thrown TypeError_property_of_undefined
  | Some (Keys n k) => Returned (Some n, Some k)
  | Some (Share _ _) => Returned (None, None)
  end.

(** [len < k] for an array length and a [k] that may be undefined. *)
Definition length_below (len : nat) (k : option Z) : bool :=
  match k with
  | Some k => Z.of_nat len <? k
  | None => false
  end.

(** One factor of the basis polynomial at 0: [li * ((0 - xj) / (xi - xj))]. *)
Definition basis_step (xi xj li : float) : float :=
  fmul li (fdiv (fsub fzero xj) (fsub xi xj)).

Module Solver.

(** baseToDecimal (shamir_solver.js, lines 12-26). *)
Fixpoint baseToDecimal_loop (base : Number) (value : string) (res : float)
    : completion float :=
  match value with
  | EmptyString => Returned res
  | String char rest =>
      let digitValue := indexOf digits char in
      if (digitValue =? -1)
         || (match base with Num b => b <=? digitValue | NaN => false end)
      then Thrown (Error_invalid_digit char base)
      else baseToDecimal_loop base rest
             (fadd (fmul res (to_float base)) (of_int digitValue))
  end.

Definition baseToDecimal (value : string) (base : Number) : completion float :=
  baseToDecimal_loop base (toLowerCase value) fzero.

(** lagrangeInterpolation (lines 33-57): the inner loop over [j], the
    elements of [points] from position [j] on being [rest]. *)
Fixpoint basis_loop (i : nat) (xi : float) (j : nat) (rest : list point)
    (li : float) : float :=
  match rest with
  | [] => li
  | pj :: rest' =>
      if Nat.eqb i j then basis_loop i xi (S j) rest' li
      else basis_loop i xi (S j) rest' (basis_step xi (px pj) li)
  end.

(** The outer loop over [i]. *)
Fixpoint secret_loop (points : list point) (i : nat) (rest : list point)
    (secret : float) : float :=
  match rest with
  | [] => secret
  | pi :: rest' =>
      let li := basis_loop i (px pi) 0 points (of_int 1) in
      secret_loop points (S i) rest' (fadd secret (fmul (py pi) li))
  end.

Definition lagrangeInterpolation (points : list point) : float :=
  Math_round (secret_loop points 0 points fzero).

(** Lines 77-94, the body of the loop for one [i]: the point of share [i],
    if the request has such a share and its value converts. *)
Definition point_of (testCase : object) (i : Z) : option point :=
  match get testCase (toString i) with
  | None => None
  | Some (Keys _ _) => None
      (* [root.value] is undefined: baseToDecimal throws a TypeError,
         which the catch block swallows *)
  | Some (Share base value) =>
      match baseToDecimal value (parseInt base 0) with
      | Returned decimalValue => Some (mkPoint (of_int i) decimalValue)
      | Thrown _ => None
      end
  end.

(** The values of [i] in [for (let i = 1; i <= n; i++)]. *)
Definition loop_range (n : option Z) : list Z :=
  match n with
  | Some n => map Z.of_nat (seq 1 (Z.to_nat n))
  | None => []
  end.

Fixpoint collect (testCase : object) (range : list Z) (points : list point)
    : list point :=
  match range with
  | [] => points
  | i :: rest =>
      match point_of testCase i with
      | Some pt => collect testCase rest (points ++ [pt])
      | None => collect testCase rest points
      end
  end.

(** solveShamirSecret (lines 64-117). *)
Definition solveShamirSecret (testCase : object) : completion float :=
  match keys_of testCase with
  | Thrown e => Thrown e
  | Returned (n, k) =>
      let points := collect testCase (loop_range n) [] in
      if length_below (List.length points) k
      then Thrown (Error_not_enough_points
                     (match k with Some k => k | None => 0 end)
                     (List.length points))
      else
        let interpolationPoints := slice0 points k in
        Returned (lagrangeInterpolation interpolationPoints)
  end.

(** runTestCase (lines 202-214); [None] is the [null] of the catch block. *)
Definition runTestCase (testCase : object) : option float :=
  match solveShamirSecret testCase with
  | Returned secret => Some secret
  | Thrown _ => None
  end.

End Solver.

Module Test.

(** decodeShares (test.js, lines 14-25), over the properties in
    enumeration order. *)
Definition decode_property (json : object) (key : string) : point :=
  match get json key with
  | Some (Share base value) =>
      let x := parseInt key 10 in
      let base := parseInt base 10 in
      let y := parseInt_radix value base in
      mkPoint (to_float x) (to_float y)
  | _ =>
      (* [base] and [valueStr] are undefined: both parseInt calls give NaN *)
      mkPoint (to_float (parseInt key 10)) fnan
  end.

Fixpoint decode_loop (json : object) (keys : list string) (shares : list point)
    : list point :=
  match keys with
  | [] => shares
  | key :: rest =>
      if String.eqb key "keys" then decode_loop json rest shares
      else decode_loop json rest (shares ++ [decode_property json key])
  end.

Definition decodeShares (json : object) : list point :=
  decode_loop json (Object_keys json) [].

(** lagrangeInterpolationAtZero (lines 28-46): the loops run [k] times
    and read [shares[i]] and [shares[j]]; reading past the end throws. *)
Fixpoint basis_loop (shares : list point) (i : nat) (xi : float) (j : nat)
    (count : nat) (li : float) : completion float :=
  match count with
  | O => Returned li
  | S count' =>
      if Nat.eqb i j then basis_loop shares i xi (S j) count' li
      else
        match nth_error shares j with
        | None => Thrown TypeError_property_of_undefined
        | Some pj => basis_loop shares i xi (S j) count'
                       (basis_step xi (px pj) li)
        end
  end.

Fixpoint secret_loop (shares : list point) (k : nat) (i : nat) (count : nat)
    (secret : float) : completion float :=
  match count with
  | O => Returned secret
  | S count' =>
      match nth_error shares i with
      | None => Thrown TypeError_property_of_undefined
      | Some pi =>
          match basis_loop shares i (px pi) 0 k (of_int 1) with
          | Thrown e => Thrown e
          | Returned li =>
              secret_loop shares k (S i) count' (fadd secret (fmul (py pi) li))
          end
      end
  end.

Definition lagrangeInterpolationAtZero (shares : list point) (k : option Z)
    : completion float :=
  let count := match k with Some k => Z.to_nat k | None => O end in
  match secret_loop shares count 0 count fzero with
  | Thrown e => Thrown e
  | Returned secret => Returned (Math_round secret)
  end.

(** run (lines 49-66): [None] when it reports that the shares are too few,
    otherwise the secret it prints. *)
Definition run (input : object) : completion (option float) :=
  let shares := decodeShares input in
  match keys_of input with
  | Thrown e => Thrown e
  | Returned (_, k) =>
      if length_below (List.length shares) k then Returned None
      else
        let selectedShares := slice0 shares k in
        match lagrangeInterpolationAtZero selectedShares k with
        | Thrown e => Thrown e
        | Returned secret => Returned (Some secret)
        end
  end.

End Test.

Module Enhanced.

(** decodeShares of the second variant (shamir_solver.js, lines 265-296):
    the share of one property, unless it is skipped. *)
Definition decode_property (json : object) (key : string) : option point :=
  match get json key with
  | Some (Share base value) =>
      let x := parseInt key 10 in
      let base := parseInt base 10 in
      if (match base with Num b => (b <? 2) || (36 <? b) | NaN => false end)
      then None
      else
        let y := parseInt_radix value base in
        if isNaN (to_float y) then None
        else Some (mkPoint (to_float x) (to_float y))
  | _ => None
      (* [base] is NaN and [valueStr] undefined: [y] is NaN *)
  end.

Fixpoint decode_loop (json : object) (keys : list string) (shares : list point)
    : list point :=
  match keys with
  | [] => shares
  | key :: rest =>
      if String.eqb key "keys" then decode_loop json rest shares
      else
        match decode_property json key with
        | Some share => decode_loop json rest (shares ++ [share])
        | None => decode_loop json rest shares
        end
  end.

Definition decodeShares (json : object) : list point :=
  decode_loop json (Object_keys json) [].

(** lagrangeInterpolationAtZero (lines 298-319) computes as in test.js and
    logs each term. *)
Definition lagrangeInterpolationAtZero := Test.lagrangeInterpolationAtZero.

(** run (lines 321-348): the secret, or [None] for the [null] it returns
    when the shares are too few. *)
Definition run (input : object) : completion (option float) :=
  let shares := decodeShares input in
  match keys_of input with
  | Thrown e => Thrown e
  | Returned (_, k) =>
      if length_below (List.length shares) k then Returned None
      else
        let selectedShares := slice0 shares k in
        match lagrangeInterpolationAtZero selectedShares k with
        | Thrown e => Thrown e
        | Returned secret => Returned (Some secret)
        end
  end.

End Enhanced.

(* ================================================================== *)
(** * Vocabulary of the statements *)

(** ** The loop of modInverse *)

(** The state [modInverse] enters its loop with. *)
Definition init_state (a m : Z) : euclid_state := mkState a m 0 1.

(** The states the loop passes through. *)
Inductive reaches (s : euclid_state) : euclid_state -> Prop :=
| reaches_start : reaches s s
| reaches_next (s' s'' : euclid_state) :
    reaches s s' -> 1 < st_a s' -> loop_body s' = Ok s'' -> reaches s s''.

(** What holds of the state each time the loop condition is tested, [a0]
    and [m0] being the arguments [modInverse] was called with. *)
Record invariant (a0 m0 : Z) (s : euclid_state) : Prop := mkInvariant {
  inv_a : 0 < st_a s;
  inv_m : 0 <= st_m s;
  inv_gcd : Z.gcd (st_a s) (st_m s) = 1;
  inv_sign :
    (st_x0 s <= 0 <= st_x1 s /\ st_m s * st_x1 s - st_a s * st_x0 s = m0) \/
    (st_x1 s <= 0 <= st_x0 s /\ st_a s * st_x0 s - st_m s * st_x1 s = m0);
  inv_x1 : - m0 <= 2 * st_x1 s <= m0;
  inv_bezout_a : (m0 | st_a s - st_x1 s * a0);
  inv_bezout_m : (m0 | st_m s - st_x0 s * a0)
}.

(** ** Positional notation *)

(** The digit a character stands for, upper and lower case alike:
    '0'..'9' are 0..9 and 'a'..'z' are 10..35. *)
Definition digit_value (c : ascii) : option Z :=
  let n := code c in
  if (48 <=? n) && (n <=? 57) then Some (n - 48)
  else if (97 <=? n) && (n <=? 122) then Some (n - 87)
  else if (65 <=? n) && (n <=? 90) then Some (n - 55)
  else None.

(** The number a list of digits denotes in base [b], most significant digit
    first: the sum of [d_i * b^(n-1-i)]. *)
Fixpoint positional (b : Z) (ds : list Z) : Z :=
  match ds with
  | [] => 0
  | d :: rest => d * b ^ Z.of_nat (List.length rest) + positional b rest
  end.

(** ** Congruences and polynomials *)

Definition cong (p a b : Z) : Prop := (p | a - b).

(** The value at [t] of the polynomial with coefficients [cs], lowest
    degree first. *)
Fixpoint eval (cs : list Z) (t : Z) : Z :=
  match cs with
  | [] => 0
  | c :: rest => c + t * eval rest t
  end.

Fixpoint padd (f g : list Z) : list Z :=
  match f, g with
  | [], _ => g
  | _, [] => f
  | a :: f', b :: g' => (a + b) :: padd f' g'
  end.

Definition pscale (c : Z) (f : list Z) : list Z := map (Z.mul c) f.

(** [(t - a) * f]. *)
Definition pmul_linear (a : Z) (f : list Z) : list Z :=
  padd (0 :: f) (pscale (- a) f).

(** The product of [t - z] over [zs], as a polynomial and as a value. *)
Fixpoint basis (zs : list Z) : list Z :=
  match zs with
  | [] => [1]
  | z :: rest => pmul_linear z (basis rest)
  end.

Fixpoint prod_diff (t : Z) (zs : list Z) : Z :=
  match zs with
  | [] => 1
  | z :: rest => (t - z) * prod_diff t rest
  end.

(** The quotient of [f] by [t - r] (synthetic division). *)
Fixpoint deflate (r : Z) (f : list Z) : list Z :=
  match f with
  | [] => []
  | _ :: rest =>
      match rest with
      | [] => []
      | _ :: _ => eval rest r :: deflate r rest
      end
  end.

(** The points lie on the polynomial, modulo [p]. *)
Definition interpolates (p : Z) (f : list Z) (pts : list (Z * Z)) : Prop :=
  forall x y, In (x, y) pts -> eval f x mod p = y mod p.

(** The x values are pairwise distinct modulo [p]. *)
Definition distinct_mod (p : Z) (xs : list Z) : Prop :=
  NoDup xs /\ forall a b, In a xs -> In b xs -> a <> b -> ~ (p | a - b).

(** The x values lie less than [p] apart. *)
Definition spread_below (p : Z) (xs : list Z) : Prop :=
  forall a b, In a xs -> In b xs -> a - b < p.

(** ** The interpolation loops *)

(** The denominator of line 52 and, for [targetX = 0], the numerator of
    line 51. *)
Definition den (xi xj p : Z) : Z := Z.rem (xi - xj + p) p.

Definition num (xj p : Z) : Z := Z.rem (0 - xj + p) p.

(** The inverse the program computes for a residue, as a function. *)
Definition field_inverse (p d : Z) : Z :=
  match modInverse (d mod p) p with
  | Ok r => r
  | Err _ => 0
  end.

(** The inner body over a whole list, none of its elements skipped. *)
Fixpoint inner_fold (p xi : Z) (targetX : Number) (xs : list Number)
    (term : option Z) : result (option Z) :=
  match xs with
  | [] => Ok term
  | x :: rest =>
      term' <- inner_body xi targetX p x term ;;
      inner_fold p xi targetX rest term'
  end.

(** The part of the Lagrange polynomial of the points [pre ++ post] that
    comes from the points of [post]; [pre] holds the x values before them. *)
Fixpoint lagrange_poly (p : Z) (pre : list Z) (post : list (Z * Z)) : list Z :=
  match post with
  | [] => []
  | (x, y) :: rest =>
      let others := pre ++ map fst rest in
      padd (pscale (y * field_inverse p (prod_diff x others)) (basis others))
           (lagrange_poly p (pre ++ [x]) rest)
  end.

(** ** Requests *)

(** The property names of the shares, as [recoverSecret] filters them. *)
Definition share_keys (data : object) : list string :=
  filter (fun key => negb (String.eqb key "keys")) (Object_keys data).

(** The order of two property names by the numbers they parse to. *)
Definition num_lt (a b : Number) : Prop :=
  match a, b with
  | Num x, Num y => x < y
  | _, _ => False
  end.

Definition num_le (a b : Number) : Prop :=
  match a, b with
  | Num x, Num y => x <= y
  | _, _ => False
  end.

Definition index_lt (a b : string) : Prop := num_lt (parseInt a 0) (parseInt b 0).

Definition index_le (a b : string) : Prop := num_le (parseInt a 0) (parseInt b 0).

(** The property name parses as a number. *)
Definition numeric (key : string) : Prop := exists z, parseInt key 0 = Num z.

(** The decoded value of the share stored under [key]. *)
Definition share_value (data : object) (key : string) : result Z :=
  match get data key with
  | None => Err TypeError_Undefined
  | Some (Share base value) => parseValueBigInt (parseInt base 10) value
  | Some (Keys _ _) => parseValueBigInt NaN EmptyString
  end.

(** The first request of the repository with a digit of share 2 damaged. *)
Definition damagedData : object :=
  [ ("1", Share "10" "4"); ("2", Share "2" "1?1"); ("3", Share "10" "12");
    ("6", Share "4" "213"); ("keys", Keys 4 3) ].

(** A request with threshold 3 that holds only two shares. *)
Definition twoShares : object :=
  [ ("1", Share "10" "4"); ("2", Share "2" "111"); ("keys", Keys 4 3) ].

(** The character is in the alphabet, up to case. *)
Definition has_digit (c : ascii) : Prop := exists d, digit_value c = Some d.

(** A request with the given share properties, followed by its [keys]
    record. *)
Definition request (shares : object) (n k : Z) : object :=
  shares ++ [("keys", Keys n k)].

(** The character is a digit that [baseToDecimal] accepts for [base]. *)
Definition valid_for (base : Number) (c : ascii) : Prop :=
  exists d, digit_value c = Some d /\
            match base with Num b => d < b | NaN => True end.

(** Share [i] exists in the request and its value converts. *)
Definition has_point (testCase : object) (i : Z) : bool :=
  match Solver.point_of testCase i with
  | Some _ => true
  | None => false
  end.

(** ** Doubles that are integers *)

(** The integer that a double is, if it is one. *)
Definition float_int (f : float) : option Z :=
  match f with
  | SpecFloat.S754_zero _ => Some 0
  | SpecFloat.S754_finite s m e =>
      let z := if s then Z.neg m else Z.pos m in
      if 0 <=? e then Some (z * 2 ^ e)
      else if z mod 2 ^ (- e) =? 0 then Some (z / 2 ^ (- e)) else None
  | _ => None
  end.

(** The double with a 53-bit mantissa whose value is the integer [v], for
    [0 < v < 2^53]. *)
Definition normal (v : Z) : float :=
  SpecFloat.S754_finite false (Z.to_pos (v * 2 ^ (52 - Z.log2 v))) (Z.log2 v - 52).

(** ** The selection of shares *)

(** The share name parses to a positive integer below 2^53, a number that
    a double holds exactly. *)
Definition indexed (key : string) : Prop :=
  exists z, parseInt key 0 = Num z /\ 1 <= z < 2 ^ 53.

(** [selected] lists the [k] shares of the request with the smallest
    indices, in ascending order of index. *)
Definition selection (data : object) (k : Z) (selected : list string) : Prop :=
  exists unused,
    Permutation (selected ++ unused) (share_keys data) /\
    List.length selected = Z.to_nat k /\
    StronglySorted index_lt selected /\
    (forall a b, In a selected -> In b unused -> index_lt a b).

(** The decoded values of the listed shares, or the error of the first
    share that does not decode. *)
Fixpoint share_values (data : object) (keys : list string) : result (list Z) :=
  match keys with
  | [] => Ok []
  | key :: rest =>
      y <- share_value data key ;;
      ys <- share_values data rest ;;
      Ok (y :: ys)
  end.

(** Recovery from the listed shares: their indices and decoded values,
    interpolated at 0 modulo [PRIME]. *)
Definition recover_from (data : object) (selected : list string) : result recovered :=
  ys <- share_values data selected ;;
  let xs := map (fun key => parseInt key 0) selected in
  c <- lagrangeInterpolateBigInt xs ys (Num 0) PRIME ;;
  Ok (mkRecovered xs ys c).



(** Two shares whose indices differ by one above 2^53, the larger index
    listed first. *)
Definition bigIndices : object :=
  [ ("9007199254740993", Share "10" "5"); ("9007199254740992", Share "10" "7");
    ("keys", Keys 2 1) ].

(** The first request of the repository with the digit 2 in the base-2
    value of share 2. *)
Definition overBase : object :=
  [ ("1", Share "10" "4"); ("2", Share "2" "112"); ("3", Share "10" "12");
    ("6", Share "4" "213"); ("keys", Keys 4 3) ].

(** Two shares with indices above 2^32, in either order of insertion. *)
Definition wideIndices : object :=
  [ ("4294967297", Share "10" "4"); ("4294967296", Share "2" "111");
    ("keys", Keys 2 2) ].

Definition wideIndices' : object :=
  [ ("4294967296", Share "2" "111"); ("4294967297", Share "10" "4");
    ("keys", Keys 2 2) ].

(** ** Rounding to a double *)

(** The round bit and the sticky bit of [m] after a shift by [k] bits. *)
Definition round_bit (m : Z) (k : nat) : bool :=
  2 ^ Z.of_nat k <=? 2 * (m mod 2 ^ Z.of_nat k).

Definition sticky_bit (m : Z) (k : nat) : bool :=
  negb (m mod 2 ^ Z.of_nat k =? 0)
  && negb (2 * (m mod 2 ^ Z.of_nat k) =? 2 ^ Z.of_nat k).

(** The mantissa of [v] rounded to nearest even for a shift by [e] bits. *)
Definition rounded_mantissa (v e : Z) : Z :=
  let q := v / 2 ^ e in
  let r := v mod 2 ^ e in
  if 2 * r <? 2 ^ e then q
  else if 2 ^ e <? 2 * r then q + 1
  else if Z.even q then q else q + 1.

(* ================================================================== *)
(** * Properties *)

(** ** The error monad *)

Lemma big_rem_Ok (a m : Z) : m <> 0 -> big_rem a m = Ok (Z.rem a m).
Proof.
  intros H. unfold big_rem. destruct (Z.eqb_spec m 0); [contradiction | reflexivity].
Qed.

Lemma big_quot_Ok (a m : Z) : m <> 0 -> big_quot a m = Ok (Z.quot a m).
Proof.
  intros H. unfold big_quot. destruct (Z.eqb_spec m 0); [contradiction | reflexivity].
Qed.

(* ------------------------------------------------------------------ *)
(** ** modInverse: the loop always stops *)

Lemma loop_body_Ok (s : euclid_state) :
  st_m s <> 0 ->
  loop_body s =
  Ok (mkState (st_m s) (Z.rem (st_a s) (st_m s))
        (st_x1 s - Z.quot (st_a s) (st_m s) * st_x0 s) (st_x0 s)).
Proof.
  intros H. unfold loop_body. rewrite big_quot_Ok, big_rem_Ok by assumption.
  reflexivity.
Qed.

Lemma loop_body_zero (s : euclid_state) :
  st_m s = 0 -> loop_body s = Err RangeError_DivisionByZero.
Proof.
  intros H. unfold loop_body, big_quot. rewrite H. reflexivity.
Qed.

Lemma modInverse_loop_unfold (fuel : nat) (s : euclid_state) :
  modInverse_loop (S fuel) s =
  if st_a s >? 1 then s' <- loop_body s ;; modInverse_loop fuel s' else Ok s.
Proof. reflexivity. Qed.

Lemma modInverse_loop_exit (fuel : nat) (s : euclid_state) :
  st_a s <= 1 -> modInverse_loop fuel s = Ok s.
Proof.
  intros H. destruct fuel; simpl;
    (destruct (Z.gtb_spec (st_a s) 1); [lia | reflexivity]).
Qed.

(** More fuel does not change a run that ended within its bound. *)
Lemma modInverse_loop_mono (fuel : nat) :
  forall (s : euclid_state) (fuel' : nat),
    modInverse_loop fuel s <> Err LoopBound ->
    (fuel <= fuel')%nat ->
    modInverse_loop fuel' s = modInverse_loop fuel s.
Proof.
  induction fuel as [| fuel IH]; intros s fuel' Hfin Hle.
  - simpl in *. destruct (Z.gtb_spec (st_a s) 1) as [Hgt | Hle1].
    + contradiction Hfin; reflexivity.
    + apply modInverse_loop_exit; assumption.
  - destruct fuel' as [| fuel']; [lia |].
    rewrite !modInverse_loop_unfold in *.
    destruct (st_a s >? 1); [| reflexivity].
    destruct (loop_body s) as [s' | e]; simpl in *; [| reflexivity].
    apply IH; [assumption | lia].
Qed.

(** With [0 <= m < a] and [m < 2^k], [2k+1] iterations are enough: after two
    iterations the second component is less than half of what it was. *)
Lemma loop_halving (k : nat) :
  forall (fuel : nat) (s : euclid_state),
    0 <= st_m s < 2 ^ Z.of_nat k ->
    st_m s < st_a s ->
    (2 * k + 1 <= fuel)%nat ->
    modInverse_loop fuel s <> Err LoopBound.
Proof.
  induction k as [| k IH]; intros fuel s Hm Ha Hfuel.
  - destruct fuel as [| fuel]; [lia |].
    rewrite modInverse_loop_unfold.
    destruct (st_a s >? 1); [| discriminate].
    rewrite loop_body_zero by (simpl in Hm; lia). discriminate.
  - destruct fuel as [| [| fuel]]; [lia | lia |].
    rewrite modInverse_loop_unfold.
    destruct (Z.gtb_spec (st_a s) 1) as [Ha1 | Ha1]; [| discriminate].
    destruct (Z.eq_dec (st_m s) 0) as [Hz | Hnz].
    { rewrite loop_body_zero by assumption. discriminate. }
    rewrite loop_body_Ok by assumption. cbn [bind].
    set (r1 := Z.rem (st_a s) (st_m s)).
    assert (Hr1 : 0 <= r1 < st_m s) by (apply Z.rem_bound_pos; lia).
    rewrite modInverse_loop_unfold. cbn [st_a st_m st_x0 st_x1].
    destruct (Z.gtb_spec (st_m s) 1) as [Hm1 | Hm1]; [| discriminate].
    destruct (Z.eq_dec r1 0) as [Hz1 | Hnz1].
    { rewrite loop_body_zero by assumption. discriminate. }
    rewrite loop_body_Ok by assumption. cbn [bind st_a st_m st_x0 st_x1].
    set (r2 := Z.rem (st_m s) r1).
    assert (Hr2 : 0 <= r2 < r1) by (apply Z.rem_bound_pos; lia).
    assert (Hq : 1 <= Z.quot (st_m s) r1).
    { apply Z.quot_le_lower_bound; lia. }
    assert (Hdiv : st_m s = r1 * Z.quot (st_m s) r1 + r2)
      by (apply Z.quot_rem'; lia).
    apply IH; cbn [st_a st_m]; [| lia | lia].
    replace (2 ^ Z.of_nat (S k)) with (2 * 2 ^ Z.of_nat k) in Hm
      by (rewrite Nat2Z.inj_succ, Z.pow_succ_r; lia).
    nia.
Qed.

(** The bound [modInverse] runs its loop with is never reached, whatever
    the arguments: the loop of the source always stops. *)
Lemma modInverse_loop_bound (a m x0 x1 : Z) :
  modInverse_loop (iteration_bound m) (mkState a m x0 x1) <> Err LoopBound.
Proof.
  unfold iteration_bound.
  replace (2 * Z.to_nat (Z.log2 (Z.abs m)) + 4)%nat
    with (S (2 * (Z.to_nat (Z.log2 (Z.abs m)) + 1) + 1))%nat by lia.
  rewrite modInverse_loop_unfold. cbn [st_a st_m st_x0 st_x1].
  destruct (Z.gtb_spec a 1) as [Ha1 | Ha1]; [| discriminate].
  destruct (Z.eq_dec m 0) as [Hz | Hnz].
  { rewrite loop_body_zero by assumption. discriminate. }
  rewrite loop_body_Ok by assumption. cbn [bind st_a st_m st_x0 st_x1].
  destruct (Z_le_gt_dec m 1) as [Hm1 | Hm1].
  { rewrite modInverse_loop_exit by assumption. discriminate. }
  assert (Hr : 0 <= Z.rem a m < m) by (apply Z.rem_bound_pos; lia).
  apply (loop_halving (Z.to_nat (Z.log2 (Z.abs m)) + 1));
    cbn [st_a st_m]; [| lia | lia].
  split; [lia |].
  rewrite Z.abs_eq by lia.
  rewrite Nat2Z.inj_add, Z2Nat.id by (apply Z.log2_nonneg).
  pose proof (Z.log2_spec m ltac:(lia)) as Hlog.
  change (Z.of_nat 1) with 1. rewrite <- Z.add_1_r in Hlog. lia.
Qed.

Lemma modInverse_never_LoopBound (a m : Z) : modInverse a m <> Err LoopBound.
Proof.
  unfold modInverse. destruct (m =? 1); [discriminate |].
  pose proof (modInverse_loop_bound a m 0 1) as H.
  destruct (modInverse_loop (iteration_bound m) (mkState a m 0 1)) as [s | e];
    simpl; [discriminate | congruence].
Qed.

(* ------------------------------------------------------------------ *)
(** ** modInverse: the Bezout invariant *)

Section EuclidInvariant.

(** The arguments [modInverse] was called with. *)
Variables a0 m0 : Z.

Lemma invariant_init :
  0 < a0 < m0 -> Z.gcd a0 m0 = 1 -> invariant a0 m0 (init_state a0 m0).
Proof.
  intros Hr Hg. constructor; cbn [init_state st_a st_m st_x0 st_x1].
  - lia.
  - lia.
  - assumption.
  - left. lia.
  - lia.
  - exists 0. lia.
  - exists 1. lia.
Qed.

(** While the loop runs the divisor is not zero. *)
Lemma invariant_divisor (s : euclid_state) :
  invariant a0 m0 s -> 1 < st_a s -> 0 < st_m s.
Proof.
  intros [Ha Hm Hg _ _ _ _] H1.
  destruct (Z.eq_dec (st_m s) 0) as [Hz | Hnz]; [| lia].
  rewrite Hz, Z.gcd_0_r, Z.abs_eq in Hg by lia. lia.
Qed.

Lemma invariant_step (s s' : euclid_state) :
  invariant a0 m0 s -> 1 < st_a s -> loop_body s = Ok s' ->
  invariant a0 m0 s' /\ 0 <= st_m s' < st_m s.
Proof.
  intros Hinv H1 Hstep.
  pose proof (invariant_divisor s Hinv H1) as Hmpos.
  destruct Hinv as [Ha Hm Hg Hsign Hx1 Hba Hbm].
  rewrite loop_body_Ok in Hstep by lia.
  injection Hstep as <-.
  assert (Hrem : 0 <= Z.rem (st_a s) (st_m s) < st_m s)
    by (apply Z.rem_bound_pos; lia).
  assert (Hq : 0 <= Z.quot (st_a s) (st_m s))
    by (apply Z.quot_pos; lia).
  assert (Hdiv : st_a s = st_m s * Z.quot (st_a s) (st_m s)
                        + Z.rem (st_a s) (st_m s))
    by (apply Z.quot_rem'; lia).
  set (q := Z.quot (st_a s) (st_m s)) in *.
  set (r := Z.rem (st_a s) (st_m s)) in *.
  split; [| cbn [st_m]; lia].
  constructor; cbn [st_a st_m st_x0 st_x1].
  - lia.
  - lia.
  - rewrite <- Hg. rewrite (Z.gcd_comm (st_a s)).
    replace (st_a s) with (r + q * st_m s) by lia.
    rewrite Z.gcd_add_mult_diag_r. reflexivity.
  - destruct Hsign as [[Hs He] | [Hs He]]; [right | left]; split; nia.
  - destruct Hsign as [[Hs He] | [Hs He]]; nia.
  - assumption.
  - destruct Hba as [u Hu]. destruct Hbm as [v Hv].
    exists (u - q * v).
    replace r with (st_a s - st_m s * q) by lia. nia.
Qed.

(** Unless the iteration bound cuts it off, the loop ends in a state that
    satisfies the invariant with first component 1. *)
Lemma invariant_loop (fuel : nat) :
  forall s : euclid_state,
    invariant a0 m0 s ->
    modInverse_loop fuel s = Err LoopBound \/
    exists s', modInverse_loop fuel s = Ok s' /\ invariant a0 m0 s' /\ st_a s' = 1.
Proof.
  induction fuel as [| fuel IH]; intros s Hinv.
  - simpl. destruct (Z.gtb_spec (st_a s) 1) as [H1 | H1]; [left; reflexivity |].
    right. exists s. pose proof (inv_a a0 m0 s Hinv).
    split; [reflexivity | split; [assumption | lia]].
  - rewrite modInverse_loop_unfold.
    destruct (Z.gtb_spec (st_a s) 1) as [H1 | H1].
    + pose proof (invariant_divisor s Hinv H1) as Hmpos.
      rewrite loop_body_Ok by lia. cbn [bind].
      apply IH.
      apply (invariant_step s); [assumption | assumption |].
      apply loop_body_Ok; lia.
    + right. exists s. pose proof (inv_a a0 m0 s Hinv).
      split; [reflexivity | split; [assumption | lia]].
Qed.

End EuclidInvariant.

(** [modInverse] on coprime arguments [0 < a < m]. *)
Lemma modInverse_coprime (a m : Z) :
  0 < a < m -> Z.gcd a m = 1 ->
  exists r, modInverse a m = Ok r /\ 0 <= r < m /\ (a * r) mod m = 1.
Proof.
  intros Hr Hg. unfold modInverse.
  destruct (Z.eqb_spec m 1) as [Hm1 | Hm1]; [lia |].
  pose proof (modInverse_loop_bound a m 0 1) as Hbound.
  destruct (invariant_loop a m (iteration_bound m) (init_state a m)
              (invariant_init a m Hr Hg)) as [Hcut | [s [Hrun [Hinv Ha1]]]].
  { contradiction. }
  unfold init_state in Hrun. rewrite Hrun. cbn [bind].
  destruct Hinv as [_ _ _ _ Hx1 [u Hu] _].
  eexists; split; [reflexivity |].
  assert (Hres : forall r, 0 <= r < m -> (m | 1 - r * a) -> (a * r) mod m = 1).
  { intros r Hrange [w Hw].
    replace (a * r) with (1 + (- w) * m) by lia.
    rewrite Z.mod_add by lia. apply Z.mod_small. lia. }
  destruct (Z.ltb_spec (st_x1 s) 0) as [Hneg | Hpos].
  - split; [lia |]. apply Hres; [lia |].
    exists (u - a). lia.
  - split; [lia |]. apply Hres; [lia |].
    exists u. lia.
Qed.

(** A number strictly between 0 and a prime is coprime to it. *)
Lemma prime_range_coprime (a p : Z) : Z.prime p -> 0 < a < p -> Z.gcd a p = 1.
Proof.
  intros Hp Hr. rewrite Z.gcd_comm.
  apply (Z.coprime_prime_small p a Hp). lia.
Qed.

Lemma prime_5 : Z.prime 5.
Proof.
  split; [lia |]. intros n Hn [k Hk].
  assert (Hc : n = 2 \/ n = 3 \/ n = 4) by lia.
  destruct Hc as [-> | [-> | ->]]; lia.
Qed.

Lemma reaches_invariant (a m : Z) (s : euclid_state) :
  0 < a < m -> Z.gcd a m = 1 ->
  reaches (init_state a m) s -> invariant a m s.
Proof.
  intros Hr Hg Hreach. induction Hreach as [| s' s'' _ IH H1 Hstep].
  - apply invariant_init; assumption.
  - apply (invariant_step a m s' s'' IH H1 Hstep).
Qed.

(** C5: for every prime [m] and every [a] with [0 < a < m], [modInverse a m]
    returns a value [r] with [0 <= r < m] and [(a * r) mod m = 1]. *)
Theorem modInverse_prime_inverse (a m : Z) :
  Z.prime m -> 0 < a < m ->
  exists r, modInverse a m = Ok r /\ 0 <= r < m /\ (a * r) mod m = 1.
Proof.
  intros Hp Hr. apply modInverse_coprime; [assumption |].
  apply prime_range_coprime; assumption.
Qed.

Lemma modInverse_prime_inverse_witness :
  exists r, modInverse 3 5 = Ok r /\ 0 <= r < 5 /\ (3 * r) mod 5 = 1.
Proof.
  apply (modInverse_prime_inverse 3 5); [exact prime_5 | lia].
Defined.

(** C10: for [0 < a < m] with [gcd a m = 1] the while-loop of [modInverse]
    terminates.  At every iteration the divisor (the second component) is
    not zero, so the division does not throw, and the iteration replaces it
    by a smaller non-negative number; hence some number of iterations ends
    the loop, every larger bound gives the same final state, and
    [modInverse] returns a value. *)
Theorem modInverse_terminates (a m : Z) :
  0 < a < m -> Z.gcd a m = 1 ->
  (forall s, reaches (init_state a m) s -> 1 < st_a s ->
     st_m s <> 0 /\
     exists s', loop_body s = Ok s' /\ 0 <= st_m s' < st_m s) /\
  (exists (n : nat) (final : euclid_state),
     st_a final <= 1 /\
     forall fuel, (n <= fuel)%nat ->
       modInverse_loop fuel (init_state a m) = Ok final) /\
  (exists r, modInverse a m = Ok r).
Proof.
  intros Hr Hg. split; [| split].
  - intros s Hreach H1.
    pose proof (reaches_invariant a m s Hr Hg Hreach) as Hinv.
    pose proof (invariant_divisor a m s Hinv H1) as Hmpos.
    split; [lia |].
    eexists; split; [apply loop_body_Ok; lia |].
    apply (invariant_step a m s _ Hinv H1). apply loop_body_Ok; lia.
  - pose proof (modInverse_loop_bound a m 0 1) as Hbound.
    destruct (invariant_loop a m (iteration_bound m) (init_state a m)
                (invariant_init a m Hr Hg)) as [Hcut | [s [Hrun [Hinv Ha1]]]].
    { contradiction. }
    exists (iteration_bound m), s. split; [lia |].
    intros fuel Hle. rewrite <- Hrun.
    apply modInverse_loop_mono; [| assumption].
    rewrite Hrun. discriminate.
  - destruct (modInverse_coprime a m Hr Hg) as [r [Hres _]]. eauto.
Qed.

Lemma modInverse_terminates_witness :
  exists r, modInverse 4 9 = Ok r.
Proof.
  apply (modInverse_terminates 4 9); [lia | reflexivity].
Defined.

(* ------------------------------------------------------------------ *)
(** ** parseValueBigInt *)

(** What [digits.indexOf] finds for a lower-cased character. *)
Lemma indexOf_digits_lower (c : ascii) :
  indexOf digits (lower_char c) =
  match digit_value c with Some d => d | None => -1 end.
Proof.
  destruct c as [[] [] [] [] [] [] [] []]; vm_compute; reflexivity.
Qed.

Lemma digit_value_range (c : ascii) (d : Z) :
  digit_value c = Some d -> 0 <= d < 36.
Proof.
  unfold digit_value.
  destruct ((48 <=? code c) && (code c <=? 57)) eqn:E1;
    [intros [= <-]; lia |].
  destruct ((97 <=? code c) && (code c <=? 122)) eqn:E2;
    [intros [= <-]; lia |].
  destruct ((65 <=? code c) && (code c <=? 90)) eqn:E3;
    [intros [= <-]; lia | discriminate].
Qed.

Lemma positional_nonneg (b : Z) (ds : list Z) :
  0 <= b -> Forall (fun d => 0 <= d) ds -> 0 <= positional b ds.
Proof.
  intros Hb H. induction H as [| d rest Hd _ IH]; simpl; [lia |].
  pose proof (Z.pow_nonneg b (Z.of_nat (List.length rest)) Hb). nia.
Qed.

(** Left-to-right accumulation computes the positional value. *)
Lemma accumulate_positional (b : Z) (ds : list Z) (acc : Z) :
  fold_left (fun r d => r * b + d) ds acc =
  acc * b ^ Z.of_nat (List.length ds) + positional b ds.
Proof.
  revert acc. induction ds as [| d rest IH]; intros acc; simpl fold_left.
  - simpl. lia.
  - rewrite IH. cbn [List.length positional].
    rewrite Nat2Z.inj_succ, Z.pow_succ_r by lia. ring.
Qed.

Lemma parseValue_loop_digits (b : Z) (s : string) (ds : list Z) :
  Forall2 (fun c d => digit_value c = Some d) (list_ascii_of_string s) ds ->
  forall acc,
    parseValue_loop b (toLowerCase s) acc =
    Ok (fold_left (fun r d => r * b + d) ds acc).
Proof.
  revert ds. induction s as [| c rest IH]; intros ds H acc.
  - inversion H; subst. reflexivity.
  - simpl in H. inversion H as [| c' d cs ds' Hd Hrest]; subst.
    cbn [toLowerCase parseValue_loop].
    rewrite indexOf_digits_lower, Hd.
    pose proof (digit_value_range c d Hd) as Hrange.
    destruct (Z.ltb_spec d 0); [lia |].
    rewrite (IH ds' Hrest). reflexivity.
Qed.

(** A character outside the alphabet makes the decoder throw. *)
Lemma parseValueBigInt_not_alphabet (b : Z) (s : string) :
  Exists (fun c => digit_value c = None) (list_ascii_of_string s) ->
  exists c, parseValueBigInt (Num b) s = Err (InvalidDigit c b).
Proof.
  unfold parseValueBigInt. cbn [BigInt bind]. generalize 0 as acc.
  induction s as [| c rest IH]; intros acc H; simpl in H.
  - inversion H.
  - cbn [toLowerCase parseValue_loop]. rewrite indexOf_digits_lower.
    destruct (digit_value c) as [d |] eqn:Hd.
    + pose proof (digit_value_range c d Hd) as Hrange.
      destruct (Z.ltb_spec d 0); [lia |].
      apply IH. inversion H as [? ? Hc | ? ? Hc]; subst; [congruence | assumption].
    + exists (lower_char c). reflexivity.
Qed.

(** C2: for a base [b] in [2,36] and a string whose characters are all, up
    to case, digits of the alphabet with value below [b], [parseValueBigInt]
    returns the exact non-negative integer the string denotes in base [b];
    it is the result of the left-to-right accumulation
    [result = result * b + digit] over unbounded integers. *)
Theorem parseValueBigInt_exact (b : Z) (s : string) (ds : list Z) :
  2 <= b <= 36 ->
  Forall2 (fun c d => digit_value c = Some d /\ d < b)
    (list_ascii_of_string s) ds ->
  parseValueBigInt (Num b) s = Ok (positional b ds) /\
  positional b ds = fold_left (fun r d => r * b + d) ds 0 /\
  0 <= positional b ds.
Proof.
  intros Hb H.
  assert (Hdig : Forall2 (fun c d => digit_value c = Some d)
                   (list_ascii_of_string s) ds).
  { induction H as [| c d cs ds' [Hd _] _ IH]; constructor; assumption. }
  assert (Hnn : Forall (fun d => 0 <= d) ds).
  { clear Hdig. induction H as [| c d cs ds' [Hd _] _ IH]; constructor.
    - apply (digit_value_range c d Hd).
    - assumption. }
  assert (Hacc : fold_left (fun r d => r * b + d) ds 0 = positional b ds).
  { rewrite accumulate_positional. lia. }
  split; [| split].
  - unfold parseValueBigInt. cbn [BigInt bind].
    rewrite (parseValue_loop_digits b s ds Hdig), Hacc. reflexivity.
  - symmetry. exact Hacc.
  - apply positional_nonneg; [lia | assumption].
Qed.

Lemma parseValueBigInt_exact_witness :
  parseValueBigInt (Num 2) "111" = Ok 7 /\
  parseValueBigInt (Num 4) "213" = Ok 39 /\
  parseValueBigInt (Num 16) "ff" = Ok 255 /\
  parseValueBigInt (Num 16) "Ff" = Ok 255.
Proof.
  split; [| split; [| split]].
  - apply (parseValueBigInt_exact 2 "111" [1; 1; 1]); [lia |].
    repeat constructor.
  - apply (parseValueBigInt_exact 4 "213" [2; 1; 3]); [lia |].
    repeat constructor.
  - apply (parseValueBigInt_exact 16 "ff" [15; 15]); [lia |].
    repeat constructor.
  - apply (parseValueBigInt_exact 16 "Ff" [15; 15]); [lia |].
    repeat constructor.
Defined.

(** C3: [parseValueBigInt] does not compare the digit with the base: "g" is
    accepted in base 16 and decodes to 16, where the specification and the
    sibling [baseToDecimal] ([digitValue >= base]) reject it. *)
Theorem parseValueBigInt_accepts_g_base16 :
  parseValueBigInt (Num 16) "g" = Ok 16 /\
  digit_value "g"%char = Some 16.
Proof. split; reflexivity. Qed.

(* ------------------------------------------------------------------ *)
(** ** Congruence modulo [p] *)

#[local] Instance cong_Equivalence (p : Z) : Equivalence (cong p).
Proof.
  split.
  - intros a. exists 0. lia.
  - intros a b [u Hu]. exists (- u). lia.
  - intros a b c [u Hu] [v Hv]. exists (u + v). lia.
Qed.

#[local] Instance cong_add (p : Z) :
  Proper (cong p ==> cong p ==> cong p) Z.add.
Proof.
  intros a a' [u Hu] b b' [v Hv]. exists (u + v). lia.
Qed.

#[local] Instance cong_sub (p : Z) :
  Proper (cong p ==> cong p ==> cong p) Z.sub.
Proof.
  intros a a' [u Hu] b b' [v Hv]. exists (u - v). lia.
Qed.

#[local] Instance cong_mul (p : Z) :
  Proper (cong p ==> cong p ==> cong p) Z.mul.
Proof.
  intros a a' [u Hu] b b' [v Hv]. exists (u * b + a' * v). nia.
Qed.

Lemma cong_rem (p a : Z) : p <> 0 -> cong p (Z.rem a p) a.
Proof.
  intros Hp. exists (- Z.quot a p).
  pose proof (Z.quot_rem' a p). lia.
Qed.

Lemma cong_mod (p a : Z) : p <> 0 -> cong p (a mod p) a.
Proof.
  intros Hp. exists (- (a / p)).
  pose proof (Z.div_mod a p Hp). lia.
Qed.

Lemma cong_mod_eq (p a b : Z) : 0 < p -> cong p a b -> a mod p = b mod p.
Proof.
  intros Hp [u Hu]. replace a with (b + u * p) by lia.
  apply Z.mod_add. lia.
Qed.

Lemma mod_eq_cong (p a b : Z) : 0 < p -> a mod p = b mod p -> cong p a b.
Proof.
  intros Hp H.
  rewrite <- (cong_mod p a), <- (cong_mod p b) by lia.
  rewrite H. reflexivity.
Qed.

(** A residue in [0, p) is the remainder of anything congruent to it. *)
Lemma cong_small (p r a : Z) : 0 <= r < p -> cong p r a -> r = a mod p.
Proof.
  intros Hr H. rewrite <- (cong_mod_eq p r a) by (assumption || lia).
  symmetry. apply Z.mod_small. assumption.
Qed.

(** Cancellation of a factor the prime does not divide. *)
Lemma cong_cancel (p d a b : Z) :
  Z.prime p -> ~ (p | d) -> cong p (a * d) (b * d) -> cong p a b.
Proof.
  intros Hp Hd H. unfold cong in *.
  replace (a * d - b * d) with ((a - b) * d) in H by ring.
  apply (Z.divide_prime_mul _ _ p Hp) in H. tauto.
Qed.

(* ------------------------------------------------------------------ *)
(** ** Polynomials with integer coefficients, lowest degree first *)

Lemma eval_padd (f g : list Z) (t : Z) :
  eval (padd f g) t = eval f t + eval g t.
Proof.
  revert g. induction f as [| a f IH]; intros [| b g]; simpl; try lia.
  rewrite IH. ring.
Qed.

Lemma eval_pscale (c : Z) (f : list Z) (t : Z) :
  eval (pscale c f) t = c * eval f t.
Proof.
  induction f as [| a f IH]; simpl; [lia |].
  fold (pscale c f). rewrite IH. ring.
Qed.

Lemma eval_pmul_linear (a : Z) (f : list Z) (t : Z) :
  eval (pmul_linear a f) t = (t - a) * eval f t.
Proof.
  unfold pmul_linear. rewrite eval_padd, eval_pscale. simpl. ring.
Qed.

Lemma eval_basis (zs : list Z) (t : Z) : eval (basis zs) t = prod_diff t zs.
Proof.
  induction zs as [| z rest IH]; cbn [basis prod_diff eval]; [ring |].
  rewrite eval_pmul_linear, IH. reflexivity.
Qed.

Lemma length_padd (f g : list Z) :
  List.length (padd f g) = Nat.max (List.length f) (List.length g).
Proof.
  revert g. induction f as [| a f IH]; intros [| b g]; simpl; try reflexivity.
  rewrite IH. reflexivity.
Qed.

Lemma length_pscale (c : Z) (f : list Z) :
  List.length (pscale c f) = List.length f.
Proof. apply length_map. Qed.

Lemma length_basis (zs : list Z) :
  List.length (basis zs) = S (List.length zs).
Proof.
  induction zs as [| z rest IH]; [reflexivity |].
  cbn [basis]. unfold pmul_linear.
  rewrite length_padd, length_pscale. cbn [List.length]. rewrite IH. lia.
Qed.

Lemma prod_diff_root (t : Z) (zs : list Z) : In t zs -> prod_diff t zs = 0.
Proof.
  induction zs as [| z rest IH]; simpl; [tauto |].
  intros [-> | H]; [| rewrite (IH H)]; lia.
Qed.

Lemma prod_diff_app (t : Z) (zs ws : list Z) :
  prod_diff t (zs ++ ws) = prod_diff t zs * prod_diff t ws.
Proof.
  induction zs as [| z rest IH]; cbn [app prod_diff]; [ring |].
  rewrite IH. ring.
Qed.

Lemma prod_diff_prime (p t : Z) (zs : list Z) :
  Z.prime p ->
  (forall z, In z zs -> ~ (p | t - z)) ->
  ~ (p | prod_diff t zs).
Proof.
  intros Hp. induction zs as [| z rest IH]; simpl; intros H Hdiv.
  - apply Z.divide_1_r in Hdiv. destruct Hp as [Hp _]. lia.
  - apply (Z.divide_prime_mul _ _ p Hp) in Hdiv. destruct Hdiv as [Hd | Hd].
    + apply (H z); [left; reflexivity | assumption].
    + apply IH; [| assumption]. intros w Hw. apply H. right. assumption.
Qed.

Lemma length_deflate (r : Z) (f : list Z) :
  List.length (deflate r f) = pred (List.length f).
Proof.
  induction f as [| c [| c' rest] IH]; try reflexivity.
  change (deflate r (c :: c' :: rest))
    with (eval (c' :: rest) r :: deflate r (c' :: rest)).
  cbn [List.length]. rewrite IH. reflexivity.
Qed.

Lemma eval_deflate (r : Z) (f : list Z) (t : Z) :
  eval f t = eval f r + (t - r) * eval (deflate r f) t.
Proof.
  induction f as [| c [| c' rest] IH]; [simpl; lia | simpl; lia |].
  change (deflate r (c :: c' :: rest))
    with (eval (c' :: rest) r :: deflate r (c' :: rest)).
  set (g := c' :: rest) in *.
  change (eval (c :: g) t) with (c + t * eval g t).
  change (eval (c :: g) r) with (c + r * eval g r).
  change (eval (eval g r :: deflate r g) t)
    with (eval g r + t * eval (deflate r g) t).
  rewrite IH at 1. ring.
Qed.

(** A polynomial with fewer than [k+1] coefficients and [k] roots that are
    pairwise distinct modulo the prime [p] vanishes modulo [p] everywhere. *)
Lemma roots_vanish (p : Z) (Hp : Z.prime p) (roots : list Z) :
  forall f : list Z,
    (List.length f <= List.length roots)%nat ->
    ForallOrdPairs (fun a b => ~ (p | a - b)) roots ->
    (forall r, In r roots -> cong p (eval f r) 0) ->
    forall t, cong p (eval f t) 0.
Proof.
  induction roots as [| r roots IH]; intros f Hlen Hdist Hroots t.
  - destruct f; [reflexivity | simpl in Hlen; lia].
  - inversion Hdist as [| ? ? Hr Hrest]; subst.
    rewrite (eval_deflate r f t).
    rewrite (Hroots r (or_introl eq_refl)).
    rewrite (IH (deflate r f)); [exists 0; lia | | assumption |].
    + rewrite length_deflate. simpl in Hlen. lia.
    + intros s Hs.
      apply (cong_cancel p (s - r)); [assumption | |].
      * intros Hdiv. rewrite Forall_forall in Hr. apply (Hr s Hs).
        destruct Hdiv as [u Hu]. exists (- u). lia.
      * pose proof (Hroots s (or_intror Hs)) as Hsroot.
        rewrite (eval_deflate r f s) in Hsroot.
        rewrite (Hroots r (or_introl eq_refl)) in Hsroot.
        rewrite Z.mul_0_l, Z.mul_comm. simpl in Hsroot. exact Hsroot.
Qed.

(* ------------------------------------------------------------------ *)
(** ** The interpolation loops *)

Lemma den_range (xi xj p : Z) :
  0 < p -> - p < xi - xj < p -> xi <> xj -> 0 < den xi xj p < p.
Proof.
  intros Hp Hr Hne. unfold den.
  destruct (Z_lt_le_dec (xi - xj) 0) as [Hneg | Hpos].
  - rewrite Z.rem_small; lia.
  - replace (xi - xj + p) with (xi - xj + 1 * p) by lia.
    rewrite Z.rem_add by nia. rewrite Z.rem_small; lia.
Qed.

Lemma not_divide_small (p d : Z) : - p < d < p -> d <> 0 -> ~ (p | d).
Proof.
  intros Hr Hne [u Hu].
  assert (Hu3 : u = 0 \/ 1 <= u \/ u <= -1) by lia.
  destruct Hu3 as [-> | [Hge | Hle]]; nia.
Qed.

Lemma field_inverse_spec (p d : Z) :
  Z.prime p -> ~ (p | d) -> cong p (d * field_inverse p d) 1.
Proof.
  intros Hp Hd. pose proof (Z.prime_ge_2 p Hp) as Hp2.
  assert (Hr : 0 < d mod p < p).
  { pose proof (Z.mod_pos_bound d p ltac:(lia)).
    assert (d mod p <> 0); [| lia].
    intros Hz. apply Hd. apply Z.mod_divide; [lia | assumption]. }
  destruct (modInverse_coprime (d mod p) p Hr
              (prime_range_coprime _ _ Hp Hr)) as [r [Hres [_ Hinv]]].
  unfold field_inverse. rewrite Hres.
  rewrite <- (cong_mod p d) at 1 by lia.
  apply mod_eq_cong; [lia |]. rewrite Hinv. symmetry. apply Z.mod_1_l. lia.
Qed.

Section Interpolation.

Variable p : Z.
Hypothesis p_prime : Z.prime p.

(** One pass through the inner body. *)
Lemma inner_body_spec (xi xj t : Z) :
  - p < xi - xj < p -> xi <> xj ->
  exists t',
    inner_body xi (Num 0) p (Num xj) (Some t) = Ok (Some t') /\
    cong p (t' * (xi - xj)) (t * (0 - xj)) /\
    (0 <= t -> xj <= p -> 0 <= t' < p).
Proof.
  intros Hr Hne.
  pose proof (Z.prime_ge_2 p p_prime) as p_ge_2.
  assert (p_pos : 0 < p) by lia.
  pose proof (den_range xi xj p p_pos Hr Hne) as Hden.
  destruct (modInverse_coprime (den xi xj p) p Hden
              (prime_range_coprime _ _ p_prime Hden))
    as [inv [Hinv [Hinv_range Hinv_one]]].
  unfold inner_body. cbn [BigInt operand bind].
  rewrite !big_rem_Ok by lia. cbn [bind].
  fold (den xi xj p). fold (num xj p). rewrite Hinv. cbn [bind].
  repeat (rewrite big_rem_Ok by lia; cbn [bind]).
  eexists; split; [reflexivity |]. split.
  - assert (Hone : cong p (den xi xj p * inv) 1).
    { apply mod_eq_cong; [lia |]. rewrite Hinv_one.
      symmetry. apply Z.mod_1_l. lia. }
    assert (Hd : cong p (den xi xj p) (xi - xj)).
    { unfold den. rewrite (cong_rem p) by lia. exists 1. lia. }
    assert (Hn : cong p (num xj p) (0 - xj)).
    { unfold num. rewrite (cong_rem p) by lia. exists 1. lia. }
    rewrite (cong_rem p (Z.rem (t * num xj p) p * inv)) by lia.
    rewrite (cong_rem p (t * num xj p)) by lia.
    rewrite <- Hd at 1.
    replace (t * num xj p * inv * den xi xj p)
      with (t * num xj p * (den xi xj p * inv)) by ring.
    rewrite Hone, Hn. exists 0. lia.
  - intros Ht Hxj.
    assert (Hnum : 0 <= num xj p).
    { unfold num. apply Z.rem_nonneg; lia. }
    assert (Ha : 0 <= Z.rem (t * num xj p) p).
    { apply Z.rem_nonneg; [lia | nia]. }
    apply Z.rem_bound_pos; [nia | lia].
Qed.

Lemma inner_loop_past (i : nat) (xi : Z) (targetX : Number) (xs : list Number) :
  forall (j : nat) term,
    (i < j)%nat ->
    inner_loop i xi targetX p j xs term = inner_fold p xi targetX xs term.
Proof.
  induction xs as [| x rest IH]; intros j term Hlt; cbn [inner_loop inner_fold].
  - reflexivity.
  - destruct (Nat.eqb_spec i j); [lia |].
    destruct (inner_body xi targetX p x term) as [t' | e]; cbn [bind];
      [apply IH; lia | reflexivity].
Qed.

(** The inner loop folds the body over every element but the [i]-th. *)
Lemma inner_loop_skip (i : nat) (xi : Z) (targetX : Number)
    (pre : list Number) (x : Number) (post : list Number) :
  forall (j : nat) term,
    i = (j + List.length pre)%nat ->
    inner_loop i xi targetX p j (pre ++ x :: post) term =
    inner_fold p xi targetX (pre ++ post) term.
Proof.
  induction pre as [| w pre IH]; intros j term Hi;
    cbn [app inner_loop inner_fold List.length] in *.
  - destruct (Nat.eqb_spec i j); [| lia].
    apply inner_loop_past. lia.
  - destruct (Nat.eqb_spec i j); [lia |].
    destruct (inner_body xi targetX p w term) as [t' | e]; cbn [bind];
      [apply IH; lia | reflexivity].
Qed.

Lemma inner_fold_spec (xi : Z) (zs : list Z) :
  (forall z, In z zs -> - p < xi - z < p /\ xi <> z) ->
  forall t,
  exists t',
    inner_fold p xi (Num 0) (map Num zs) (Some t) = Ok (Some t') /\
    cong p (t' * prod_diff xi zs) (t * prod_diff 0 zs) /\
    (0 <= t -> (forall z, In z zs -> z <= p) -> 0 <= t').
Proof.
  induction zs as [| z rest IH]; intros Hzs t;
    cbn [map inner_fold prod_diff].
  - exists t. split; [reflexivity |]. split; [reflexivity | auto].
  - destruct (Hzs z (or_introl eq_refl)) as [Hr Hne].
    destruct (inner_body_spec xi z t Hr Hne) as [t1 [Hbody [Hc1 Hs1]]].
    rewrite Hbody. cbn [bind].
    destruct (IH (fun w Hw => Hzs w (or_intror Hw)) t1)
      as [t' [Hfold [Hc Hs]]].
    exists t'. split; [assumption |]. split.
    + replace (t' * ((xi - z) * prod_diff xi rest))
        with ((xi - z) * (t' * prod_diff xi rest)) by ring.
      rewrite Hc.
      replace ((xi - z) * (t1 * prod_diff 0 rest))
        with (t1 * (xi - z) * prod_diff 0 rest) by ring.
      rewrite Hc1. exists 0. ring.
    + intros Ht Hle. apply Hs.
      * apply Hs1; [assumption | apply Hle; left; reflexivity].
      * intros w Hw. apply Hle. right. assumption.
Qed.

End Interpolation.

(* ------------------------------------------------------------------ *)
(** ** The Lagrange polynomial *)

Lemma spread_distinct_mod (p : Z) (xs : list Z) :
  NoDup xs -> spread_below p xs -> distinct_mod p xs.
Proof.
  intros Hnd Hs. split; [assumption |].
  intros a b Ha Hb Hne. apply not_divide_small; [| lia].
  pose proof (Hs a b Ha Hb). pose proof (Hs b a Hb Ha). lia.
Qed.

Lemma distinct_mod_pairs (p : Z) (xs : list Z) :
  distinct_mod p xs -> ForallOrdPairs (fun a b => ~ (p | a - b)) xs.
Proof.
  intros [Hnd Hd]. induction xs as [| x rest IH]; constructor.
  - inversion Hnd as [| ? ? Hnotin Hnd']; subst.
    apply Forall_forall. intros b Hb.
    apply Hd; [left; reflexivity | right; assumption |].
    intros ->. contradiction.
  - inversion Hnd; subst. apply IH; [assumption |].
    intros a b Ha Hb. apply Hd; right; assumption.
Qed.

Lemma NoDup_others (pre : list Z) (x : Z) (post : list Z) (z : Z) :
  NoDup (pre ++ x :: post) -> In z (pre ++ post) -> x <> z.
Proof.
  intros Hnd Hz ->. apply NoDup_remove_2 in Hnd. contradiction.
Qed.

Lemma in_others (pre : list Z) (x : Z) (post : list Z) (z : Z) :
  In z (pre ++ post) -> In z (pre ++ x :: post).
Proof.
  rewrite !in_app_iff. simpl. tauto.
Qed.

Lemma length_lagrange_poly (p : Z) (post : list (Z * Z)) :
  forall pre,
    (List.length (lagrange_poly p pre post)
     <= List.length pre + List.length post)%nat.
Proof.
  induction post as [| [x y] rest IH]; intros pre; cbn [lagrange_poly List.length].
  - lia.
  - rewrite length_padd, length_pscale, length_basis.
    rewrite length_app, length_map.
    pose proof (IH (pre ++ [x])) as H. rewrite length_app in H. simpl in H. lia.
Qed.

Section LagrangePolynomial.

Variable p : Z.
Hypothesis p_prime : Z.prime p.

Lemma lagrange_poly_values (post : list (Z * Z)) :
  forall pre,
    distinct_mod p (pre ++ map fst post) ->
    (forall x, In x pre -> cong p (eval (lagrange_poly p pre post) x) 0) /\
    (forall x y, In (x, y) post ->
                 cong p (eval (lagrange_poly p pre post) x) y).
Proof.
  induction post as [| [x0 y0] rest IH]; intros pre Hd.
  - split; [intros; reflexivity | intros ? ? []].
  - cbn [map fst] in Hd. destruct Hd as [Hnd Hd].
    assert (Hd' : distinct_mod p ((pre ++ [x0]) ++ map fst rest)).
    { rewrite <- app_assoc. split; assumption. }
    destruct (IH (pre ++ [x0]) Hd') as [IHpre IHpost].
    set (others := pre ++ map fst rest).
    assert (Hunit : cong p (prod_diff x0 others
                            * field_inverse p (prod_diff x0 others)) 1).
    { apply field_inverse_spec; [assumption |].
      apply prod_diff_prime; [assumption |]. intros z Hz.
      apply Hd.
      - rewrite in_app_iff. right. left. reflexivity.
      - apply in_others. assumption.
      - apply (NoDup_others pre x0 (map fst rest)); assumption. }
    cbn [lagrange_poly]. fold others. split.
    + intros x Hx. rewrite eval_padd, eval_pscale, eval_basis.
      rewrite (prod_diff_root x others)
        by (unfold others; rewrite in_app_iff; left; assumption).
      rewrite (IHpre x) by (rewrite in_app_iff; left; assumption).
      exists 0. ring.
    + intros x y [Heq | Hin].
      * injection Heq as <- <-.
        rewrite eval_padd, eval_pscale, eval_basis.
        rewrite (IHpre x0)
          by (rewrite in_app_iff; right; left; reflexivity).
        replace (y0 * field_inverse p (prod_diff x0 others)
                 * prod_diff x0 others + 0)
          with (y0 * (prod_diff x0 others
                      * field_inverse p (prod_diff x0 others))) by ring.
        rewrite Hunit. exists 0. ring.
      * rewrite eval_padd, eval_pscale, eval_basis.
        rewrite (prod_diff_root x others).
        -- rewrite (IHpost x y Hin). exists 0. ring.
        -- unfold others. rewrite in_app_iff. right.
           apply (in_map fst) in Hin. exact Hin.
Qed.

(** Two polynomials with at most [k] coefficients through the same [k]
    points agree modulo [p] everywhere. *)
Lemma interpolation_unique (pts : list (Z * Z)) (f g : list Z) :
  distinct_mod p (map fst pts) ->
  (List.length f <= List.length pts)%nat ->
  (List.length g <= List.length pts)%nat ->
  (forall x y, In (x, y) pts -> cong p (eval f x) y) ->
  (forall x y, In (x, y) pts -> cong p (eval g x) y) ->
  forall t, cong p (eval f t) (eval g t).
Proof.
  intros Hd Hf Hg Hfi Hgi t.
  assert (H : cong p (eval (padd f (pscale (-1) g)) t) 0).
  { apply (roots_vanish p p_prime (map fst pts)).
    - rewrite length_padd, length_pscale, length_map. lia.
    - apply distinct_mod_pairs. assumption.
    - intros r Hr. apply in_map_iff in Hr. destruct Hr as [[x y] [<- Hin]].
      rewrite eval_padd, eval_pscale. cbn [fst].
      rewrite (Hfi x y Hin), (Hgi x y Hin). exists 0. ring. }
  rewrite eval_padd, eval_pscale in H.
  destruct H as [u Hu]. exists u. lia.
Qed.

(** The outer loop adds, modulo [p], the value at 0 of the part of the
    Lagrange polynomial that is still to come. *)
Lemma outer_loop_spec (pts : list (Z * Z)) :
  NoDup (map fst pts) ->
  spread_below p (map fst pts) ->
  forall (post pre : list (Z * Z)) (total : Z),
    pts = pre ++ post ->
    exists total',
      outer_loop (map Num (map fst pts)) (map snd pts) (Num 0) p
        (List.length pre) (map Num (map fst post)) total = Ok total' /\
      cong p total'
        (total + eval (lagrange_poly p (map fst pre) post) 0) /\
      (0 <= total < p ->
       (forall x, In x (map fst pts) -> x <= p) ->
       (forall y, In y (map snd pts) -> 0 <= y) ->
       0 <= total' < p).
Proof.
  intros Hnd Hspread.
  pose proof (Z.prime_ge_2 p p_prime) as Hp2.
  induction post as [| [x y] rest IH]; intros pre total Hpts.
  - exists total. cbn [map outer_loop lagrange_poly eval].
    split; [reflexivity |]. split; [exists 0; ring | auto].
  - cbn [map fst outer_loop BigInt bind].
    assert (Hy : nth_error (map snd pts) (List.length pre) = Some y).
    { rewrite Hpts, map_app, nth_error_app2 by (rewrite length_map; lia).
      rewrite length_map, Nat.sub_diag. reflexivity. }
    rewrite Hy.
    assert (Hxs : map fst pts = map fst pre ++ x :: map fst rest).
    { rewrite Hpts, map_app. reflexivity. }
    set (others := map fst pre ++ map fst rest).
    assert (Hinner :
      inner_loop (List.length pre) x (Num 0) p 0 (map Num (map fst pts)) (Some y)
      = inner_fold p x (Num 0) (map Num others) (Some y)).
    { rewrite Hxs. unfold others. rewrite !map_app. cbn [map].
      apply inner_loop_skip. rewrite !length_map. reflexivity. }
    rewrite Hinner.
    assert (Hothers : forall z, In z others -> - p < x - z < p /\ x <> z).
    { intros z Hz.
      assert (Hzin : In z (map fst pts))
        by (rewrite Hxs; apply in_others; assumption).
      assert (Hxin : In x (map fst pts))
        by (rewrite Hxs, in_app_iff; right; left; reflexivity).
      pose proof (Hspread x z Hxin Hzin). pose proof (Hspread z x Hzin Hxin).
      split; [lia |].
      apply (NoDup_others (map fst pre) x (map fst rest));
        [rewrite <- Hxs |]; assumption. }
    destruct (inner_fold_spec p p_prime x others Hothers y)
      as [t' [Hfold [Hc Hs]]].
    rewrite Hfold. cbn [bind operand].
    rewrite big_rem_Ok by lia. cbn [bind].
    destruct (IH (pre ++ [(x, y)]) (Z.rem (total + t') p))
      as [total' [Hrun [Hct Hst]]].
    { rewrite <- app_assoc. exact Hpts. }
    rewrite length_app in Hrun. cbn [List.length] in Hrun.
    rewrite Nat.add_1_r in Hrun.
    exists total'. split; [exact Hrun |]. split.
    + rewrite Hct. rewrite map_app. cbn [map fst lagrange_poly].
      fold others. rewrite eval_padd, eval_pscale, eval_basis.
      rewrite (cong_rem p) by lia.
      assert (Hunit : cong p (prod_diff x others
                              * field_inverse p (prod_diff x others)) 1).
      { apply field_inverse_spec; [assumption |].
        apply prod_diff_prime; [assumption |]. intros z Hz.
        destruct (Hothers z Hz). apply not_divide_small; lia. }
      assert (Ht' : cong p t'
                (y * field_inverse p (prod_diff x others) * prod_diff 0 others)).
      { replace t' with (t' * 1) by ring. rewrite <- Hunit.
        replace (t' * (prod_diff x others
                       * field_inverse p (prod_diff x others)))
          with (t' * prod_diff x others
                * field_inverse p (prod_diff x others)) by ring.
        rewrite Hc. exists 0. ring. }
      rewrite Ht'. exists 0. ring.
    + intros Ht Hx Hynn. apply Hst; [| assumption | assumption].
      assert (0 <= t').
      { apply Hs.
        - apply Hynn. rewrite Hpts, map_app, in_app_iff.
          right. left. reflexivity.
        - intros z Hz. apply Hx. rewrite Hxs. apply in_others. assumption. }
      apply Z.rem_bound_pos; lia.
Qed.

End LagrangePolynomial.

(* ------------------------------------------------------------------ *)
(** ** lagrangeInterpolateBigInt *)

Lemma eval_zero (f : list Z) : eval f 0 = hd 0 f.
Proof. destruct f as [| c rest]; cbn [eval hd]; ring. Qed.

Lemma map_fst_combine (xs ys : list Z) :
  List.length ys = List.length xs -> map fst (combine xs ys) = xs.
Proof.
  revert ys. induction xs as [| x xs IH]; intros [| y ys] H;
    simpl in *; try discriminate; [reflexivity |].
  rewrite IH by lia. reflexivity.
Qed.

Lemma map_snd_combine (xs ys : list Z) :
  List.length ys = List.length xs -> map snd (combine xs ys) = ys.
Proof.
  revert ys. induction xs as [| x xs IH]; intros [| y ys] H;
    simpl in *; try discriminate; [reflexivity |].
  rewrite IH by lia. reflexivity.
Qed.

(** What the inner body hands to [modInverse]. *)
Lemma inner_body_calls (p xi xj t : Z) :
  p <> 0 ->
  inner_body xi (Num 0) p (Num xj) (Some t) =
  (inv <- modInverse (den xi xj p) p ;;
   Ok (Some (Z.rem (Z.rem (t * num xj p) p * inv) p))).
Proof.
  intros Hp. unfold inner_body. cbn [BigInt operand bind].
  repeat (rewrite big_rem_Ok by assumption; cbn [bind]).
  fold (den xi xj p). fold (num xj p).
  destruct (modInverse (den xi xj p) p) as [inv | e]; cbn [bind];
    [| reflexivity].
  rewrite big_rem_Ok by assumption. reflexivity.
Qed.

Section LagrangeCorrect.

Variable p : Z.
Hypothesis p_prime : Z.prime p.

Variable pts : list (Z * Z).
Hypothesis xs_distinct : NoDup (map fst pts).
Hypothesis xs_spread : spread_below p (map fst pts).

(** The interpolation returns, and its result is congruent to the value
    at 0 of the Lagrange polynomial. *)
Lemma lagrange_value :
  exists r,
    lagrangeInterpolateBigInt (map Num (map fst pts)) (map snd pts) (Num 0) p
    = Ok r /\
    cong p r (eval (lagrange_poly p [] pts) 0) /\
    ((forall x, In x (map fst pts) -> x <= p) ->
     (forall y, In y (map snd pts) -> 0 <= y) ->
     0 <= r < p).
Proof.
  pose proof (Z.prime_ge_2 p p_prime) as Hp2.
  destruct (outer_loop_spec p p_prime pts xs_distinct xs_spread pts [] 0 eq_refl)
    as [r [Hrun [Hc Hs]]].
  exists r. split; [exact Hrun |]. split.
  - rewrite Hc. exists 0. cbn [map]. ring.
  - intros Hx Hy. apply Hs; [lia | assumption | assumption].
Qed.

Lemma lagrange_poly_interpolates :
  (List.length (lagrange_poly p [] pts) <= List.length pts)%nat /\
  interpolates p (lagrange_poly p [] pts) pts.
Proof.
  pose proof (Z.prime_ge_2 p p_prime) as Hp2. split.
  - apply (length_lagrange_poly p pts []).
  - intros x y Hin. apply cong_mod_eq; [lia |].
    apply (lagrange_poly_values p p_prime pts []); [| assumption].
    apply spread_distinct_mod; assumption.
Qed.

Hypothesis xs_below : forall x, In x (map fst pts) -> x <= p.
Hypothesis ys_nonneg : forall y, In y (map snd pts) -> 0 <= y.

(** The result is the value at 0, reduced modulo [p], of every polynomial
    with at most [k] coefficients through the [k] points. *)
Lemma lagrange_correct :
  exists r,
    lagrangeInterpolateBigInt (map Num (map fst pts)) (map snd pts) (Num 0) p
    = Ok r /\
    0 <= r < p /\
    forall f,
      (List.length f <= List.length pts)%nat ->
      interpolates p f pts ->
      r = eval f 0 mod p.
Proof.
  pose proof (Z.prime_ge_2 p p_prime) as Hp2.
  destruct lagrange_value as [r [Hrun [Hc Hs]]].
  destruct lagrange_poly_interpolates as [Hlen Hint].
  exists r. split; [exact Hrun |]. split; [auto |].
  intros f Hf Hfi. apply cong_small; [auto |].
  rewrite Hc. symmetry.
  apply (interpolation_unique p p_prime pts); try assumption.
  - apply spread_distinct_mod; assumption.
  - intros x y Hin. apply mod_eq_cong; [lia | apply Hfi; assumption].
  - intros x y Hin. apply mod_eq_cong; [lia | apply Hint; assumption].
Qed.

End LagrangeCorrect.

(** C1 (amended): for a prime [p] and [k] points with non-negative y values
    whose x values are pairwise distinct, at most [p] and less than [p]
    apart, the interpolation at 0 returns [P(0) mod p] for the polynomial
    [P] with at most [k] coefficients through the points modulo [p]: such a
    polynomial exists, and the result is the reduced value at 0 of every
    one of them.  In particular, when the y values are [P(x_i) mod p] and
    the constant term [c] of [P] satisfies [0 <= c < p], the result is [c]. *)
Theorem lagrange_recovers_constant_term (p : Z) (pts : list (Z * Z)) :
  Z.prime p ->
  NoDup (map fst pts) ->
  spread_below p (map fst pts) ->
  (forall x, In x (map fst pts) -> x <= p) ->
  (forall y, In y (map snd pts) -> 0 <= y) ->
  exists r,
    lagrangeInterpolateBigInt (map Num (map fst pts)) (map snd pts) (Num 0) p
    = Ok r /\
    (exists f, (List.length f <= List.length pts)%nat /\ interpolates p f pts) /\
    (forall f, (List.length f <= List.length pts)%nat ->
               interpolates p f pts -> r = eval f 0 mod p) /\
    (forall f, (List.length f <= List.length pts)%nat ->
               0 <= hd 0 f < p ->
               (forall x y, In (x, y) pts -> y = eval f x mod p) ->
               r = hd 0 f).
Proof.
  intros Hp Hnd Hspread Hx Hy.
  pose proof (Z.prime_ge_2 p Hp) as Hp2.
  destruct (lagrange_correct p Hp pts Hnd Hspread Hx Hy) as [r [Hrun [Hr Hall]]].
  exists r. split; [exact Hrun |]. split; [| split].
  - exists (lagrange_poly p [] pts).
    apply lagrange_poly_interpolates; assumption.
  - exact Hall.
  - intros f Hlen Hc Hval.
    rewrite (Hall f Hlen).
    + rewrite eval_zero. apply Z.mod_small. assumption.
    + intros x y Hin. rewrite (Hval x y Hin). rewrite Z.mod_mod by lia.
      reflexivity.
Qed.

Lemma lagrange_recovers_constant_term_witness :
  lagrangeInterpolateBigInt [Num 1; Num 2; Num 3] [4; 2; 2] (Num 0) 5 = Ok 3.
Proof.
  destruct (lagrange_recovers_constant_term 5 [(1, 4); (2, 2); (3, 2)])
    as [r [Hrun [_ [_ Hconst]]]].
  - exact prime_5.
  - repeat constructor; simpl; lia.
  - intros a b Ha Hb. simpl in Ha, Hb. lia.
  - intros x Hx. simpl in Hx. lia.
  - intros y Hy. simpl in Hy. lia.
  - cbn [map fst snd] in Hrun. rewrite Hrun. f_equal.
    apply (Hconst [3; 0; 1]).
    + simpl. lia.
    + simpl. lia.
    + intros x y Hin. simpl in Hin.
      destruct Hin as [[= <- <-] | [[= <- <-] | [[= <- <-] | []]]]; reflexivity.
Defined.

(** The claim as it stands fails: 6 and 7 are distinct (also modulo 5), the
    constant polynomial 3 passes through (6,3) and (7,3), and the result is
    -2, not 3. *)
Lemma lagrange_distinct_x_counterexample :
  Z.prime 5 /\
  NoDup [6; 7] /\
  interpolates 5 [3] [(6, 3); (7, 3)] /\
  lagrangeInterpolateBigInt [Num 6; Num 7] [3; 3] (Num 0) 5 = Ok (-2) /\
  -2 <> eval [3] 0 mod 5.
Proof.
  split; [exact prime_5 |]. split; [repeat constructor; simpl; lia |].
  split; [| split; [reflexivity | discriminate]].
  intros x y Hin. simpl in Hin.
  destruct Hin as [[= <- <-] | [[= <- <-] | []]]; reflexivity.
Qed.

(** C8 (amended): under the same conditions on the points, interpolating
    any permutation of them returns the same value. *)
Theorem lagrange_order_invariant (p : Z) (pts pts' : list (Z * Z)) :
  Z.prime p ->
  NoDup (map fst pts) ->
  spread_below p (map fst pts) ->
  (forall x, In x (map fst pts) -> x <= p) ->
  (forall y, In y (map snd pts) -> 0 <= y) ->
  Permutation pts pts' ->
  exists r,
    lagrangeInterpolateBigInt (map Num (map fst pts)) (map snd pts) (Num 0) p
    = Ok r /\
    lagrangeInterpolateBigInt (map Num (map fst pts')) (map snd pts') (Num 0) p
    = Ok r.
Proof.
  intros Hp Hnd Hspread Hx Hy Hperm.
  assert (Hpx : Permutation (map fst pts) (map fst pts'))
    by (apply Permutation_map; assumption).
  assert (Hpy : Permutation (map snd pts) (map snd pts'))
    by (apply Permutation_map; assumption).
  destruct (lagrange_correct p Hp pts Hnd Hspread Hx Hy) as [r [Hrun [_ Hall]]].
  destruct (lagrange_correct p Hp pts') as [r' [Hrun' [_ Hall']]].
  - apply (Permutation_NoDup Hpx). assumption.
  - intros a b Ha Hb. apply Hspread;
      apply (Permutation_in _ (Permutation_sym Hpx)); assumption.
  - intros x Hin. apply Hx.
    apply (Permutation_in _ (Permutation_sym Hpx)). assumption.
  - intros y Hin. apply Hy.
    apply (Permutation_in _ (Permutation_sym Hpy)). assumption.
  - exists r. split; [exact Hrun |]. rewrite Hrun'. f_equal.
    destruct (lagrange_poly_interpolates p Hp pts Hnd Hspread) as [Hlen Hint].
    rewrite (Hall _ Hlen Hint). apply Hall'.
    + rewrite <- (Permutation_length Hperm). assumption.
    + intros x y Hin. apply Hint.
      apply (Permutation_in _ (Permutation_sym Hperm)). assumption.
Qed.

Lemma lagrange_order_invariant_witness :
  exists r,
    lagrangeInterpolateBigInt [Num 1; Num 2; Num 3] [4; 2; 2] (Num 0) 5 = Ok r /\
    lagrangeInterpolateBigInt [Num 3; Num 1; Num 2] [2; 4; 2] (Num 0) 5 = Ok r.
Proof.
  apply (lagrange_order_invariant 5 [(1, 4); (2, 2); (3, 2)]
           [(3, 2); (1, 4); (2, 2)]).
  - exact prime_5.
  - repeat constructor; simpl; lia.
  - intros a b Ha Hb. simpl in Ha, Hb. lia.
  - intros x Hx. simpl in Hx. lia.
  - intros y Hy. simpl in Hy. lia.
  - apply Permutation_sym. apply (Permutation_cons_app [(1, 4); (2, 2)] []).
    reflexivity.
Defined.

(** The claim as it stands fails: 1, 2 and 8 are distinct (also modulo 5),
    and exchanging the last two points changes the result from 1 to -4. *)
Lemma lagrange_order_counterexample :
  Z.prime 5 /\
  NoDup [1; 2; 8] /\
  Permutation [(1, 1); (2, 2); (8, 1)] [(1, 1); (8, 1); (2, 2)] /\
  lagrangeInterpolateBigInt [Num 1; Num 2; Num 8] [1; 2; 1] (Num 0) 5 = Ok 1 /\
  lagrangeInterpolateBigInt [Num 1; Num 8; Num 2] [1; 1; 2] (Num 0) 5 = Ok (-4).
Proof.
  split; [exact prime_5 |]. split; [repeat constructor; simpl; lia |].
  split; [| split; reflexivity].
  apply perm_skip. apply perm_swap.
Qed.

(** C9 (amended): for a prime [p] and x values that are pairwise distinct
    and less than [p] apart, every denominator [(x_i - x_j + p) % p] with
    [i <> j] lies strictly between 0 and [p] and [modInverse] returns its
    inverse; no division by zero occurs and the interpolation returns a
    value for any y values. *)
Theorem denominators_invertible (p : Z) (xs : list Z) :
  Z.prime p ->
  NoDup xs ->
  spread_below p xs ->
  (forall (i j : nat) (xi xj : Z),
     i <> j -> nth_error xs i = Some xi -> nth_error xs j = Some xj ->
     0 < den xi xj p < p /\
     exists inv, modInverse (den xi xj p) p = Ok inv /\
                 (den xi xj p * inv) mod p = 1) /\
  (forall ys, List.length ys = List.length xs ->
     exists r, lagrangeInterpolateBigInt (map Num xs) ys (Num 0) p = Ok r).
Proof.
  intros Hp Hnd Hspread. pose proof (Z.prime_ge_2 p Hp) as Hp2. split.
  - intros i j xi xj Hij Hi Hj.
    assert (Hne : xi <> xj).
    { intros ->. apply Hij.
      apply (proj1 (NoDup_nth_error xs) Hnd); [| congruence].
      apply nth_error_Some. congruence. }
    assert (Hr : - p < xi - xj < p).
    { pose proof (Hspread xi xj (nth_error_In _ _ Hi) (nth_error_In _ _ Hj)).
      pose proof (Hspread xj xi (nth_error_In _ _ Hj) (nth_error_In _ _ Hi)).
      lia. }
    pose proof (den_range xi xj p ltac:(lia) Hr Hne) as Hden.
    split; [assumption |].
    destruct (modInverse_coprime (den xi xj p) p Hden
                (prime_range_coprime _ _ Hp Hden)) as [inv [Hinv [_ Hone]]].
    eauto.
  - intros ys Hlen.
    destruct (lagrange_value p Hp (combine xs ys)) as [r [Hrun _]].
    + rewrite map_fst_combine; assumption.
    + rewrite map_fst_combine; assumption.
    + rewrite map_fst_combine, map_snd_combine in Hrun by assumption. eauto.
Qed.

Lemma denominators_invertible_witness :
  0 < den 1 3 5 < 5 /\
  exists r, lagrangeInterpolateBigInt [Num 1; Num 2; Num 3] [4; 2; 2] (Num 0) 5
            = Ok r.
Proof.
  destruct (denominators_invertible 5 [1; 2; 3]) as [Hden Hrun].
  - exact prime_5.
  - repeat constructor; simpl; lia.
  - intros a b Ha Hb. simpl in Ha, Hb. lia.
  - split.
    + apply (Hden 0%nat 2%nat 1 3); [lia | reflexivity | reflexivity].
    + apply (Hrun [4; 2; 2]). reflexivity.
Defined.

(** The claim as it stands fails: 1 and 6 are distinct, yet modulo 5 their
    denominator is 0, which [modInverse] receives and answers with 1. *)
Lemma denominator_zero_counterexample :
  Z.prime 5 /\
  NoDup [1; 6] /\
  den 1 6 5 = 0 /\
  inner_body 1 (Num 0) 5 (Num 6) (Some 3) =
    (inv <- modInverse 0 5 ;; Ok (Some (Z.rem (Z.rem (3 * num 6 5) 5 * inv) 5))) /\
  modInverse 0 5 = Ok 1.
Proof.
  split; [exact prime_5 |]. split; [repeat constructor; simpl; lia |].
  split; [reflexivity |]. split; reflexivity.
Qed.

(* ------------------------------------------------------------------ *)
(** ** recoverSecret: the shares it uses *)

Lemma insert_perm (cmp : string -> string -> Number) (x : string) (l : list string) :
  Permutation (insert cmp x l) (x :: l).
Proof.
  induction l as [| y rest IH]; cbn [insert]; [reflexivity |].
  destruct (comes_after cmp x y); [| reflexivity].
  rewrite IH. apply perm_swap.
Qed.

Lemma sort_perm (cmp : string -> string -> Number) (l : list string) :
  Permutation (sort cmp l) l.
Proof.
  induction l as [| x rest IH]; cbn [sort fold_right]; [reflexivity |].
  fold (sort cmp rest). rewrite insert_perm, IH. reflexivity.
Qed.

Lemma index_le_trans (a b c : string) : index_le a b -> index_le b c -> index_le a c.
Proof.
  unfold index_le, num_le.
  destruct (parseInt a 0), (parseInt b 0), (parseInt c 0); try tauto. lia.
Qed.

Lemma insert_sorted (x : string) (l : list string) :
  numeric x -> Forall numeric l ->
  StronglySorted index_le l ->
  StronglySorted index_le (insert compareFn x l).
Proof.
  intros [zx Hx] Hnum Hsorted.
  induction Hsorted as [| y rest Hrest IH Hy]; cbn [insert].
  - repeat constructor.
  - inversion Hnum as [| ? ? [zy Hzy] Hnum']; subst.
    unfold comes_after, compareFn. rewrite Hx, Hzy. cbn [num_sub].
    destruct (Z.ltb_spec 0 (zx - zy)) as [Hlt | Hge].
    + constructor; [apply IH; assumption |].
      apply Forall_forall. intros w Hw.
      apply (Permutation_in _ (insert_perm compareFn x rest)) in Hw.
      destruct Hw as [<- | Hw].
      * unfold index_le, num_le. rewrite Hx, Hzy. lia.
      * rewrite Forall_forall in Hy. apply Hy. assumption.
    + assert (Hxy : index_le x y).
      { unfold index_le, num_le. rewrite Hx, Hzy. lia. }
      constructor; [constructor; assumption |].
      constructor; [assumption |].
      apply Forall_forall. intros w Hw. rewrite Forall_forall in Hy.
      apply (index_le_trans x y w); [assumption | apply Hy; assumption].
Qed.

Lemma sort_sorted (l : list string) :
  Forall numeric l -> StronglySorted index_le (sort compareFn l).
Proof.
  induction l as [| x rest IH]; intros Hnum; cbn [sort fold_right].
  - constructor.
  - fold (sort compareFn rest). inversion Hnum; subst.
    apply insert_sorted; [assumption | | apply IH; assumption].
    apply Forall_forall. intros w Hw.
    apply (Permutation_in _ (sort_perm compareFn rest)) in Hw.
    rewrite Forall_forall in H2. apply H2. assumption.
Qed.

(** Without ties the order is strict. *)
Lemma sorted_strict (l : list string) :
  NoDup (map (fun key => parseInt key 0) l) ->
  StronglySorted index_le l -> StronglySorted index_lt l.
Proof.
  intros Hnd Hsorted.
  induction Hsorted as [| y rest Hrest IH Hy]; constructor.
  - apply IH. inversion Hnd; assumption.
  - cbn [map] in Hnd. inversion Hnd as [| ? ? Hnotin _]; subst.
    apply Forall_forall. intros w Hw. rewrite Forall_forall in Hy.
    pose proof (Hy w Hw) as Hle.
    unfold index_le, num_le, index_lt, num_lt in *.
    destruct (parseInt y 0) as [| zy] eqn:Ey; [contradiction |].
    destruct (parseInt w 0) as [| zw] eqn:Ew; [contradiction |].
    assert (zy <> zw); [| lia].
    intros ->. apply Hnotin. rewrite <- Ew.
    apply (in_map (fun key => parseInt key 0)). assumption.
Qed.

Lemma sorted_app_inv (R : string -> string -> Prop) (l1 l2 : list string) :
  StronglySorted R (l1 ++ l2) ->
  StronglySorted R l1 /\
  (forall a b, In a l1 -> In b l2 -> R a b).
Proof.
  induction l1 as [| x l1 IH]; cbn [app]; intros H.
  - split; [constructor | intros ? ? []].
  - inversion H as [| ? ? Hrest Hx]; subst.
    destruct (IH Hrest) as [Hs Hcross]. rewrite Forall_forall in Hx. split.
    + constructor; [assumption |]. apply Forall_forall. intros w Hw.
      apply Hx. rewrite in_app_iff. left. assumption.
    + intros a b [<- | Ha] Hb.
      * apply Hx. rewrite in_app_iff. right. assumption.
      * apply Hcross; assumption.
Qed.

Lemma decode_share_value (data : object) (key : string)
    (xPoints : list Number) (yPoints : list Z) :
  (forall y, share_value data key = Ok y ->
     decode_share data key (xPoints, yPoints)
     = Ok (xPoints ++ [parseInt key 0], yPoints ++ [y])) /\
  (forall e, share_value data key = Err e ->
     decode_share data key (xPoints, yPoints) = Err e).
Proof.
  unfold share_value, decode_share.
  destruct (get data key) as [[n k | base value] |].
  - split; intros v H; rewrite H; [discriminate | reflexivity].
  - split; intros v H; rewrite H; reflexivity.
  - split; [discriminate | intros e H; injection H as <-; reflexivity].
Qed.

Lemma forEach_Ok (data : object) (keys : list string) :
  forall xPoints yPoints xPoints' yPoints',
    forEach data keys (xPoints, yPoints) = Ok (xPoints', yPoints') ->
    xPoints' = xPoints ++ map (fun key => parseInt key 0) keys /\
    List.length yPoints' = (List.length yPoints + List.length keys)%nat.
Proof.
  induction keys as [| key rest IH]; intros xs ys xs' ys' H; cbn [forEach] in H.
  - injection H as <- <-. cbn [map List.length]. rewrite app_nil_r.
    split; [reflexivity | lia].
  - destruct (share_value data key) as [y | e] eqn:Hv.
    + rewrite (proj1 (decode_share_value data key xs ys) y Hv) in H.
      cbn [bind] in H. apply IH in H. destruct H as [-> Hlen].
      rewrite <- app_assoc. cbn [app map List.length].
      rewrite length_app in Hlen. cbn [List.length] in Hlen. split; [reflexivity | lia].
    + rewrite (proj2 (decode_share_value data key xs ys) e Hv) in H.
      discriminate.
Qed.


Lemma recoverSecret_unfold (data : object) (n k : Z) :
  get data "keys" = Some (Keys n k) ->
  recoverSecret data =
  (points <- forEach data (indices data (Some k)) ([], []) ;;
   recoveredC <- lagrangeInterpolateBigInt (fst points) (snd points) (Num 0) PRIME ;;
   Ok (mkRecovered (fst points) (snd points) recoveredC)).
Proof.
  intros Hk. unfold recoverSecret. rewrite Hk. cbn [bind].
  destruct (forEach data (indices data (Some k)) ([], [])) as [[xs ys] | e];
    reflexivity.
Qed.

Lemma indices_firstn (data : object) (k : Z) :
  0 <= k <= Z.of_nat (List.length (share_keys data)) ->
  indices data (Some k) =
  firstn (Z.to_nat k) (sort compareFn (share_keys data)).
Proof.
  intros Hk. unfold indices, slice0. fold (share_keys data).
  rewrite (Permutation_length (sort_perm compareFn (share_keys data))).
  destruct (Z.ltb_spec k 0); [lia |].
  rewrite Z.min_l by lia. reflexivity.
Qed.

(** C4: [recoverSecret] has no check of the number of shares against [k]:
    on a request with two shares and [k = 3] it interpolates the two points
    and reports 1 as the secret. *)
Theorem recoverSecret_below_threshold :
  get twoShares "keys" = Some (Keys 4 3) /\
  List.length (share_keys twoShares) = 2%nat /\
  recoverSecret twoShares = Ok (mkRecovered [Num 1; Num 2] [4; 7] 1).
Proof.
  split; [reflexivity |]. split; [reflexivity |]. vm_compute. reflexivity.
Qed.

(** The first request of the repository: the shares with indices 1, 2, 3
    are used and the secret is 3. *)
Example recoverSecret_sampleData :
  recoverSecret sampleData = Ok (mkRecovered [Num 1; Num 2; Num 3] [4; 7; 12] 3).
Proof. vm_compute. reflexivity. Qed.

(** The second request: the shares with indices 1..7 are used; the
    polynomial through them has the negative value -6290016743746469796 at
    0, which is reported modulo [PRIME]. *)
Example recoverSecret_secondData :
  recoverSecret secondData =
  Ok (mkRecovered
        [Num 1; Num 2; Num 3; Num 4; Num 5; Num 6; Num 7]
        [995085094601491; 320923294898495900; 196563650089608567;
         1016509518118225951; 3711974121218449851; 10788619898233492461;
         26709394976508342463]
        (PRIME - 6290016743746469796)).
Proof. vm_compute. reflexivity. Qed.

(* ================================================================== *)
(** * Further properties of the BigInt variant *)

(** ** modInverse on arbitrary arguments *)

(** The loop body fails only by dividing by zero. *)
Lemma loop_body_error (s : euclid_state) (e : exn) :
  loop_body s = Err e -> e = RangeError_DivisionByZero.
Proof.
  destruct (Z.eq_dec (st_m s) 0) as [Hz | Hnz].
  - rewrite loop_body_zero by assumption. congruence.
  - rewrite loop_body_Ok by assumption. discriminate.
Qed.

Lemma modInverse_loop_error (fuel : nat) :
  forall (s : euclid_state) (e : exn),
    modInverse_loop fuel s = Err e ->
    e = RangeError_DivisionByZero \/ e = LoopBound.
Proof.
  induction fuel as [| fuel IH]; intros s e H.
  - simpl in H. destruct (st_a s >? 1); [right; congruence | discriminate].
  - rewrite modInverse_loop_unfold in H.
    destruct (st_a s >? 1); [| discriminate].
    destruct (loop_body s) as [s' | e'] eqn:Hbody; cbn [bind] in H.
    + apply (IH s'). assumption.
    + left. injection H as <-. apply (loop_body_error s). assumption.
Qed.

(** Within its bound the loop ends by returning or by dividing by zero. *)
Lemma modInverse_outcome (a m : Z) :
  (exists r, modInverse a m = Ok r) \/
  modInverse a m = Err RangeError_DivisionByZero.
Proof.
  pose proof (modInverse_loop_bound a m 0 1) as Hbound.
  unfold modInverse. destruct (m =? 1); [left; eauto |].
  destruct (modInverse_loop (iteration_bound m) (mkState a m 0 1))
    as [s | e] eqn:Hrun; cbn [bind].
  - left. eauto.
  - right. destruct (modInverse_loop_error _ _ _ Hrun) as [-> | ->];
      [reflexivity | contradiction].
Qed.

(** X1: the loop of [modInverse] stops whatever the arguments: from some
    number of iterations on, every larger bound gives the same outcome,
    and [modInverse] returns a value or throws the division-by-zero
    RangeError. *)
Theorem modInverse_always_stops (a m : Z) :
  (exists n : nat,
     modInverse_loop n (init_state a m) <> Err LoopBound /\
     forall fuel, (n <= fuel)%nat ->
       modInverse_loop fuel (init_state a m) = modInverse_loop n (init_state a m)) /\
  ((exists r, modInverse a m = Ok r) \/
   modInverse a m = Err RangeError_DivisionByZero).
Proof.
  pose proof (modInverse_loop_bound a m 0 1) as Hbound. split.
  - exists (iteration_bound m). split; [exact Hbound |].
    intros fuel Hle. apply modInverse_loop_mono; assumption.
  - apply modInverse_outcome.
Qed.

(** Along the loop the first component stays positive and the gcd of the
    pair is kept. *)
Lemma modInverse_loop_gcd (fuel : nat) :
  forall s s' : euclid_state,
    0 < st_a s -> 0 <= st_m s ->
    modInverse_loop fuel s = Ok s' ->
    0 < st_a s' <= 1 /\
    Z.gcd (st_a s') (st_m s') = Z.gcd (st_a s) (st_m s).
Proof.
  induction fuel as [| fuel IH]; intros s s' Ha Hm H.
  - simpl in H. destruct (Z.gtb_spec (st_a s) 1); [discriminate |].
    injection H as <-. split; [lia | reflexivity].
  - rewrite modInverse_loop_unfold in H.
    destruct (Z.gtb_spec (st_a s) 1) as [H1 | H1].
    + destruct (Z.eq_dec (st_m s) 0) as [Hz | Hnz].
      { rewrite loop_body_zero in H by assumption. discriminate. }
      rewrite loop_body_Ok in H by assumption. cbn [bind] in H.
      assert (Hrem : 0 <= Z.rem (st_a s) (st_m s) < st_m s)
        by (apply Z.rem_bound_pos; lia).
      apply IH in H; cbn [st_a st_m] in *; [| lia | lia].
      destruct H as [Hrange Hg]. split; [assumption |].
      rewrite Hg, Z.rem_mod_nonneg by lia.
      rewrite Z.gcd_comm, Z.gcd_mod by lia. apply Z.gcd_comm.
    + injection H as <-. split; [lia | reflexivity].
Qed.

(** X2: for [a > 1] and [m >= 0] that are not coprime, [modInverse] throws
    the division-by-zero RangeError: the loop runs until the divisor is 0
    while the first component, a multiple of the gcd, is still above 1. *)
Theorem modInverse_not_coprime (a m : Z) :
  1 < a -> 0 <= m -> Z.gcd a m <> 1 ->
  modInverse a m = Err RangeError_DivisionByZero.
Proof.
  intros Ha Hm Hg.
  destruct (modInverse_outcome a m) as [[r Hr] | Herr]; [| assumption].
  exfalso. unfold modInverse in Hr.
  destruct (Z.eqb_spec m 1) as [-> | Hm1].
  { apply Hg. apply Z.gcd_1_r. }
  destruct (modInverse_loop (iteration_bound m) (mkState a m 0 1))
    as [s | e] eqn:Hrun; [| discriminate].
  apply modInverse_loop_gcd in Hrun; cbn [st_a st_m] in *; [| lia | lia].
  destruct Hrun as [Hrange Hgcd]. apply Hg. rewrite <- Hgcd.
  replace (st_a s) with 1 by lia. apply Z.gcd_1_l.
Qed.

Lemma modInverse_not_coprime_witness :
  modInverse 4 6 = Err RangeError_DivisionByZero.
Proof.
  apply (modInverse_not_coprime 4 6); [lia | lia | discriminate].
Defined.

Lemma invariant_init_any (a0 m0 : Z) :
  0 < a0 -> 1 < m0 -> Z.gcd a0 m0 = 1 -> invariant a0 m0 (init_state a0 m0).
Proof.
  intros Ha Hm Hg. constructor; cbn [init_state st_a st_m st_x0 st_x1].
  - lia.
  - lia.
  - assumption.
  - left. lia.
  - lia.
  - exists 0. lia.
  - exists 1. lia.
Qed.

(** X3: for every modulus [m > 1] and every positive [a] coprime to it,
    reduced below [m] or not, [modInverse] returns the inverse of [a] in
    [[0, m)]. *)
Theorem modInverse_coprime_any (a m : Z) :
  0 < a -> 1 < m -> Z.gcd a m = 1 ->
  exists r, modInverse a m = Ok r /\ 0 <= r < m /\ (a * r) mod m = 1.
Proof.
  intros Ha Hm Hg. unfold modInverse.
  destruct (Z.eqb_spec m 1) as [Hm1 | Hm1]; [lia |].
  pose proof (modInverse_loop_bound a m 0 1) as Hbound.
  destruct (invariant_loop a m (iteration_bound m) (init_state a m)
              (invariant_init_any a m Ha Hm Hg)) as [Hcut | [s [Hrun [Hinv Ha1]]]].
  { contradiction. }
  unfold init_state in Hrun. rewrite Hrun. cbn [bind].
  destruct Hinv as [_ _ _ _ Hx1 [u Hu] _].
  eexists; split; [reflexivity |].
  assert (Hres : forall r, 0 <= r < m -> (m | 1 - r * a) -> (a * r) mod m = 1).
  { intros r Hrange [w Hw].
    replace (a * r) with (1 + (- w) * m) by lia.
    rewrite Z.mod_add by lia. apply Z.mod_small. lia. }
  destruct (Z.ltb_spec (st_x1 s) 0) as [Hneg | Hpos].
  - split; [lia |]. apply Hres; [lia |]. exists (u - a). lia.
  - split; [lia |]. apply Hres; [lia |]. exists u. lia.
Qed.

Lemma modInverse_coprime_any_witness :
  exists r, modInverse 17 6 = Ok r /\ 0 <= r < 6 /\ (17 * r) mod 6 = 1.
Proof.
  apply (modInverse_coprime_any 17 6); [lia | lia | reflexivity].
Defined.

(** ** parseValueBigInt on arbitrary bases and strings *)

Lemma digits_exist (s : string) :
  Forall has_digit (list_ascii_of_string s) ->
  exists ds, Forall2 (fun c d => digit_value c = Some d) (list_ascii_of_string s) ds.
Proof.
  induction s as [| c rest IH]; cbn [list_ascii_of_string]; intros H.
  - exists []. constructor.
  - inversion H as [| ? ? [d Hd] Hrest]; subst.
    destruct (IH Hrest) as [ds Hds]. exists (d :: ds). constructor; assumption.
Qed.

Lemma parseValueBigInt_positional (b : Z) (s : string) (ds : list Z) :
  Forall2 (fun c d => digit_value c = Some d) (list_ascii_of_string s) ds ->
  parseValueBigInt (Num b) s = Ok (positional b ds).
Proof.
  intros H. unfold parseValueBigInt. cbn [BigInt bind].
  rewrite (parseValue_loop_digits b s ds H), accumulate_positional.
  f_equal; lia.
Qed.

(** X4: [parseValueBigInt] validates neither the base nor the size of the
    digits: for every integer base, in [2,36] or not, and every string of
    alphabet characters it returns the positional sum of the digit values,
    whether they are below the base or not. *)
Theorem parseValueBigInt_any_base (b : Z) (s : string) (ds : list Z) :
  Forall2 (fun c d => digit_value c = Some d) (list_ascii_of_string s) ds ->
  parseValueBigInt (Num b) s = Ok (positional b ds).
Proof.
  intros H. unfold parseValueBigInt. cbn [BigInt bind].
  rewrite (parseValue_loop_digits b s ds H), accumulate_positional.
  f_equal; lia.
Qed.

Lemma parseValueBigInt_any_base_witness :
  parseValueBigInt (Num 2) "129" = Ok 17 /\
  parseValueBigInt (Num 40) "Zz" = Ok 1435 /\
  parseValueBigInt (Num (-3)) "12" = Ok (-1).
Proof.
  split; [| split].
  - apply (parseValueBigInt_any_base 2 "129" [1; 2; 9]). repeat constructor.
  - apply (parseValueBigInt_any_base 40 "Zz" [35; 35]). repeat constructor.
  - apply (parseValueBigInt_any_base (-3) "12" [1; 2]). repeat constructor.
Defined.

Lemma parseValue_loop_first_invalid (b : Z) (s1 : string) (c : ascii) (s2 : string) :
  Forall has_digit (list_ascii_of_string s1) ->
  digit_value c = None ->
  forall acc,
    parseValue_loop b (toLowerCase (s1 ++ String c s2)) acc
    = Err (InvalidDigit (lower_char c) b).
Proof.
  intros H1 Hc. induction s1 as [| c1 rest IH]; intros acc;
    cbn [String.append toLowerCase parseValue_loop].
  - rewrite indexOf_digits_lower, Hc. reflexivity.
  - cbn [list_ascii_of_string] in H1.
    inversion H1 as [| ? ? [d Hd] Hrest]; subst.
    rewrite indexOf_digits_lower, Hd.
    pose proof (digit_value_range c1 d Hd).
    destruct (Z.ltb_spec d 0); [lia |]. apply IH. assumption.
Qed.

(** X5: when a string has a character outside the alphabet,
    [parseValueBigInt] throws the invalid-digit error for the first such
    character, in lower case, whatever follows it. *)
Theorem parseValueBigInt_first_invalid (b : Z) (s1 : string) (c : ascii) (s2 : string) :
  Forall has_digit (list_ascii_of_string s1) ->
  digit_value c = None ->
  parseValueBigInt (Num b) (s1 ++ String c s2) = Err (InvalidDigit (lower_char c) b).
Proof.
  intros H1 Hc. unfold parseValueBigInt. cbn [BigInt bind].
  apply parseValue_loop_first_invalid; assumption.
Qed.

Lemma parseValueBigInt_first_invalid_witness :
  parseValueBigInt (Num 10) "12-4!" = Err (InvalidDigit "-"%char 10).
Proof.
  apply (parseValueBigInt_first_invalid 10 "12" "-"%char "4!").
  - repeat constructor; eexists; reflexivity.
  - reflexivity.
Defined.

Lemma positional_app (b : Z) (ds1 ds2 : list Z) :
  positional b (ds1 ++ ds2) =
  positional b ds1 * b ^ Z.of_nat (List.length ds2) + positional b ds2.
Proof.
  induction ds1 as [| d rest IH]; cbn [app positional].
  - ring.
  - rewrite IH, length_app, Nat2Z.inj_add, Z.pow_add_r by lia. ring.
Qed.

Lemma digits_app (s1 s2 : string) :
  list_ascii_of_string (s1 ++ s2)
  = list_ascii_of_string s1 ++ list_ascii_of_string s2.
Proof.
  induction s1 as [| c rest IH]; cbn [String.append list_ascii_of_string app];
    [reflexivity | rewrite IH; reflexivity].
Qed.

Lemma digits_length (s : string) :
  List.length (list_ascii_of_string s) = String.length s.
Proof.
  induction s as [| c rest IH]; cbn; [reflexivity | rewrite IH; reflexivity].
Qed.

(** X6: decoding a concatenation shifts the value of the first part by
    the length of the second: [decode(s1 ++ s2) = decode(s1) * b^|s2| +
    decode(s2)]. *)
Theorem parseValueBigInt_append (b : Z) (s1 s2 : string) (v1 v2 : Z) :
  parseValueBigInt (Num b) s1 = Ok v1 ->
  parseValueBigInt (Num b) s2 = Ok v2 ->
  parseValueBigInt (Num b) (s1 ++ s2)
  = Ok (v1 * b ^ Z.of_nat (String.length s2) + v2).
Proof.
  intros H1 H2.
  assert (Hall : forall s v, parseValueBigInt (Num b) s = Ok v ->
                             Forall has_digit (list_ascii_of_string s)).
  { intros s v Hs. apply Forall_forall. intros c Hin.
    destruct (digit_value c) as [d |] eqn:Hd; [exists d; exact Hd |].
    exfalso.
    destruct (parseValueBigInt_not_alphabet b s) as [c' Herr].
    - apply Exists_exists. exists c. split; assumption.
    - congruence. }
  destruct (digits_exist s1 (Hall s1 v1 H1)) as [ds1 Hds1].
  destruct (digits_exist s2 (Hall s2 v2 H2)) as [ds2 Hds2].
  rewrite (parseValueBigInt_positional b s1 ds1 Hds1) in H1. injection H1 as <-.
  rewrite (parseValueBigInt_positional b s2 ds2 Hds2) in H2. injection H2 as <-.
  rewrite (parseValueBigInt_positional b (s1 ++ s2) (ds1 ++ ds2)).
  - rewrite positional_app, <- digits_length.
    rewrite (Forall2_length Hds2). reflexivity.
  - rewrite digits_app. apply Forall2_app; assumption.
Qed.

Lemma parseValueBigInt_append_witness :
  parseValueBigInt (Num 16) ("ff" ++ "0a") = Ok (255 * 16 ^ 2 + 10).
Proof.
  apply (parseValueBigInt_append 16 "ff" "0a" 255 10); reflexivity.
Defined.

Lemma positional_bound (b : Z) (ds : list Z) :
  1 <= b -> Forall (fun d => 0 <= d < b) ds ->
  0 <= positional b ds < b ^ Z.of_nat (List.length ds).
Proof.
  intros Hb H. induction H as [| d rest Hd _ IH]; cbn [positional List.length].
  - simpl. lia.
  - rewrite Nat2Z.inj_succ, Z.pow_succ_r by lia.
    pose proof (Z.pow_pos_nonneg b (Z.of_nat (List.length rest)) ltac:(lia) ltac:(lia)).
    nia.
Qed.

(** X7: a string of [n] digits that are all below the base [b >= 1] decodes
    to a value in [[0, b^n)]. *)
Theorem parseValueBigInt_bound (b : Z) (s : string) (ds : list Z) :
  1 <= b ->
  Forall2 (fun c d => digit_value c = Some d /\ d < b)
    (list_ascii_of_string s) ds ->
  exists v, parseValueBigInt (Num b) s = Ok v /\
            0 <= v < b ^ Z.of_nat (String.length s).
Proof.
  intros Hb H. exists (positional b ds). split.
  - apply parseValueBigInt_positional.
    induction H as [| c d cs ds' [Hd _] _ IH]; constructor; assumption.
  - rewrite <- digits_length, (Forall2_length H).
    apply positional_bound; [assumption |].
    induction H as [| c d cs ds' [Hd Hlt] _ IH]; constructor; [| assumption].
    pose proof (digit_value_range c d Hd). lia.
Qed.

Lemma parseValueBigInt_bound_witness :
  exists v, parseValueBigInt (Num 4) "213" = Ok v /\ 0 <= v < 4 ^ Z.of_nat 3.
Proof.
  apply (parseValueBigInt_bound 4 "213" [2; 1; 3]); [lia |].
  repeat constructor.
Defined.

(** ** lagrangeInterpolateBigInt on malformed arrays *)

Lemma inner_body_undefined (xi : Z) (targetX : Number) (p : Z) (x : Number) :
  exists e, inner_body xi targetX p x None = Err e.
Proof.
  unfold inner_body.
  destruct (BigInt x) as [xj | e]; cbn [bind]; [| eauto].
  destruct (BigInt targetX) as [t | e]; cbn [bind]; [| eauto].
  destruct (big_rem (t - xj + p) p) as [n | e]; cbn [bind]; [| eauto].
  destruct (big_rem (xi - xj + p) p) as [d | e]; cbn [bind]; [| eauto].
  cbn [operand bind]. eauto.
Qed.

Lemma inner_loop_undefined (i : nat) (xi : Z) (targetX : Number) (p : Z)
    (xs : list Number) :
  forall j,
    inner_loop i xi targetX p j xs None = Ok None \/
    exists e, inner_loop i xi targetX p j xs None = Err e.
Proof.
  induction xs as [| x rest IH]; intros j; cbn [inner_loop].
  - left. reflexivity.
  - destruct (Nat.eqb i j); [apply IH |].
    destruct (inner_body_undefined xi targetX p x) as [e He].
    rewrite He. cbn [bind]. right. eauto.
Qed.

Lemma outer_loop_missing_y (xPoints : list Number) (yPoints : list Z)
    (targetX : Number) (p : Z) (xs : list Number) :
  forall (i : nat) (total : Z),
    (i <= List.length yPoints < i + List.length xs)%nat ->
    exists e, outer_loop xPoints yPoints targetX p i xs total = Err e.
Proof.
  induction xs as [| x rest IH]; intros i total Hlen; cbn [List.length] in Hlen.
  - lia.
  - cbn [outer_loop].
    destruct (BigInt x) as [xi | e]; cbn [bind]; [| eauto].
    destruct (nth_error yPoints i) as [y |] eqn:Hy.
    + destruct (inner_loop i xi targetX p 0 xPoints (Some y)) as [term | e];
        cbn [bind]; [| eauto].
      destruct (operand term) as [tm | e]; cbn [bind]; [| eauto].
      destruct (big_rem (total + tm) p) as [total' | e]; cbn [bind]; [| eauto].
      apply IH.
      assert (i < List.length yPoints)%nat
        by (apply nth_error_Some; congruence).
      lia.
    + destruct (inner_loop_undefined i xi targetX p xPoints 0%nat) as [H | [e H]];
        rewrite H; cbn [bind operand]; eauto.
Qed.

(** X8: when [yPoints] is shorter than [xPoints], the interpolation throws:
    it never returns a value computed with a missing y. *)
Theorem lagrange_missing_y (xPoints : list Number) (yPoints : list Z)
    (targetX : Number) (p : Z) :
  (List.length yPoints < List.length xPoints)%nat ->
  exists e, lagrangeInterpolateBigInt xPoints yPoints targetX p = Err e.
Proof.
  intros Hlen. unfold lagrangeInterpolateBigInt.
  apply outer_loop_missing_y. lia.
Qed.

Lemma lagrange_missing_y_witness :
  exists e, lagrangeInterpolateBigInt [Num 1; Num 2; Num 3] [4; 2] (Num 0) 5 = Err e.
Proof.
  apply (lagrange_missing_y [Num 1; Num 2; Num 3] [4; 2] (Num 0) 5).
  simpl. lia.
Defined.

Lemma inner_loop_NaN (i : nat) (xi : Z) (targetX : Number) (p : Z)
    (xs : list Number) :
  forall (j : nat) (term : option Z),
    (i < j)%nat -> In NaN xs ->
    exists e, inner_loop i xi targetX p j xs term = Err e.
Proof.
  induction xs as [| x rest IH]; intros j term Hlt Hin; [destruct Hin |].
  cbn [inner_loop]. destruct (Nat.eqb_spec i j); [lia |].
  destruct Hin as [-> | Hin].
  - unfold inner_body. cbn [BigInt bind]. eauto.
  - destruct (inner_body xi targetX p x term) as [term' | e]; cbn [bind];
      [| eauto].
    apply IH; [lia | assumption].
Qed.

(** X9: when one of the [xPoints] is NaN (a share name that is not a
    number), the interpolation throws during its first outer iteration: it
    never returns a value. *)
Theorem lagrange_NaN_index (xPoints : list Number) (yPoints : list Z)
    (targetX : Number) (p : Z) :
  In NaN xPoints ->
  exists e, lagrangeInterpolateBigInt xPoints yPoints targetX p = Err e.
Proof.
  intros Hin. unfold lagrangeInterpolateBigInt.
  destruct xPoints as [| x rest]; [destruct Hin |].
  cbn [outer_loop]. destruct Hin as [-> | Hin]; [cbn [BigInt bind]; eauto |].
  destruct (BigInt x) as [xi | e]; cbn [bind]; [| eauto].
  cbn [inner_loop Nat.eqb].
  destruct (inner_loop_NaN 0 xi targetX p rest 1%nat (nth_error yPoints 0)
              ltac:(lia) Hin) as [e He].
  rewrite He. cbn [bind]. eauto.
Qed.

Lemma lagrange_NaN_index_witness :
  exists e, lagrangeInterpolateBigInt [Num 1; NaN; Num 3] [4; 2; 2] (Num 0) 5 = Err e.
Proof.
  apply (lagrange_NaN_index [Num 1; NaN; Num 3] [4; 2; 2] (Num 0) 5).
  right. left. reflexivity.
Defined.

(** ** lagrangeInterpolateBigInt at an arbitrary target *)

Section InterpolationAt.

Variable p : Z.
Hypothesis p_prime : Z.prime p.

(** The target of the evaluation. *)
Variable t : Z.

Lemma inner_body_spec_at (xi xj tm : Z) :
  - p < xi - xj < p -> xi <> xj ->
  exists t',
    inner_body xi (Num t) p (Num xj) (Some tm) = Ok (Some t') /\
    cong p (t' * (xi - xj)) (tm * (t - xj)) /\
    (0 <= tm -> xj - t <= p -> 0 <= t' < p).
Proof.
  intros Hr Hne.
  pose proof (Z.prime_ge_2 p p_prime) as p_ge_2.
  assert (p_pos : 0 < p) by lia.
  pose proof (den_range xi xj p p_pos Hr Hne) as Hden.
  destruct (modInverse_coprime (den xi xj p) p Hden
              (prime_range_coprime _ _ p_prime Hden))
    as [inv [Hinv [Hinv_range Hinv_one]]].
  unfold inner_body. cbn [BigInt operand bind].
  rewrite !big_rem_Ok by lia. cbn [bind].
  fold (den xi xj p). rewrite Hinv. cbn [bind].
  repeat (rewrite big_rem_Ok by lia; cbn [bind]).
  set (n := Z.rem (t - xj + p) p).
  eexists; split; [reflexivity |]. split.
  - assert (Hone : cong p (den xi xj p * inv) 1).
    { apply mod_eq_cong; [lia |]. rewrite Hinv_one.
      symmetry. apply Z.mod_1_l. lia. }
    assert (Hd : cong p (den xi xj p) (xi - xj)).
    { unfold den. rewrite (cong_rem p) by lia. exists 1. lia. }
    assert (Hn : cong p n (t - xj)).
    { unfold n. rewrite (cong_rem p) by lia. exists 1. lia. }
    rewrite (cong_rem p (Z.rem (tm * n) p * inv)) by lia.
    rewrite (cong_rem p (tm * n)) by lia.
    rewrite <- Hd at 1.
    replace (tm * n * inv * den xi xj p)
      with (tm * n * (den xi xj p * inv)) by ring.
    rewrite Hone, Hn. exists 0. lia.
  - intros Ht Hxj.
    assert (Hnum : 0 <= n) by (unfold n; apply Z.rem_nonneg; lia).
    assert (Ha : 0 <= Z.rem (tm * n) p)
      by (apply Z.rem_nonneg; [lia | nia]).
    apply Z.rem_bound_pos; [nia | lia].
Qed.

Lemma inner_fold_spec_at (xi : Z) (zs : list Z) :
  (forall z, In z zs -> - p < xi - z < p /\ xi <> z) ->
  forall tm,
  exists t',
    inner_fold p xi (Num t) (map Num zs) (Some tm) = Ok (Some t') /\
    cong p (t' * prod_diff xi zs) (tm * prod_diff t zs) /\
    (0 <= tm -> (forall z, In z zs -> z - t <= p) -> 0 <= t').
Proof.
  induction zs as [| z rest IH]; intros Hzs tm;
    cbn [map inner_fold prod_diff].
  - exists tm. split; [reflexivity |]. split; [reflexivity | auto].
  - destruct (Hzs z (or_introl eq_refl)) as [Hr Hne].
    destruct (inner_body_spec_at xi z tm Hr Hne) as [t1 [Hbody [Hc1 Hs1]]].
    rewrite Hbody. cbn [bind].
    destruct (IH (fun w Hw => Hzs w (or_intror Hw)) t1)
      as [t' [Hfold [Hc Hs]]].
    exists t'. split; [assumption |]. split.
    + replace (t' * ((xi - z) * prod_diff xi rest))
        with ((xi - z) * (t' * prod_diff xi rest)) by ring.
      rewrite Hc.
      replace ((xi - z) * (t1 * prod_diff t rest))
        with (t1 * (xi - z) * prod_diff t rest) by ring.
      rewrite Hc1. exists 0. ring.
    + intros Ht Hle. apply Hs.
      * apply Hs1; [assumption | apply Hle; left; reflexivity].
      * intros w Hw. apply Hle. right. assumption.
Qed.

Lemma outer_loop_spec_at (pts : list (Z * Z)) :
  NoDup (map fst pts) ->
  spread_below p (map fst pts) ->
  forall (post pre : list (Z * Z)) (total : Z),
    pts = pre ++ post ->
    exists total',
      outer_loop (map Num (map fst pts)) (map snd pts) (Num t) p
        (List.length pre) (map Num (map fst post)) total = Ok total' /\
      cong p total'
        (total + eval (lagrange_poly p (map fst pre) post) t) /\
      (0 <= total < p ->
       (forall x, In x (map fst pts) -> x - t <= p) ->
       (forall y, In y (map snd pts) -> 0 <= y) ->
       0 <= total' < p).
Proof.
  intros Hnd Hspread.
  pose proof (Z.prime_ge_2 p p_prime) as Hp2.
  induction post as [| [x y] rest IH]; intros pre total Hpts.
  - exists total. cbn [map outer_loop lagrange_poly eval].
    split; [reflexivity |]. split; [exists 0; ring | auto].
  - cbn [map fst outer_loop BigInt bind].
    assert (Hy : nth_error (map snd pts) (List.length pre) = Some y).
    { rewrite Hpts, map_app, nth_error_app2 by (rewrite length_map; lia).
      rewrite length_map, Nat.sub_diag. reflexivity. }
    rewrite Hy.
    assert (Hxs : map fst pts = map fst pre ++ x :: map fst rest).
    { rewrite Hpts, map_app. reflexivity. }
    set (others := map fst pre ++ map fst rest).
    assert (Hinner :
      inner_loop (List.length pre) x (Num t) p 0 (map Num (map fst pts)) (Some y)
      = inner_fold p x (Num t) (map Num others) (Some y)).
    { rewrite Hxs. unfold others. rewrite !map_app. cbn [map].
      apply inner_loop_skip. rewrite !length_map. reflexivity. }
    rewrite Hinner.
    assert (Hothers : forall z, In z others -> - p < x - z < p /\ x <> z).
    { intros z Hz.
      assert (Hzin : In z (map fst pts))
        by (rewrite Hxs; apply in_others; assumption).
      assert (Hxin : In x (map fst pts))
        by (rewrite Hxs, in_app_iff; right; left; reflexivity).
      pose proof (Hspread x z Hxin Hzin). pose proof (Hspread z x Hzin Hxin).
      split; [lia |].
      apply (NoDup_others (map fst pre) x (map fst rest));
        [rewrite <- Hxs |]; assumption. }
    destruct (inner_fold_spec_at x others Hothers y) as [t' [Hfold [Hc Hs]]].
    rewrite Hfold. cbn [bind operand].
    rewrite big_rem_Ok by lia. cbn [bind].
    destruct (IH (pre ++ [(x, y)]) (Z.rem (total + t') p))
      as [total' [Hrun [Hct Hst]]].
    { rewrite <- app_assoc. exact Hpts. }
    rewrite length_app in Hrun. cbn [List.length] in Hrun.
    rewrite Nat.add_1_r in Hrun.
    exists total'. split; [exact Hrun |]. split.
    + rewrite Hct. rewrite map_app. cbn [map fst lagrange_poly].
      fold others. rewrite eval_padd, eval_pscale, eval_basis.
      rewrite (cong_rem p) by lia.
      assert (Hunit : cong p (prod_diff x others
                              * field_inverse p (prod_diff x others)) 1).
      { apply field_inverse_spec; [assumption |].
        apply prod_diff_prime; [assumption |]. intros z Hz.
        destruct (Hothers z Hz). apply not_divide_small; lia. }
      assert (Ht' : cong p t'
                (y * field_inverse p (prod_diff x others) * prod_diff t others)).
      { replace t' with (t' * 1) by ring. rewrite <- Hunit.
        replace (t' * (prod_diff x others
                       * field_inverse p (prod_diff x others)))
          with (t' * prod_diff x others
                * field_inverse p (prod_diff x others)) by ring.
        rewrite Hc. exists 0. ring. }
      rewrite Ht'. exists 0. ring.
    + intros Ht Hx Hynn. apply Hst; [| assumption | assumption].
      assert (0 <= t').
      { apply Hs.
        - apply Hynn. rewrite Hpts, map_app, in_app_iff.
          right. left. reflexivity.
        - intros z Hz. apply Hx. rewrite Hxs. apply in_others. assumption. }
      apply Z.rem_bound_pos; lia.
Qed.

Lemma lagrange_correct_at (pts : list (Z * Z)) :
  NoDup (map fst pts) ->
  spread_below p (map fst pts) ->
  (forall x, In x (map fst pts) -> x - t <= p) ->
  (forall y, In y (map snd pts) -> 0 <= y) ->
  exists r,
    lagrangeInterpolateBigInt (map Num (map fst pts)) (map snd pts) (Num t) p
    = Ok r /\
    0 <= r < p /\
    forall f,
      (List.length f <= List.length pts)%nat ->
      interpolates p f pts ->
      r = eval f t mod p.
Proof.
  intros Hnd Hspread Hx Hy.
  pose proof (Z.prime_ge_2 p p_prime) as Hp2.
  destruct (outer_loop_spec_at pts Hnd Hspread pts [] 0 eq_refl)
    as [r [Hrun [Hc Hs]]].
  destruct (lagrange_poly_interpolates p p_prime pts Hnd Hspread) as [Hlen Hint].
  assert (Hr : 0 <= r < p) by (apply Hs; [lia | assumption | assumption]).
  exists r. split; [exact Hrun |]. split; [exact Hr |].
  intros f Hf Hfi. apply cong_small; [exact Hr |].
  rewrite Hc. cbn [map]. rewrite Z.add_0_l. symmetry.
  apply (interpolation_unique p p_prime pts); try assumption.
  - apply spread_distinct_mod; assumption.
  - intros x y Hin. apply mod_eq_cong; [lia | apply Hfi; assumption].
  - intros x y Hin. apply mod_eq_cong; [lia | apply Hint; assumption].
Qed.

End InterpolationAt.

(** X10: under the conditions of the interpolation at 0, and for a target
    [t] that no x value exceeds by more than [p], the interpolation at [t]
    returns [P(t) mod p] for every polynomial [P] with at most [k]
    coefficients through the [k] points modulo [p]. *)
Theorem lagrange_evaluates_at_target (p t : Z) (pts : list (Z * Z)) (f : list Z) :
  Z.prime p ->
  NoDup (map fst pts) ->
  spread_below p (map fst pts) ->
  (forall x, In x (map fst pts) -> x - t <= p) ->
  (forall y, In y (map snd pts) -> 0 <= y) ->
  (List.length f <= List.length pts)%nat ->
  interpolates p f pts ->
  lagrangeInterpolateBigInt (map Num (map fst pts)) (map snd pts) (Num t) p
  = Ok (eval f t mod p).
Proof.
  intros Hp Hnd Hspread Hx Hy Hlen Hf.
  destruct (lagrange_correct_at p Hp t pts Hnd Hspread Hx Hy)
    as [r [Hrun [_ Hall]]].
  rewrite Hrun, (Hall f Hlen Hf). reflexivity.
Qed.

Lemma lagrange_evaluates_at_target_witness :
  lagrangeInterpolateBigInt [Num 1; Num 2; Num 3] [4; 2; 2] (Num 4) 5
  = Ok (eval [3; 0; 1] 4 mod 5).
Proof.
  apply (lagrange_evaluates_at_target 5 4 [(1, 4); (2, 2); (3, 2)] [3; 0; 1]).
  - exact prime_5.
  - repeat constructor; simpl; lia.
  - intros a b Ha Hb. simpl in Ha, Hb. lia.
  - intros x Hx. simpl in Hx. lia.
  - intros y Hy. simpl in Hy. lia.
  - simpl. lia.
  - intros x y Hin. simpl in Hin.
    destruct Hin as [[= <- <-] | [[= <- <-] | [[= <- <-] | []]]]; reflexivity.
Defined.

(** X11: interpolating at the x value of one of the points gives back its
    y value modulo [p]. *)
Theorem lagrange_reproduces_points (p : Z) (pts : list (Z * Z)) (x y : Z) :
  Z.prime p ->
  NoDup (map fst pts) ->
  spread_below p (map fst pts) ->
  (forall y', In y' (map snd pts) -> 0 <= y') ->
  In (x, y) pts ->
  lagrangeInterpolateBigInt (map Num (map fst pts)) (map snd pts) (Num x) p
  = Ok (y mod p).
Proof.
  intros Hp Hnd Hspread Hy Hin.
  destruct (lagrange_poly_interpolates p Hp pts Hnd Hspread) as [Hlen Hint].
  assert (Hx : forall x', In x' (map fst pts) -> x' - x <= p).
  { intros x' Hx'.
    pose proof (Hspread x' x Hx' (in_map fst pts (x, y) Hin)). simpl in H. lia. }
  destruct (lagrange_correct_at p Hp x pts Hnd Hspread Hx Hy)
    as [r [Hrun [_ Hall]]].
  rewrite Hrun, (Hall _ Hlen Hint), (Hint x y Hin). reflexivity.
Qed.

Lemma lagrange_reproduces_points_witness :
  lagrangeInterpolateBigInt [Num 1; Num 2; Num 3] [4; 7; 12] (Num 2) 5
  = Ok (7 mod 5).
Proof.
  apply (lagrange_reproduces_points 5 [(1, 4); (2, 7); (3, 12)] 2 7).
  - exact prime_5.
  - repeat constructor; simpl; lia.
  - intros a b Ha Hb. simpl in Ha, Hb. lia.
  - intros y Hy. simpl in Hy. lia.
  - right. left. reflexivity.
Defined.

(** X12: two lists of points that lie on one polynomial modulo [p], each
    with at least as many points as the polynomial has coefficients and
    each within the conditions of the interpolation, give the same result,
    the value of the polynomial at 0 modulo [p]: any [k] of the shares of
    one secret recover it. *)
Theorem lagrange_subset_invariant (p : Z) (f : list Z) (pts pts' : list (Z * Z)) :
  Z.prime p ->
  NoDup (map fst pts) -> spread_below p (map fst pts) ->
  (forall x, In x (map fst pts) -> x <= p) ->
  (forall y, In y (map snd pts) -> 0 <= y) ->
  NoDup (map fst pts') -> spread_below p (map fst pts') ->
  (forall x, In x (map fst pts') -> x <= p) ->
  (forall y, In y (map snd pts') -> 0 <= y) ->
  (List.length f <= List.length pts)%nat ->
  (List.length f <= List.length pts')%nat ->
  interpolates p f pts -> interpolates p f pts' ->
  lagrangeInterpolateBigInt (map Num (map fst pts)) (map snd pts) (Num 0) p
  = Ok (eval f 0 mod p) /\
  lagrangeInterpolateBigInt (map Num (map fst pts')) (map snd pts') (Num 0) p
  = Ok (eval f 0 mod p).
Proof.
  intros Hp Hnd Hs Hx Hy Hnd' Hs' Hx' Hy' Hlen Hlen' Hf Hf'.
  destruct (lagrange_correct p Hp pts Hnd Hs Hx Hy) as [r [Hrun [_ Hall]]].
  destruct (lagrange_correct p Hp pts' Hnd' Hs' Hx' Hy') as [r' [Hrun' [_ Hall']]].
  rewrite Hrun, Hrun', (Hall f Hlen Hf), (Hall' f Hlen' Hf'). split; reflexivity.
Qed.

Lemma lagrange_subset_invariant_witness :
  lagrangeInterpolateBigInt [Num 1; Num 2; Num 3] [4; 0; 5] (Num 0) 7
  = Ok (eval [3; 0; 1] 0 mod 7) /\
  lagrangeInterpolateBigInt [Num 2; Num 4; Num 6] [0; 5; 4] (Num 0) 7
  = Ok (eval [3; 0; 1] 0 mod 7).
Proof.
  assert (prime_7 : Z.prime 7).
  { split; [lia |]. intros n Hn [k Hk].
    assert (Hc : n = 2 \/ n = 3 \/ n = 4 \/ n = 5 \/ n = 6) by lia.
    destruct Hc as [-> | [-> | [-> | [-> | ->]]]]; lia. }
  apply (lagrange_subset_invariant 7 [3; 0; 1]
           [(1, 4); (2, 0); (3, 5)] [(2, 0); (4, 5); (6, 4)]).
  - exact prime_7.
  - repeat constructor; simpl; lia.
  - intros a b Ha Hb. simpl in Ha, Hb. lia.
  - intros x Hx. simpl in Hx. lia.
  - intros y Hy. simpl in Hy. lia.
  - repeat constructor; simpl; lia.
  - intros a b Ha Hb. simpl in Ha, Hb. lia.
  - intros x Hx. simpl in Hx. lia.
  - intros y Hy. simpl in Hy. lia.
  - simpl. lia.
  - simpl. lia.
  - intros x y Hin. simpl in Hin.
    destruct Hin as [[= <- <-] | [[= <- <-] | [[= <- <-] | []]]]; reflexivity.
  - intros x y Hin. simpl in Hin.
    destruct Hin as [[= <- <-] | [[= <- <-] | [[= <- <-] | []]]]; reflexivity.
Defined.

(** ** recoverSecret: what the result depends on *)

Lemma forEach_values (data : object) (keys : list string) :
  forall xPoints yPoints xPoints' yPoints',
    forEach data keys (xPoints, yPoints) = Ok (xPoints', yPoints') ->
    exists ys,
      yPoints' = yPoints ++ ys /\
      Forall2 (fun key y => share_value data key = Ok y) keys ys.
Proof.
  induction keys as [| key rest IH]; intros xs ys xs' ys' H; cbn [forEach] in H.
  - injection H as <- <-. exists []. rewrite app_nil_r. split; constructor.
  - destruct (share_value data key) as [y | e] eqn:Hv.
    + rewrite (proj1 (decode_share_value data key xs ys) y Hv) in H.
      cbn [bind] in H. apply IH in H. destruct H as [ys0 [-> Hall]].
      exists (y :: ys0). rewrite <- app_assoc. split; [reflexivity |].
      constructor; assumption.
    + rewrite (proj2 (decode_share_value data key xs ys) e Hv) in H.
      discriminate.
Qed.

(** X13: when [recoverSecret] succeeds, the i-th decoded value is the
    decoded value of the i-th selected share, the i-th x value is the number
    its name parses to, and the secret is the interpolation of exactly
    these points at 0 modulo [PRIME]. *)
Theorem recoverSecret_points (data : object) (n k : Z) (out : recovered) :
  get data "keys" = Some (Keys n k) ->
  recoverSecret data = Ok out ->
  used_indices out = map (fun key => parseInt key 0) (indices data (Some k)) /\
  Forall2 (fun key y => share_value data key = Ok y)
    (indices data (Some k)) (decoded_shares out) /\
  lagrangeInterpolateBigInt (used_indices out) (decoded_shares out) (Num 0) PRIME
  = Ok (recoveredC out).
Proof.
  intros Hkeys Hout.
  rewrite (recoverSecret_unfold data n k Hkeys) in Hout.
  destruct (forEach data (indices data (Some k)) ([], []))
    as [[xs ys] | e] eqn:Hfor; [| discriminate].
  cbn [bind fst snd] in Hout.
  destruct (lagrangeInterpolateBigInt xs ys (Num 0) PRIME) as [c | e] eqn:Hc;
    [| discriminate].
  cbn [bind] in Hout. injection Hout as <-.
  cbn [used_indices decoded_shares recoveredC].
  destruct (forEach_Ok _ _ _ _ _ _ Hfor) as [-> _].
  destruct (forEach_values _ _ _ _ _ _ Hfor) as [ys0 [-> Hall]].
  cbn [app] in *. repeat split; assumption.
Qed.

Lemma recoverSecret_points_witness :
  Forall2 (fun key y => share_value sampleData key = Ok y)
    (indices sampleData (Some 3)) [4; 7; 12] /\
  lagrangeInterpolateBigInt [Num 1; Num 2; Num 3] [4; 7; 12] (Num 0) PRIME = Ok 3.
Proof.
  destruct (recoverSecret_points sampleData 4 3
              (mkRecovered [Num 1; Num 2; Num 3] [4; 7; 12] 3))
    as [_ [Hall Hc]].
  - reflexivity.
  - vm_compute. reflexivity.
  - split; [exact Hall | exact Hc].
Defined.

(** The result is a function of the selected names and of the shares
    stored under them. *)
Lemma forEach_ext (data data' : object) (keys : list string) :
  (forall key, In key keys -> get data key = get data' key) ->
  forall acc, forEach data keys acc = forEach data' keys acc.
Proof.
  induction keys as [| key rest IH]; intros Hget acc; cbn [forEach].
  - reflexivity.
  - assert (Hd : decode_share data key acc = decode_share data' key acc).
    { unfold decode_share. rewrite (Hget key (or_introl eq_refl)). reflexivity. }
    rewrite Hd. destruct (decode_share data' key acc) as [acc' | e]; cbn [bind];
      [| reflexivity].
    apply IH. intros key' Hin. apply Hget. right. assumption.
Qed.

Lemma recoverSecret_ext (data data' : object) (n n' k k' : Z) :
  get data "keys" = Some (Keys n k) ->
  get data' "keys" = Some (Keys n' k') ->
  indices data (Some k) = indices data' (Some k') ->
  (forall key, In key (indices data (Some k)) -> get data key = get data' key) ->
  recoverSecret data = recoverSecret data'.
Proof.
  intros Hk Hk' Hind Hget.
  rewrite (recoverSecret_unfold data n k Hk), (recoverSecret_unfold data' n' k' Hk').
  rewrite <- Hind, (forEach_ext data data' _ Hget). reflexivity.
Qed.

Lemma get_app_notin (shares rest : object) (key : string) :
  ~ In key (map fst shares) -> get (shares ++ rest) key = get rest key.
Proof.
  induction shares as [| [k0 v] shares IH]; cbn [app get map fst]; intros H.
  - reflexivity.
  - destruct (String.eqb_spec k0 key) as [-> | Hne].
    + exfalso. apply H. left. reflexivity.
    + apply IH. intros Hin. apply H. right. assumption.
Qed.

Lemma get_app_in (shares rest : object) (key : string) :
  In key (map fst shares) -> get (shares ++ rest) key = get shares key.
Proof.
  induction shares as [| [k0 v] shares IH]; cbn [app get map fst]; intros H.
  - destruct H.
  - destruct (String.eqb_spec k0 key) as [-> | Hne]; [reflexivity |].
    apply IH. destruct H as [H | H]; [contradiction | assumption].
Qed.

Lemma filter_not_keys (names : list string) :
  ~ In "keys" names ->
  filter (fun key => negb (String.eqb key "keys")) names = names.
Proof.
  induction names as [| x rest IH]; cbn [filter]; intros H; [reflexivity |].
  destruct (String.eqb_spec x "keys") as [-> | Hne].
  - exfalso. apply H. left. reflexivity.
  - cbn [negb]. rewrite IH; [reflexivity |].
    intros Hin. apply H. right. assumption.
Qed.

Lemma share_keys_request (shares : object) (n k : Z) :
  ~ In "keys" (map fst shares) ->
  share_keys (request shares n k) = map fst shares.
Proof.
  intros H. unfold share_keys, request, Object_keys.
  rewrite map_app, filter_app, (filter_not_keys _ H). cbn. apply app_nil_r.
Qed.

Lemma firstn_incl {A : Type} (n : nat) (l : list A) (x : A) :
  In x (firstn n l) -> In x l.
Proof.
  intros H. rewrite <- (firstn_skipn n l), in_app_iff. left. assumption.
Qed.

Lemma indices_all (data : object) (k : Z) :
  Z.of_nat (List.length (share_keys data)) <= k ->
  indices data (Some k) = sort compareFn (share_keys data).
Proof.
  intros Hk. unfold indices, slice0. fold (share_keys data).
  rewrite (Permutation_length (sort_perm compareFn (share_keys data))).
  destruct (Z.ltb_spec k 0); [lia |].
  rewrite Z.min_r by lia. rewrite Nat2Z.id.
  rewrite <- (Permutation_length (sort_perm compareFn (share_keys data))).
  apply firstn_all.
Qed.

(** X14: [recoverSecret] never reads [n], and a threshold [k] at or above
    the number of shares has the effect of any other such threshold: all
    the shares are selected and interpolated, without a failure for the
    shares that are lacking. *)
Theorem recoverSecret_ignores_n_and_excess_k (shares : object) (n n' k k' : Z) :
  ~ In "keys" (map fst shares) ->
  k = k' \/
  (Z.of_nat (List.length shares) <= k /\ Z.of_nat (List.length shares) <= k') ->
  recoverSecret (request shares n k) = recoverSecret (request shares n' k') /\
  (Z.of_nat (List.length shares) <= k ->
   indices (request shares n k) (Some k) = sort compareFn (map fst shares)).
Proof.
  intros Hnk Hk.
  assert (Hget : forall m j, get (request shares m j) "keys" = Some (Keys m j)).
  { intros m j. unfold request. rewrite get_app_notin by assumption. reflexivity. }
  assert (Hsk : forall m j, share_keys (request shares m j) = map fst shares)
    by (intros; apply share_keys_request; assumption).
  assert (Hall : forall m j, Z.of_nat (List.length shares) <= j ->
            indices (request shares m j) (Some j) = sort compareFn (map fst shares)).
  { intros m j Hj. rewrite indices_all; rewrite Hsk; [reflexivity |].
    rewrite length_map. assumption. }
  split; [| apply Hall].
  apply (recoverSecret_ext _ _ n n' k k' (Hget n k) (Hget n' k')).
  - destruct Hk as [<- | [Hk1 Hk2]].
    + unfold indices. fold (share_keys (request shares n k)).
      fold (share_keys (request shares n' k)). rewrite !Hsk. reflexivity.
    + rewrite (Hall n k Hk1), (Hall n' k' Hk2). reflexivity.
  - intros key Hin.
    assert (Hks : In key (map fst shares)).
    { rewrite <- (Hsk n k). unfold indices, slice0 in Hin.
      fold (share_keys (request shares n k)) in Hin.
      apply (Permutation_in _ (sort_perm compareFn _)).
      destruct (k <? 0); apply (firstn_incl _ _ _ Hin). }
    unfold request. rewrite !get_app_in by assumption. reflexivity.
Qed.

Lemma recoverSecret_ignores_n_and_excess_k_witness :
  recoverSecret (request [("1", Share "10" "4"); ("2", Share "2" "111")] 4 3)
  = recoverSecret (request [("1", Share "10" "4"); ("2", Share "2" "111")] 2 2).
Proof.
  apply (recoverSecret_ignores_n_and_excess_k
           [("1", Share "10" "4"); ("2", Share "2" "111")] 4 2 3 2).
  - simpl. intuition discriminate.
  - right. simpl. lia.
Defined.

Lemma get_Some_In (data : object) (key : string) (v : propval) :
  get data key = Some v -> In (key, v) data.
Proof.
  induction data as [| [k0 v0] rest IH]; cbn [get]; [discriminate |].
  destruct (String.eqb_spec k0 key) as [-> | Hne].
  - intros [= ->]. left. reflexivity.
  - intros H. right. apply IH. assumption.
Qed.

Lemma In_get (data : object) (key : string) (v : propval) :
  NoDup (map fst data) -> In (key, v) data -> get data key = Some v.
Proof.
  induction data as [| [k0 v0] rest IH]; cbn [get map fst]; intros Hnd Hin;
    [destruct Hin |].
  inversion Hnd as [| ? ? Hnotin Hnd']; subst.
  destruct Hin as [[= -> ->] | Hin].
  - rewrite String.eqb_refl. reflexivity.
  - destruct (String.eqb_spec k0 key) as [-> | Hne]; [| apply IH; assumption].
    exfalso. apply Hnotin. apply (in_map fst) in Hin. exact Hin.
Qed.

Lemma get_Permutation (data data' : object) (key : string) :
  NoDup (map fst data) -> Permutation data data' ->
  get data key = get data' key.
Proof.
  intros Hnd Hperm.
  assert (Hnd' : NoDup (map fst data'))
    by (apply (Permutation_NoDup (Permutation_map fst Hperm)); assumption).
  destruct (get data key) as [v |] eqn:Hg.
  - symmetry. apply In_get; [assumption |].
    apply (Permutation_in _ Hperm). apply get_Some_In. assumption.
  - destruct (get data' key) as [v' |] eqn:Hg'; [| reflexivity].
    apply get_Some_In in Hg'.
    apply (Permutation_in _ (Permutation_sym Hperm)) in Hg'.
    apply (In_get data key v' Hnd) in Hg'. congruence.
Qed.

Lemma filter_Permutation {A : Type} (f : A -> bool) (l l' : list A) :
  Permutation l l' -> Permutation (filter f l) (filter f l').
Proof.
  intros H. induction H as [| x l l' _ IH | x y l | l l' l'' _ IH1 _ IH2];
    cbn [filter].
  - constructor.
  - destruct (f x); [constructor |]; assumption.
  - destruct (f x), (f y); try reflexivity. apply perm_swap.
  - etransitivity; eassumption.
Qed.

Lemma index_lt_irrefl (a : string) : ~ index_lt a a.
Proof.
  unfold index_lt, num_lt. destruct (parseInt a 0); [tauto | lia].
Qed.

Lemma index_lt_asym (a b : string) : index_lt a b -> index_lt b a -> False.
Proof.
  unfold index_lt, num_lt.
  destruct (parseInt a 0), (parseInt b 0); try tauto. lia.
Qed.

(** A list has one strictly ascending arrangement. *)
Lemma sorted_Permutation_eq (l l' : list string) :
  StronglySorted index_lt l -> StronglySorted index_lt l' ->
  Permutation l l' -> l = l'.
Proof.
  intros Hs. revert l'.
  induction Hs as [| x rest Hrest IH Hx]; intros l' Hs' Hperm.
  - apply Permutation_nil in Hperm. congruence.
  - destruct l' as [| y rest'].
    { apply Permutation_sym, Permutation_nil in Hperm. discriminate. }
    inversion Hs' as [| ? ? Hrest' Hy]; subst.
    rewrite Forall_forall in Hx, Hy.
    assert (Hxy : x = y).
    { assert (Hxin : In x (y :: rest'))
        by (apply (Permutation_in _ Hperm); left; reflexivity).
      assert (Hyin : In y (x :: rest))
        by (apply (Permutation_in _ (Permutation_sym Hperm)); left; reflexivity).
      destruct Hxin as [-> | Hxin]; [reflexivity |].
      destruct Hyin as [-> | Hyin]; [reflexivity |].
      exfalso. apply (index_lt_asym x y); [apply Hx | apply Hy]; assumption. }
    subst y. f_equal. apply IH; [assumption |].
    apply (Permutation_cons_inv Hperm).
Qed.

(** X15: the outcome of [recoverSecret] does not depend on the order in
    which the request lists its properties, provided the share names parse
    to pairwise distinct positive integers below 2^53. *)
Theorem recoverSecret_order_independent (data data' : object) (n k : Z) :
  Permutation data data' ->
  NoDup (map fst data) ->
  get data "keys" = Some (Keys n k) ->
  Forall indexed (share_keys data) ->
  NoDup (map (fun key => parseInt key 0) (share_keys data)) ->
  recoverSecret data = recoverSecret data'.
Proof.
  intros Hperm Hnd Hkeys Hidx Hdist.
  assert (Hnum : Forall numeric (share_keys data)).
  { clear - Hidx. induction Hidx as [| key rest [z [Hz _]] _ IH]; constructor;
      [exists z; assumption | assumption]. }
  assert (Hsk : Permutation (share_keys data) (share_keys data')).
  { unfold share_keys, Object_keys. apply filter_Permutation.
    apply Permutation_map. assumption. }
  assert (Hsort : sort compareFn (share_keys data)
                  = sort compareFn (share_keys data')).
  { apply sorted_Permutation_eq.
    - apply sorted_strict; [| apply sort_sorted; assumption].
      apply (Permutation_NoDup
               (Permutation_map _ (Permutation_sym (sort_perm compareFn _)))).
      assumption.
    - apply sorted_strict.
      + apply (Permutation_NoDup
                 (Permutation_map _
                    (Permutation_trans Hsk
                       (Permutation_sym (sort_perm compareFn _))))).
        assumption.
      + apply sort_sorted. apply Forall_forall. intros key Hin.
        rewrite Forall_forall in Hnum. apply Hnum.
        apply (Permutation_in _ (Permutation_sym Hsk)). assumption.
    - rewrite (sort_perm compareFn (share_keys data)), Hsk.
      symmetry. apply sort_perm. }
  assert (Hkeys' : get data' "keys" = Some (Keys n k))
    by (rewrite <- (get_Permutation data data' _ Hnd Hperm); assumption).
  apply (recoverSecret_ext data data' n n k k Hkeys Hkeys').
  - unfold indices. fold (share_keys data). fold (share_keys data').
    rewrite Hsort. reflexivity.
  - intros key _. apply get_Permutation; assumption.
Qed.

Lemma recoverSecret_order_independent_witness :
  recoverSecret wideIndices = recoverSecret wideIndices'.
Proof.
  apply (recoverSecret_order_independent wideIndices wideIndices' 2 2).
  - apply perm_swap.
  - repeat (constructor; [simpl; intuition discriminate |]). constructor.
  - reflexivity.
  - repeat (constructor;
              [eexists; split;
               [reflexivity | vm_compute; split; [discriminate | reflexivity]] |]).
    constructor.
  - repeat (constructor; [simpl; intuition discriminate |]). constructor.
Defined.

(* ------------------------------------------------------------------ *)
(** ** recoverSecret: the selection of the smallest indices *)

Lemma indexed_numeric (l : list string) : Forall indexed l -> Forall numeric l.
Proof.
  intros H. induction H as [| key rest [z [Hz _]] _ IH]; constructor;
    [exists z; assumption | assumption].
Qed.

Lemma forEach_share_values (data : object) (keys : list string) :
  forall xPoints yPoints,
    forEach data keys (xPoints, yPoints) =
    (ys <- share_values data keys ;;
     Ok (xPoints ++ map (fun key => parseInt key 0) keys, yPoints ++ ys)).
Proof.
  induction keys as [| key rest IH]; intros xs ys; cbn [forEach share_values map].
  - cbn [bind]. rewrite !app_nil_r. reflexivity.
  - destruct (share_value data key) as [y | e] eqn:Hv; cbn [bind].
    + rewrite (proj1 (decode_share_value data key xs ys) y Hv). cbn [bind].
      rewrite IH. destruct (share_values data rest) as [vs | e]; cbn [bind];
        [| reflexivity].
      rewrite <- !app_assoc. reflexivity.
    + rewrite (proj2 (decode_share_value data key xs ys) e Hv). reflexivity.
Qed.

Lemma recoverSecret_recover_from (data : object) (n k : Z) :
  get data "keys" = Some (Keys n k) ->
  recoverSecret data = recover_from data (indices data (Some k)).
Proof.
  intros Hkeys. rewrite (recoverSecret_unfold data n k Hkeys).
  unfold recover_from. rewrite forEach_share_values.
  destruct (share_values data (indices data (Some k))) as [ys | e];
    reflexivity.
Qed.

(** What [sort] and [slice] leave is the selection. *)
Lemma indices_selection (data : object) (k : Z) :
  Forall indexed (share_keys data) ->
  NoDup (map (fun key => parseInt key 0) (share_keys data)) ->
  0 <= k <= Z.of_nat (List.length (share_keys data)) ->
  selection data k (indices data (Some k)).
Proof.
  intros Hidx Hnd Hk.
  rewrite (indices_firstn data k Hk).
  set (sorted := sort compareFn (share_keys data)).
  assert (Hperm : Permutation sorted (share_keys data)) by apply sort_perm.
  assert (Hsorted : StronglySorted index_lt sorted).
  { apply sorted_strict.
    - apply (Permutation_NoDup
               (Permutation_map (fun key => parseInt key 0) (Permutation_sym Hperm))).
      assumption.
    - apply sort_sorted. apply indexed_numeric. assumption. }
  rewrite <- (firstn_skipn (Z.to_nat k) sorted) in Hsorted.
  apply sorted_app_inv in Hsorted. destruct Hsorted as [Hfirst Hcross].
  exists (skipn (Z.to_nat k) sorted). split; [| split; [| split]].
  - rewrite firstn_skipn. exact Hperm.
  - rewrite length_firstn, (Permutation_length Hperm). lia.
  - exact Hfirst.
  - exact Hcross.
Qed.

Lemma sorted_NoDup (l : list string) : StronglySorted index_lt l -> NoDup l.
Proof.
  intros H. induction H as [| x rest _ IH Hx]; constructor; [| assumption].
  intros Hin. rewrite Forall_forall in Hx.
  apply (index_lt_irrefl x). apply Hx. assumption.
Qed.

(** Of two selections of the same size, each holds the names of the
    other. *)
Lemma selection_incl (names S U T V : list string) :
  Permutation (S ++ U) names -> Permutation (T ++ V) names ->
  NoDup T -> List.length S = List.length T ->
  (forall a b, In a S -> In b U -> index_lt a b) ->
  (forall a b, In a T -> In b V -> index_lt a b) ->
  incl S T.
Proof.
  intros HS HT HndT Hlen HcrossS HcrossT.
  destruct (Forall_Exists_dec (fun a => In a T)
              (fun a => in_dec string_dec a T) S) as [Hall | Hex].
  { rewrite Forall_forall in Hall. exact Hall. }
  destruct (Forall_Exists_dec (fun b => In b S)
              (fun b => in_dec string_dec b S) T) as [Hall' | Hex'].
  { rewrite Forall_forall in Hall'.
    apply (NoDup_length_incl HndT); [lia | exact Hall']. }
  exfalso.
  apply Exists_exists in Hex. destruct Hex as [a [HaS HaT]].
  apply Exists_exists in Hex'. destruct Hex' as [b [HbT HbS]].
  assert (HaV : In a V).
  { assert (Hin : In a (T ++ V)).
    { apply (Permutation_in _ (Permutation_trans HS (Permutation_sym HT))).
      apply in_or_app. left. assumption. }
    apply in_app_or in Hin. destruct Hin; [contradiction | assumption]. }
  assert (HbU : In b U).
  { assert (Hin : In b (S ++ U)).
    { apply (Permutation_in _ (Permutation_trans HT (Permutation_sym HS))).
      apply in_or_app. left. assumption. }
    apply in_app_or in Hin. destruct Hin; [contradiction | assumption]. }
  apply (index_lt_asym a b); [apply HcrossS | apply HcrossT]; assumption.
Qed.

Lemma selection_unique (data : object) (k : Z) (S T : list string) :
  selection data k S -> selection data k T -> S = T.
Proof.
  intros [U [HS [HlS [HsS HcS]]]] [V [HT [HlT [HsT HcT]]]].
  apply sorted_Permutation_eq; [assumption | assumption |].
  apply NoDup_Permutation; [apply sorted_NoDup; assumption
                           | apply sorted_NoDup; assumption |].
  intros x. split; intros Hin.
  - apply (selection_incl (share_keys data) S U T V); try assumption;
      [apply sorted_NoDup; assumption | lia].
  - apply (selection_incl (share_keys data) T V S U); try assumption;
      [apply sorted_NoDup; assumption | lia].
Qed.

(** The claim as it stands fails for indices that a double does not hold:
    "9007199254740993" denotes 2^53 + 1 and "9007199254740992" denotes
    2^53, both parse to the Number 2^53, the sort leaves them in the order
    of the request, and with [k = 1] the share of the larger index is
    used. *)
Lemma smallest_index_counterexample :
  get bigIndices "keys" = Some (Keys 2 1) /\
  share_keys bigIndices = ["9007199254740993"; "9007199254740992"] /\
  parseValueBigInt (Num 10) "9007199254740993" = Ok (2 ^ 53 + 1) /\
  parseValueBigInt (Num 10) "9007199254740992" = Ok (2 ^ 53) /\
  recoverSecret bigIndices = recover_from bigIndices ["9007199254740993"] /\
  recoverSecret bigIndices = Ok (mkRecovered [Num (2 ^ 53)] [5] 5) /\
  recover_from bigIndices ["9007199254740992"]
  = Ok (mkRecovered [Num (2 ^ 53)] [7] 7) /\
  recoverSecret bigIndices <> recover_from bigIndices ["9007199254740992"].
Proof.
  repeat split; try (vm_compute; reflexivity).
  vm_compute. discriminate.
Qed.

(** C6: when the share names parse to pairwise distinct positive integers
    below 2^53 and the request has at least [k] shares, [recoverSecret]
    uses exactly the [k] shares with the numerically smallest indices, in
    ascending order: there is one list of [k] share names in strictly
    ascending order of index such that every share left out has a larger
    index than every share in it, and the outcome of [recoverSecret] is the
    recovery from the shares of this list. *)
Theorem recoverSecret_selects_smallest_indices (data : object) (n k : Z) :
  get data "keys" = Some (Keys n k) ->
  Forall indexed (share_keys data) ->
  NoDup (map (fun key => parseInt key 0) (share_keys data)) ->
  0 <= k <= Z.of_nat (List.length (share_keys data)) ->
  exists selected,
    selection data k selected /\
    (forall selected', selection data k selected' -> selected' = selected) /\
    recoverSecret data = recover_from data selected.
Proof.
  intros Hkeys Hidx Hnd Hk.
  pose proof (indices_selection data k Hidx Hnd Hk) as Hsel.
  exists (indices data (Some k)). split; [exact Hsel |]. split.
  - intros selected' Hsel'. apply (selection_unique data k); assumption.
  - apply (recoverSecret_recover_from data n k Hkeys).
Qed.

Lemma recoverSecret_selects_smallest_indices_witness :
  exists selected,
    selection sampleData 3 selected /\
    (forall selected', selection sampleData 3 selected' -> selected' = selected) /\
    recoverSecret sampleData = recover_from sampleData selected.
Proof.
  apply (recoverSecret_selects_smallest_indices sampleData 4 3).
  - reflexivity.
  - repeat (constructor;
              [eexists; split;
               [reflexivity | vm_compute; split; [discriminate | reflexivity]] |]).
    constructor.
  - repeat (constructor; [simpl; intuition discriminate |]). constructor.
  - simpl. lia.
Defined.

(** C7: a selected share whose value has a digit that is not below its
    base is no failure: in the first request of the repository with the
    base-2 value "112" for share 2, [recoverSecret] decodes that value to
    8 and reports the secret 0 of the points (1,4), (2,8), (3,12). *)
Theorem recoverSecret_accepts_digit_above_base :
  get overBase "keys" = Some (Keys 4 3) /\
  selection overBase 3 ["1"; "2"; "3"] /\
  get overBase "2" = Some (Share "2" "112") /\
  ~ Forall (valid_for (Num 2)) (list_ascii_of_string "112") /\
  recoverSecret overBase = Ok (mkRecovered [Num 1; Num 2; Num 3] [4; 8; 12] 0).
Proof.
  split; [reflexivity |]. split.
  - exists ["6"]. split; [reflexivity |]. split; [reflexivity |]. split.
    + repeat (constructor; [repeat constructor; vm_compute; reflexivity |]).
      constructor.
    + intros a b Ha Hb. simpl in Ha, Hb.
      destruct Hb as [<- | []].
      destruct Ha as [<- | [<- | [<- | []]]]; vm_compute; reflexivity.
  - split; [reflexivity |]. split; [| vm_compute; reflexivity].
    intros H. inversion H as [| ? ? _ H1]; subst.
    inversion H1 as [| ? ? _ H2]; subst.
    inversion H2 as [| ? ? [d [Hd Hlt]] _]; subst.
    vm_compute in Hd. injection Hd as <-. lia.
Qed.

(* ------------------------------------------------------------------ *)
(** ** recoverSecret: a character outside the alphabet *)






(* ================================================================== *)
(** * Properties of the Number variants *)

(** ** NaN in the arithmetic *)

Lemma fmul_nan_l (x : float) : fmul fnan x = fnan.
Proof. reflexivity. Qed.

Lemma fmul_nan_r (x : float) : fmul x fnan = fnan.
Proof. destruct x; reflexivity. Qed.

Lemma fadd_nan_l (x : float) : fadd fnan x = fnan.
Proof. reflexivity. Qed.

Lemma fadd_nan_r (x : float) : fadd x fnan = fnan.
Proof. destruct x; reflexivity. Qed.

(** ** baseToDecimal *)

Lemma baseToDecimal_loop_valid (base : Number) (s : string) :
  Forall (valid_for base) (list_ascii_of_string s) ->
  forall res, exists v,
    Solver.baseToDecimal_loop base (toLowerCase s) res = Returned v.
Proof.
  induction s as [| c rest IH]; cbn [list_ascii_of_string]; intros H res.
  - exists res. reflexivity.
  - inversion H as [| ? ? [d [Hd Hlt]] Hrest]; subst.
    cbn [toLowerCase Solver.baseToDecimal_loop].
    rewrite indexOf_digits_lower, Hd.
    pose proof (digit_value_range c d Hd) as Hrange.
    destruct (Z.eqb_spec d (-1)); [lia |].
    assert (Hge : match base with Num b => b <=? d | NaN => false end = false).
    { destruct base as [| b]; [reflexivity |]. apply Z.leb_gt. assumption. }
    rewrite Hge. cbn [orb]. apply IH. assumption.
Qed.

(** X16: [baseToDecimal] returns a number for every string whose
    characters are all digits below the base; it throws nothing then. *)
Theorem baseToDecimal_accepts_valid (value : string) (base : Number) :
  Forall (valid_for base) (list_ascii_of_string value) ->
  exists v, Solver.baseToDecimal value base = Returned v.
Proof.
  intros H. apply baseToDecimal_loop_valid. assumption.
Qed.

Lemma baseToDecimal_accepts_valid_witness :
  exists v, Solver.baseToDecimal "aed7015a346d635" (Num 15) = Returned v.
Proof.
  apply (baseToDecimal_accepts_valid "aed7015a346d635" (Num 15)).
  repeat (constructor; [eexists; split; [reflexivity | reflexivity] |]).
  constructor.
Defined.

Lemma baseToDecimal_loop_first_invalid (base : Number) (s1 : string)
    (c : ascii) (s2 : string) :
  Forall (valid_for base) (list_ascii_of_string s1) ->
  ~ valid_for base c ->
  forall res,
    Solver.baseToDecimal_loop base (toLowerCase (s1 ++ String c s2)) res
    = Thrown (Error_invalid_digit (lower_char c) base).
Proof.
  intros H1 Hc. induction s1 as [| c1 rest IH]; intros res;
    cbn [String.append toLowerCase Solver.baseToDecimal_loop].
  - rewrite indexOf_digits_lower.
    destruct (digit_value c) as [d |] eqn:Hd; [| reflexivity].
    pose proof (digit_value_range c d Hd) as Hrange.
    destruct (Z.eqb_spec d (-1)); [lia |]. cbn [orb].
    destruct base as [| b].
    + exfalso. apply Hc. exists d. split; [assumption | exact I].
    + destruct (Z.leb_spec b d) as [Hle | Hgt]; [reflexivity |].
      exfalso. apply Hc. exists d. split; assumption.
  - cbn [list_ascii_of_string] in H1.
    inversion H1 as [| ? ? [d [Hd Hlt]] Hrest]; subst.
    rewrite indexOf_digits_lower, Hd.
    pose proof (digit_value_range c1 d Hd) as Hrange.
    destruct (Z.eqb_spec d (-1)); [lia |].
    assert (Hge : match base with Num b => b <=? d | NaN => false end = false).
    { destruct base as [| b]; [reflexivity |]. apply Z.leb_gt. assumption. }
    rewrite Hge. cbn [orb]. apply IH. assumption.
Qed.

(** X17: [baseToDecimal] checks every digit against the base: at the first
    character that is outside the alphabet or whose digit value is not
    below the base it throws the invalid-digit error for that character. *)
Theorem baseToDecimal_rejects_first_invalid (base : Number) (s1 : string)
    (c : ascii) (s2 : string) :
  Forall (valid_for base) (list_ascii_of_string s1) ->
  ~ valid_for base c ->
  Solver.baseToDecimal (s1 ++ String c s2) base
  = Thrown (Error_invalid_digit (lower_char c) base).
Proof.
  intros H1 Hc. apply baseToDecimal_loop_first_invalid; assumption.
Qed.

Lemma baseToDecimal_rejects_first_invalid_witness :
  Solver.baseToDecimal "g" (Num 16) = Thrown (Error_invalid_digit "g"%char (Num 16)) /\
  Solver.baseToDecimal "1F2" (Num 10) = Thrown (Error_invalid_digit "f"%char (Num 10)).
Proof.
  split.
  - apply (baseToDecimal_rejects_first_invalid (Num 16) "" "g"%char "").
    + constructor.
    + intros [d [Hd Hlt]]. injection Hd as <-. lia.
  - apply (baseToDecimal_rejects_first_invalid (Num 10) "1" "F"%char "2").
    + repeat constructor. exists 1. split; [reflexivity | lia].
    + intros [d [Hd Hlt]]. injection Hd as <-. lia.
Defined.

Lemma baseToDecimal_loop_nan (s : string) :
  Forall has_digit (list_ascii_of_string s) ->
  Solver.baseToDecimal_loop NaN (toLowerCase s) fnan = Returned fnan.
Proof.
  induction s as [| c rest IH]; cbn [list_ascii_of_string]; intros H.
  - reflexivity.
  - inversion H as [| ? ? [d Hd] Hrest]; subst.
    cbn [toLowerCase Solver.baseToDecimal_loop].
    rewrite indexOf_digits_lower, Hd.
    pose proof (digit_value_range c d Hd) as Hrange.
    destruct (Z.eqb_spec d (-1)); [lia |]. cbn [orb to_float].
    rewrite fmul_nan_l, fadd_nan_l. apply IH. assumption.
Qed.

(** X18: a base that is NaN (a [base] string that is not a number) is not
    rejected: every non-empty string of alphabet characters converts to
    NaN. *)
Theorem baseToDecimal_NaN_base (value : string) :
  value <> EmptyString ->
  Forall has_digit (list_ascii_of_string value) ->
  Solver.baseToDecimal value NaN = Returned fnan.
Proof.
  intros Hne H. destruct value as [| c rest]; [contradiction |].
  cbn [list_ascii_of_string] in H.
  inversion H as [| ? ? [d Hd] Hrest]; subst.
  unfold Solver.baseToDecimal.
  cbn [toLowerCase Solver.baseToDecimal_loop].
  rewrite indexOf_digits_lower, Hd.
  pose proof (digit_value_range c d Hd) as Hrange.
  destruct (Z.eqb_spec d (-1)); [lia |]. cbn [orb to_float].
  rewrite fmul_nan_r, fadd_nan_l. apply baseToDecimal_loop_nan. assumption.
Qed.

Lemma baseToDecimal_NaN_base_witness :
  Solver.baseToDecimal "12z" (parseInt "ten" 0) = Returned fnan.
Proof.
  apply (baseToDecimal_NaN_base "12z").
  - discriminate.
  - repeat (constructor; [eexists; reflexivity |]). constructor.
Defined.

(** ** lagrangeInterpolation *)

Lemma secret_loop_nan (points : list point) (rest : list point) :
  forall i, Solver.secret_loop points i rest fnan = fnan.
Proof.
  induction rest as [| pt rest IH]; intros i; cbn [Solver.secret_loop].
  - reflexivity.
  - rewrite fadd_nan_l. apply IH.
Qed.

(** X19: when the y value of one of the points is NaN, the secret that
    [lagrangeInterpolation] returns is NaN. *)
Theorem lagrangeInterpolation_NaN (points : list point) (pt : point) :
  In pt points -> py pt = fnan ->
  Solver.lagrangeInterpolation points = fnan.
Proof.
  intros Hin Hy. unfold Solver.lagrangeInterpolation.
  assert (H : forall rest i secret,
             In pt rest -> Solver.secret_loop points i rest secret = fnan).
  { induction rest as [| q rest IH]; intros i secret Hq; [destruct Hq |].
    cbn [Solver.secret_loop]. destruct Hq as [-> | Hq].
    - rewrite Hy, fmul_nan_l, fadd_nan_r. apply secret_loop_nan.
    - apply IH. assumption. }
  rewrite (H points 0%nat fzero Hin). reflexivity.
Qed.

Lemma lagrangeInterpolation_NaN_witness :
  Solver.lagrangeInterpolation
    [mkPoint (of_int 1) (of_int 4); mkPoint (of_int 2) fnan;
     mkPoint (of_int 3) (of_int 12)] = fnan.
Proof.
  apply (lagrangeInterpolation_NaN _ (mkPoint (of_int 2) fnan)).
  - right. left. reflexivity.
  - reflexivity.
Defined.

(** ** solveShamirSecret *)

Lemma in_loop_range (n i : Z) :
  In i (Solver.loop_range (Some n)) <-> 1 <= i <= n.
Proof.
  unfold Solver.loop_range. rewrite in_map_iff. split.
  - intros [j [<- Hj]]. apply in_seq in Hj. lia.
  - intros Hi. exists (Z.to_nat i). split; [lia |]. apply in_seq. lia.
Qed.

Lemma collect_ext (data data' : object) (range : list Z) :
  (forall i, In i range -> Solver.point_of data i = Solver.point_of data' i) ->
  forall points, Solver.collect data range points = Solver.collect data' range points.
Proof.
  induction range as [| i rest IH]; intros H points; cbn [Solver.collect].
  - reflexivity.
  - rewrite (H i (or_introl eq_refl)).
    destruct (Solver.point_of data' i);
      apply IH; intros j Hj; apply H; right; assumption.
Qed.

Lemma solveShamirSecret_ext (data data' : object) (n k : Z) :
  get data "keys" = Some (Keys n k) ->
  get data' "keys" = Some (Keys n k) ->
  (forall i, 1 <= i <= n -> Solver.point_of data i = Solver.point_of data' i) ->
  Solver.solveShamirSecret data = Solver.solveShamirSecret data'.
Proof.
  intros Hk Hk' H. unfold Solver.solveShamirSecret, keys_of.
  rewrite Hk, Hk'.
  rewrite (collect_ext data data' (Solver.loop_range (Some n))); [reflexivity |].
  intros i Hi. apply H. apply in_loop_range. assumption.
Qed.

(** X20: [solveShamirSecret] looks only at the shares named 1 to [n]:
    two requests with the same [keys] that agree on these shares have the
    same outcome, whatever other shares they hold. *)
Theorem solveShamirSecret_reads_1_to_n (data data' : object) (n k : Z) :
  get data "keys" = Some (Keys n k) ->
  get data' "keys" = Some (Keys n k) ->
  (forall i, 1 <= i <= n -> get data (toString i) = get data' (toString i)) ->
  Solver.solveShamirSecret data = Solver.solveShamirSecret data'.
Proof.
  intros Hk Hk' H. apply (solveShamirSecret_ext data data' n k Hk Hk').
  intros i Hi. unfold Solver.point_of. rewrite (H i Hi). reflexivity.
Qed.

Lemma solveShamirSecret_reads_1_to_n_witness :
  Solver.solveShamirSecret sampleData
  = Solver.solveShamirSecret
      [ ("1", Share "10" "4"); ("2", Share "2" "111"); ("3", Share "10" "12");
        ("keys", Keys 4 3) ].
Proof.
  apply (solveShamirSecret_reads_1_to_n sampleData _ 4 3).
  - reflexivity.
  - reflexivity.
  - intros i Hi.
    assert (Hc : i = 1 \/ i = 2 \/ i = 3 \/ i = 4) by lia.
    destruct Hc as [-> | [-> | [-> | ->]]]; reflexivity.
Defined.

(** X21: a share whose value does not convert is skipped, and the
    outcome is that of the request without the share: the conversion error
    does not reach the caller. *)
Theorem solveShamirSecret_skips_unconvertible (data data' : object) (n k i : Z)
    (base value : string) (e : js_error) :
  get data "keys" = Some (Keys n k) ->
  get data' "keys" = Some (Keys n k) ->
  get data (toString i) = Some (Share base value) ->
  Solver.baseToDecimal value (parseInt base 0) = Thrown e ->
  get data' (toString i) = None ->
  (forall j, 1 <= j <= n -> j <> i ->
     get data (toString j) = get data' (toString j)) ->
  Solver.solveShamirSecret data = Solver.solveShamirSecret data'.
Proof.
  intros Hk Hk' Hshare Herr Hnone Hothers.
  apply (solveShamirSecret_ext data data' n k Hk Hk').
  intros j Hj. unfold Solver.point_of.
  destruct (Z.eq_dec j i) as [-> | Hne].
  - rewrite Hshare, Herr, Hnone. reflexivity.
  - rewrite (Hothers j Hj Hne). reflexivity.
Qed.

Lemma solveShamirSecret_skips_unconvertible_witness :
  Solver.solveShamirSecret
    [ ("1", Share "10" "4"); ("2", Share "2" "111"); ("3", Share "10" "12");
      ("4", Share "2" "102"); ("5", Share "10" "28"); ("keys", Keys 5 3) ]
  = Solver.solveShamirSecret
      [ ("1", Share "10" "4"); ("2", Share "2" "111"); ("3", Share "10" "12");
        ("5", Share "10" "28"); ("keys", Keys 5 3) ].
Proof.
  apply (solveShamirSecret_skips_unconvertible _ _ 5 3 4 "2" "102"
           (Error_invalid_digit "2"%char (Num 2))).
  - reflexivity.
  - reflexivity.
  - reflexivity.
  - reflexivity.
  - reflexivity.
  - intros j Hj Hne.
    assert (Hc : j = 1 \/ j = 2 \/ j = 3 \/ j = 5) by lia.
    destruct Hc as [-> | [-> | [-> | ->]]]; reflexivity.
Defined.

Lemma length_collect (data : object) (range : list Z) :
  forall points,
    List.length (Solver.collect data range points)
    = (List.length points + List.length (filter (has_point data) range))%nat.
Proof.
  induction range as [| i rest IH]; intros points;
    cbn [Solver.collect filter].
  - cbn [List.length]. lia.
  - unfold has_point at 1. destruct (Solver.point_of data i) as [pt |].
    + rewrite IH, length_app. cbn [List.length]. lia.
    + apply IH.
Qed.

(** X22: [solveShamirSecret] throws its not-enough-points error exactly
    when fewer than [k] of the shares 1 to [n] exist with a value that
    converts; otherwise it returns a number.  [runTestCase] returns null
    in the first case and that number in the second. *)
Theorem solveShamirSecret_outcome (data : object) (n k : Z) :
  get data "keys" = Some (Keys n k) ->
  let have := List.length (filter (has_point data) (Solver.loop_range (Some n))) in
  (Z.of_nat have < k ->
   Solver.solveShamirSecret data = Thrown (Error_not_enough_points k have) /\
   Solver.runTestCase data = None) /\
  (k <= Z.of_nat have ->
   exists secret,
     Solver.solveShamirSecret data = Returned secret /\
     Solver.runTestCase data = Some secret).
Proof.
  intros Hk have.
  assert (Hlen : List.length (Solver.collect data (Solver.loop_range (Some n)) [])
                 = have).
  { rewrite length_collect. reflexivity. }
  unfold Solver.runTestCase, Solver.solveShamirSecret, keys_of.
  rewrite Hk, Hlen. cbn [length_below]. split; intros H.
  - destruct (Z.ltb_spec (Z.of_nat have) k); [| lia]. split; reflexivity.
  - destruct (Z.ltb_spec (Z.of_nat have) k); [lia |]. eauto.
Qed.

Lemma solveShamirSecret_outcome_witness :
  Solver.solveShamirSecret twoShares = Thrown (Error_not_enough_points 3 2) /\
  Solver.runTestCase twoShares = None.
Proof.
  apply (solveShamirSecret_outcome twoShares 4 3); [reflexivity |].
  vm_compute. reflexivity.
Defined.

(** ** decodeShares, lagrangeInterpolationAtZero and run (test.js) *)

Lemma test_decode_loop (json : object) (keys : list string) :
  forall shares,
    Test.decode_loop json keys shares
    = shares ++ map (Test.decode_property json)
                  (filter (fun key => negb (String.eqb key "keys")) keys).
Proof.
  induction keys as [| key rest IH]; intros shares;
    cbn [Test.decode_loop filter].
  - cbn [map]. rewrite app_nil_r. reflexivity.
  - destruct (String.eqb key "keys"); cbn [negb].
    + apply IH.
    + rewrite IH, <- app_assoc. reflexivity.
Qed.

Lemma test_decodeShares (json : object) :
  Test.decodeShares json = map (Test.decode_property json) (share_keys json).
Proof.
  unfold Test.decodeShares. rewrite test_decode_loop. reflexivity.
Qed.

Lemma test_basis_returns (shares : list point) (i : nat) (xi : float) :
  forall (count j : nat) (li : float),
    (j + count <= List.length shares)%nat ->
    exists li', Test.basis_loop shares i xi j count li = Returned li'.
Proof.
  induction count as [| count IH]; intros j li Hlen; cbn [Test.basis_loop].
  - eauto.
  - destruct (Nat.eqb i j); [apply IH; lia |].
    destruct (nth_error shares j) as [pj |] eqn:Hj.
    + apply IH. lia.
    + apply nth_error_None in Hj. lia.
Qed.

Lemma test_secret_returns (shares : list point) (k : nat) :
  (k <= List.length shares)%nat ->
  forall (count i : nat) (secret : float),
    (i + count <= List.length shares)%nat ->
    exists secret', Test.secret_loop shares k i count secret = Returned secret'.
Proof.
  intros Hk. induction count as [| count IH]; intros i secret Hlen;
    cbn [Test.secret_loop].
  - eauto.
  - destruct (nth_error shares i) as [pt |] eqn:Hi.
    + destruct (test_basis_returns shares i (px pt) k 0%nat (of_int 1)
                  ltac:(lia)) as [li Hli].
      rewrite Hli. apply IH. lia.
    + apply nth_error_None in Hi. lia.
Qed.

Lemma slice0_length {A : Type} (l : list A) (k : Z) :
  k <= Z.of_nat (List.length l) ->
  (Z.to_nat k <= List.length (slice0 l (Some k)))%nat.
Proof.
  intros Hk. unfold slice0. destruct (Z.ltb_spec k 0); [lia |].
  rewrite Z.min_l, length_firstn by lia. lia.
Qed.

Lemma test_atZero_returns (shares : list point) (k : Z) :
  k <= Z.of_nat (List.length shares) ->
  exists secret,
    Test.lagrangeInterpolationAtZero (slice0 shares (Some k)) (Some k)
    = Returned secret.
Proof.
  intros Hk. unfold Test.lagrangeInterpolationAtZero.
  pose proof (slice0_length shares k Hk) as Hlen.
  destruct (test_secret_returns (slice0 shares (Some k)) (Z.to_nat k) Hlen
              (Z.to_nat k) 0%nat fzero ltac:(lia)) as [s Hs].
  rewrite Hs. eauto.
Qed.

(** X23: [run] of test.js reports too few shares exactly when the request
    has fewer than [k] share properties, whether their values can be
    decoded or not; otherwise it prints a secret, and it throws in neither
    case. *)
Theorem test_run_outcome (input : object) (n k : Z) :
  get input "keys" = Some (Keys n k) ->
  (Z.of_nat (List.length (share_keys input)) < k ->
   Test.run input = Returned None) /\
  (k <= Z.of_nat (List.length (share_keys input)) ->
   exists secret, Test.run input = Returned (Some secret)).
Proof.
  intros Hk. unfold Test.run, keys_of. rewrite Hk.
  rewrite test_decodeShares, length_map. cbn [length_below]. split; intros H.
  - destruct (Z.ltb_spec (Z.of_nat (List.length (share_keys input))) k);
      [reflexivity | lia].
  - destruct (Z.ltb_spec (Z.of_nat (List.length (share_keys input))) k);
      [lia |].
    destruct (test_atZero_returns
                (map (Test.decode_property input) (share_keys input)) k)
      as [secret Hs].
    + rewrite length_map. assumption.
    + rewrite Hs. eauto.
Qed.

Lemma test_run_outcome_witness :
  Test.run twoShares = Returned None /\
  exists secret, Test.run damagedData = Returned (Some secret).
Proof.
  split.
  - apply (test_run_outcome twoShares 4 3); [reflexivity | simpl; lia].
  - apply (test_run_outcome damagedData 4 3); [reflexivity | simpl; lia].
Defined.

Lemma test_secret_nan (shares : list point) (k : nat) :
  (k <= List.length shares)%nat ->
  forall (count i : nat),
    (i + count <= List.length shares)%nat ->
    Test.secret_loop shares k i count fnan = Returned fnan.
Proof.
  intros Hk. induction count as [| count IH]; intros i Hlen;
    cbn [Test.secret_loop].
  - reflexivity.
  - destruct (nth_error shares i) as [pt |] eqn:Hi.
    + destruct (test_basis_returns shares i (px pt) k 0%nat (of_int 1)
                  ltac:(lia)) as [li Hli].
      rewrite Hli, fadd_nan_l. apply IH. lia.
    + apply nth_error_None in Hi. lia.
Qed.

Lemma test_secret_hits_nan (shares : list point) (k : nat) (idx : nat) (pt : point) :
  (k <= List.length shares)%nat ->
  nth_error shares idx = Some pt -> py pt = fnan ->
  forall (count i : nat) (secret : float),
    (i + count <= List.length shares)%nat ->
    (i <= idx < i + count)%nat ->
    Test.secret_loop shares k i count secret = Returned fnan.
Proof.
  intros Hk Hidx Hy. induction count as [| count IH]; intros i secret Hlen Hr;
    [lia |].
  cbn [Test.secret_loop].
  destruct (nth_error shares i) as [q |] eqn:Hi;
    [| apply nth_error_None in Hi; lia].
  destruct (test_basis_returns shares i (px q) k 0%nat (of_int 1) ltac:(lia))
    as [li Hli].
  rewrite Hli.
  destruct (Nat.eq_dec i idx) as [-> | Hne].
  - assert (q = pt) by congruence. subst q.
    rewrite Hy, fmul_nan_l, fadd_nan_r.
    apply test_secret_nan; [assumption | lia].
  - apply IH; lia.
Qed.

(** X24: when one of the first [k] share properties of the request has a
    value that [parseInt] cannot read in its base, a base that is not a
    number or is an integer below 2^53 in magnitude, [run] of test.js does
    not fail: the secret it prints is NaN. *)
Theorem test_run_NaN_share (input : object) (n k : Z) (idx : nat)
    (key base value : string) :
  get input "keys" = Some (Keys n k) ->
  k <= Z.of_nat (List.length (share_keys input)) ->
  nth_error (share_keys input) idx = Some key ->
  Z.of_nat idx < k ->
  get input key = Some (Share base value) ->
  match parseInt base 10 with Num b => Z.abs b < 2 ^ 53 | NaN => True end ->
  parseInt_radix value (parseInt base 10) = NaN ->
  Test.run input = Returned (Some fnan).
Proof.
  intros Hk Hlen Hidx Hlt Hshare Hbase Hnan.
  unfold Test.run, keys_of. rewrite Hk.
  rewrite test_decodeShares, length_map. cbn [length_below].
  destruct (Z.ltb_spec (Z.of_nat (List.length (share_keys input))) k); [lia |].
  set (shares := map (Test.decode_property input) (share_keys input)).
  assert (Hsel : slice0 shares (Some k) = firstn (Z.to_nat k) shares).
  { unfold slice0. destruct (Z.ltb_spec k 0); [lia |].
    rewrite Z.min_l; [reflexivity |]. unfold shares. rewrite length_map. lia. }
  assert (Hsl : List.length (firstn (Z.to_nat k) shares) = Z.to_nat k).
  { rewrite length_firstn. unfold shares. rewrite length_map. lia. }
  unfold Test.lagrangeInterpolationAtZero. rewrite Hsel.
  rewrite (test_secret_hits_nan (firstn (Z.to_nat k) shares) (Z.to_nat k) idx
             (Test.decode_property input key)).
  - reflexivity.
  - lia.
  - rewrite nth_error_firstn.
    destruct (Nat.ltb_spec idx (Z.to_nat k)); [| lia].
    unfold shares. rewrite nth_error_map, Hidx. reflexivity.
  - unfold Test.decode_property. rewrite Hshare, Hnan. reflexivity.
  - lia.
  - lia.
Qed.

Lemma test_run_NaN_share_witness :
  Test.run
    [ ("1", Share "10" "4"); ("2", Share "2" "211"); ("3", Share "10" "12");
      ("keys", Keys 3 3) ]
  = Returned (Some fnan).
Proof.
  apply (test_run_NaN_share _ 3 3 1 "2" "2" "211").
  - reflexivity.
  - simpl. lia.
  - reflexivity.
  - lia.
  - reflexivity.
  - vm_compute. reflexivity.
  - reflexivity.
Defined.

(** ** decodeShares and run of the second variant (shamir_solver.js) *)

Lemma enhanced_decode_property_sound (json : object) (key : string) (pt : point) :
  Enhanced.decode_property json key = Some pt ->
  exists base value,
    get json key = Some (Share base value) /\
    match parseInt base 10 with Num b => 2 <= b <= 36 | NaN => True end /\
    px pt = to_float (parseInt key 10) /\
    py pt = to_float (parseInt_radix value (parseInt base 10)) /\
    isNaN (py pt) = false.
Proof.
  unfold Enhanced.decode_property.
  destruct (get json key) as [[n k | base value] |]; try discriminate.
  destruct (parseInt base 10) as [| b] eqn:Hb.
  - destruct (isNaN (to_float (parseInt_radix value NaN))) eqn:Hnan;
      [discriminate |].
    intros [= <-]. exists base, value. rewrite Hb. cbn [px py]. auto.
  - destruct (Z.ltb_spec b 2); [discriminate |].
    destruct (Z.ltb_spec 36 b); [discriminate |]. cbn [orb].
    destruct (isNaN (to_float (parseInt_radix value (Num b)))) eqn:Hnan;
      [discriminate |].
    intros [= <-]. exists base, value. rewrite Hb. cbn [px py].
    repeat split; try assumption; lia.
Qed.

Lemma enhanced_decode_loop_sound (json : object) (P : point -> Prop)
    (keys : list string) :
  (forall key pt, In key keys -> String.eqb key "keys" = false ->
     Enhanced.decode_property json key = Some pt -> P pt) ->
  forall shares, Forall P shares -> Forall P (Enhanced.decode_loop json keys shares).
Proof.
  induction keys as [| key rest IH]; intros H shares Hs;
    cbn [Enhanced.decode_loop].
  - assumption.
  - assert (Hrest : forall key' pt, In key' rest -> String.eqb key' "keys" = false ->
              Enhanced.decode_property json key' = Some pt -> P pt).
    { intros key' pt Hin. apply H. right. assumption. }
    destruct (String.eqb key "keys") eqn:Hk; [apply IH; assumption |].
    destruct (Enhanced.decode_property json key) as [pt |] eqn:Hd;
      [| apply IH; assumption].
    apply IH; [assumption |]. apply Forall_app. split; [assumption |].
    constructor; [| constructor].
    apply (H key pt); [left; reflexivity | assumption | assumption].
Qed.

(** X25: every share [decodeShares] of the second variant produces comes
    from a share property of the request whose base, when it is a number,
    lies in [2,36] and whose value [parseInt] reads as a number in that
    base: a base outside the range and a value that reads as NaN are never
    passed on. *)
Theorem enhanced_decodeShares_sound (json : object) :
  Forall
    (fun pt =>
       exists key base value,
         In key (share_keys json) /\
         get json key = Some (Share base value) /\
         match parseInt base 10 with Num b => 2 <= b <= 36 | NaN => True end /\
         px pt = to_float (parseInt key 10) /\
         py pt = to_float (parseInt_radix value (parseInt base 10)) /\
         isNaN (py pt) = false)
    (Enhanced.decodeShares json).
Proof.
  unfold Enhanced.decodeShares.
  apply enhanced_decode_loop_sound; [| constructor].
  intros key pt Hin Hk Hd.
  destruct (enhanced_decode_property_sound json key pt Hd)
    as [base [value H]].
  exists key, base, value. split; [| exact H].
  unfold share_keys. apply filter_In. split; [assumption |].
  rewrite Hk. reflexivity.
Qed.

(** X26: [run] of the second variant returns null exactly when fewer than
    [k] shares pass [decodeShares]; otherwise it returns a secret, and it
    throws in neither case. *)
Theorem enhanced_run_outcome (input : object) (n k : Z) :
  get input "keys" = Some (Keys n k) ->
  (Z.of_nat (List.length (Enhanced.decodeShares input)) < k ->
   Enhanced.run input = Returned None) /\
  (k <= Z.of_nat (List.length (Enhanced.decodeShares input)) ->
   exists secret, Enhanced.run input = Returned (Some secret)).
Proof.
  intros Hk. unfold Enhanced.run, keys_of. rewrite Hk.
  cbn [length_below]. split; intros H.
  - destruct (Z.ltb_spec (Z.of_nat (List.length (Enhanced.decodeShares input))) k);
      [reflexivity | lia].
  - destruct (Z.ltb_spec (Z.of_nat (List.length (Enhanced.decodeShares input))) k);
      [lia |].
    destruct (test_atZero_returns (Enhanced.decodeShares input) k H)
      as [secret Hs].
    unfold Enhanced.lagrangeInterpolationAtZero. rewrite Hs. eauto.
Qed.

Lemma enhanced_run_outcome_witness :
  Enhanced.run
    [ ("1", Share "10" "4"); ("2", Share "2" "211"); ("3", Share "10" "12");
      ("keys", Keys 3 3) ]
  = Returned None.
Proof.
  apply (enhanced_run_outcome _ 3 3); [reflexivity |].
  vm_compute. reflexivity.
Defined.

(** ** Values with an invalid digit in test.js *)

Lemma nearest_double_small (v : Z) :
  0 <= v < 2 ^ 53 -> nearest_double v = v.
Proof.
  intros Hv. unfold nearest_double.
  destruct (Z.leb_spec (Z.log2 v - 52) 0) as [Hle | Hgt]; [reflexivity |].
  exfalso. destruct (Z.eq_dec v 0) as [-> | Hv0]; [discriminate Hgt |].
  assert (Z.log2 v < 53) by (apply Z.log2_lt_pow2; lia). lia.
Qed.

Lemma radix_digit_spec (R : Z) (c : ascii) :
  R <= 36 ->
  radix_digit R c =
  match digit_value c with
  | Some d => if d <? R then Some d else None
  | None => None
  end.
Proof.
  intros HR. unfold radix_digit, digit_value.
  destruct ((48 <=? code c) && (code c <=? 57)); [reflexivity |].
  destruct ((97 <=? code c) && (code c <=? 122)); [reflexivity |].
  destruct ((65 <=? code c) && (code c <=? 90)); [reflexivity |].
  destruct (Z.ltb_spec 36 R); [lia | reflexivity].
Qed.

Lemma parse_digits_prefix (b : Z) (s1 : string) (c : ascii) (s2 : string) :
  b <= 36 ->
  ~ valid_for (Num b) c ->
  forall ds acc,
    Forall2 (fun ch d => digit_value ch = Some d /\ d < b)
      (list_ascii_of_string s1) ds ->
    parse_digits b (s1 ++ String c s2) (Some acc)
    = Some (fold_left (fun r d => r * b + d) ds acc).
Proof.
  intros Hb Hc. induction s1 as [| c1 rest IH]; intros ds acc H;
    cbn [list_ascii_of_string] in H; inversion H; subst;
    cbn [String.append parse_digits fold_left].
  - rewrite radix_digit_spec by assumption.
    destruct (digit_value c) as [d |] eqn:Hd; [| reflexivity].
    destruct (Z.ltb_spec d b); [| reflexivity].
    exfalso. apply Hc. exists d. split; assumption.
  - destruct H2 as [Hd Hlt]. rewrite radix_digit_spec, Hd by assumption.
    destruct (Z.ltb_spec y b); [| lia]. apply IH. assumption.
Qed.

(** A string that starts with a digit has no white space or sign for
    [parseInt] to remove. *)
Lemma parseInt_digit_first (c : ascii) (rest : string) (radix d : Z) :
  digit_value c = Some d ->
  2 <= radix <= 36 -> radix <> 16 ->
  parseInt (String c rest) radix =
  match parse_digits radix (String c rest) None with
  | None => NaN
  | Some v => Num (1 * nearest_double v)
  end.
Proof.
  intros Hd Hr H16.
  assert (E0 : (radix =? 0) = false) by (apply Z.eqb_neq; lia).
  assert (E16 : (radix =? 16) = false) by (apply Z.eqb_neq; lia).
  assert (E2 : (radix <? 2) = false) by (apply Z.ltb_ge; lia).
  assert (E36 : (36 <? radix) = false) by (apply Z.ltb_ge; lia).
  destruct c as [[] [] [] [] [] [] [] []]; cbv in Hd; try discriminate Hd;
    unfold parseInt; cbn [trimStart];
    match goal with
    | |- context [isWhiteSpace ?ch] =>
        change (isWhiteSpace ch) with false; cbv iota
    end;
    rewrite E0, E16, E2, E36; reflexivity.
Qed.

(** X27: [decodeShares] of test.js does not reject a value that has an
    invalid digit after valid ones: [parseInt] stops there, and the share
    gets the number that the valid digits before it denote, when that
    number is below 2^53. *)
Theorem test_decode_reads_valid_prefix (json : object) (key base : string)
    (b : Z) (s1 : string) (c : ascii) (s2 : string) (ds : list Z) :
  get json key = Some (Share base (s1 ++ String c s2)) ->
  parseInt base 10 = Num b ->
  2 <= b <= 36 -> b <> 16 ->
  s1 <> EmptyString ->
  Forall2 (fun ch d => digit_value ch = Some d /\ d < b)
    (list_ascii_of_string s1) ds ->
  positional b ds < 2 ^ 53 ->
  ~ valid_for (Num b) c ->
  py (Test.decode_property json key) = of_int (positional b ds).
Proof.
  intros Hget Hbase Hb H16 Hne Hds Hsmall Hc.
  assert (Hnonneg : 0 <= positional b ds).
  { apply positional_nonneg; [lia |].
    clear - Hds. induction Hds as [| ch d cs ds' [Hd _] _ IH]; constructor;
      [pose proof (digit_value_range ch d Hd); lia | assumption]. }
  unfold Test.decode_property. rewrite Hget, Hbase. cbn [py].
  unfold parseInt_radix.
  assert (HT : ToInt32 b = b).
  { unfold ToInt32. rewrite Z.mod_small; lia. }
  rewrite HT.
  destruct s1 as [| c1 rest]; [contradiction |].
  cbn [list_ascii_of_string] in Hds.
  inversion Hds as [| ? d1 ? ds' [Hd1 Hlt1] Hrest]; subst.
  cbn [String.append].
  rewrite (parseInt_digit_first c1 _ b d1 Hd1 Hb H16).
  cbn [parse_digits]. rewrite radix_digit_spec, Hd1 by lia.
  destruct (Z.ltb_spec d1 b); [| lia].
  rewrite (parse_digits_prefix b rest c s2 ltac:(lia) Hc ds' d1 Hrest).
  cbn [to_float]. f_equal.
  rewrite Z.mul_1_l.
  change (fold_left (fun r d => r * b + d) ds' d1)
    with (fold_left (fun r d => r * b + d) ds' (0 * b + d1)).
  change (fold_left (fun r d => r * b + d) ds' (0 * b + d1))
    with (fold_left (fun r d => r * b + d) (d1 :: ds') 0).
  rewrite accumulate_positional, Z.mul_0_l, Z.add_0_l.
  apply nearest_double_small. lia.
Qed.

Lemma test_decode_reads_valid_prefix_witness :
  py (Test.decode_property damagedData "2") = of_int (positional 2 [1]).
Proof.
  apply (test_decode_reads_valid_prefix damagedData "2" "2" 2 "1" "?"%char "1" [1]).
  - reflexivity.
  - reflexivity.
  - lia.
  - lia.
  - discriminate.
  - repeat constructor.
  - simpl. lia.
  - intros [d [Hd _]]. discriminate Hd.
Defined.

(** ** Exact arithmetic below 2^53 *)

Lemma digits2_size (p : positive) : SpecFloat.digits2_pos p = Pos.size p.
Proof. induction p; simpl; congruence. Qed.

Lemma digits2_log2 (p : positive) :
  Z.pos (SpecFloat.digits2_pos p) = Z.log2 (Z.pos p) + 1.
Proof.
  rewrite digits2_size. destruct p; simpl; lia.
Qed.

Lemma iter_pos_nat {A : Type} (f : A -> A) (p : positive) :
  forall x, SpecFloat.iter_pos f p x = Nat.iter (Pos.to_nat p) f x.
Proof.
  induction p as [p IH | p IH |]; intros x; simpl SpecFloat.iter_pos.
  - rewrite !IH, Pos2Nat.inj_xI, <- Nat.iter_add, Nat.iter_succ_r.
    f_equal. lia.
  - rewrite !IH, Pos2Nat.inj_xO, <- Nat.iter_add. f_equal. lia.
  - reflexivity.
Qed.

Lemma shr_exact (k : nat) :
  forall c : positive,
    Nat.iter k SpecFloat.shr_1
      (SpecFloat.Build_shr_record (Z.pos c * 2 ^ Z.of_nat k) false false)
    = SpecFloat.Build_shr_record (Z.pos c) false false.
Proof.
  induction k as [| k IH]; intros c.
  - simpl. f_equal. lia.
  - rewrite Nat.iter_succ_r.
    assert (Hpos : 0 < Z.pos c * 2 ^ Z.of_nat k)
      by (apply Z.mul_pos_pos; [lia | apply Z.pow_pos_nonneg; lia]).
    replace (Z.pos c * 2 ^ Z.of_nat (S k))
      with (Z.pos (Z.to_pos (Z.pos c * 2 ^ Z.of_nat k))~0).
    + cbn [SpecFloat.shr_1 orb]. rewrite Z2Pos.id by assumption. apply IH.
    + rewrite Pos2Z.inj_xO, Z2Pos.id by assumption.
      rewrite Nat2Z.inj_succ, Z.pow_succ_r by lia. ring.
Qed.

(** Rounding a mantissa that is a 53-bit number times a power of two. *)
Lemma binary_round_aux_exact (c M : positive) (n e : Z) :
  Z.log2 (Z.pos c) = 52 -> 0 <= n -> Z.pos M = Z.pos c * 2 ^ n ->
  -1074 <= e + n <= 971 ->
  SpecFloat.binary_round_aux 53 1024 false (Z.pos M) e SpecFloat.loc_Exact
  = SpecFloat.S754_finite false c (e + n).
Proof.
  intros Hc Hn HM He.
  assert (HlM : Z.log2 (Z.pos M) = n + 52).
  { rewrite HM, Z.log2_mul_pow2 by lia. lia. }
  unfold SpecFloat.binary_round_aux.
  assert (Hfirst : SpecFloat.shr_fexp 53 1024 (Z.pos M) e SpecFloat.loc_Exact
                   = (SpecFloat.Build_shr_record (Z.pos c) false false, e + n)).
  { unfold SpecFloat.shr_fexp, SpecFloat.Zdigits2, SpecFloat.fexp, SpecFloat.emin.
    rewrite digits2_log2, HlM.
    replace (Z.max (n + 52 + 1 + e - 53) (3 - 1024 - 53) - e) with n by lia.
    cbn [SpecFloat.shr_record_of_loc]. unfold SpecFloat.shr.
    destruct n as [| k | k]; [| | lia].
    - f_equal; [| lia]. f_equal. lia.
    - f_equal. rewrite iter_pos_nat, HM, <- (positive_nat_Z k). apply shr_exact. }
  rewrite Hfirst. cbn [SpecFloat.shr_m SpecFloat.loc_of_shr_record SpecFloat.round_nearest_even].
  assert (Hsecond : SpecFloat.shr_fexp 53 1024 (Z.pos c) (e + n) SpecFloat.loc_Exact
                    = (SpecFloat.Build_shr_record (Z.pos c) false false, e + n)).
  { unfold SpecFloat.shr_fexp, SpecFloat.Zdigits2, SpecFloat.fexp, SpecFloat.emin.
    rewrite digits2_log2, Hc.
    replace (Z.max (52 + 1 + (e + n) - 53) (3 - 1024 - 53) - (e + n)) with 0 by lia.
    reflexivity. }
  rewrite Hsecond. cbn [SpecFloat.shr_m].
  destruct (Z.leb_spec (e + n) (1024 - 53)); [reflexivity | lia].
Qed.

Lemma iter_xO (d : positive) (m : positive) :
  Z.pos (Pos.iter xO m d) = Z.pos m * 2 ^ Z.pos d.
Proof.
  induction d as [| d IH] using Pos.peano_ind.
  - simpl. lia.
  - rewrite Pos.iter_succ, Pos2Z.inj_xO, IH, Pos2Z.inj_succ, Z.pow_succ_r by lia.
    ring.
Qed.

Lemma normal_mantissa (v : Z) :
  0 < v -> Z.log2 v <= 52 ->
  0 < v * 2 ^ (52 - Z.log2 v) /\
  Z.log2 (Z.pos (Z.to_pos (v * 2 ^ (52 - Z.log2 v)))) = 52.
Proof.
  intros Hv Hl.
  assert (Hpos : 0 < v * 2 ^ (52 - Z.log2 v))
    by (apply Z.mul_pos_pos; [lia | apply Z.pow_pos_nonneg; lia]).
  split; [assumption |].
  rewrite Z2Pos.id, Z.log2_mul_pow2 by lia. lia.
Qed.

(** Rounding [M * 2^e] when it is an integer [v] of at most 53 bits. *)
Lemma binary_round_exact (M : positive) (e v : Z) :
  0 < v -> Z.log2 v <= 52 -> -1022 <= e <= 0 -> Z.pos M = v * 2 ^ (- e) ->
  SpecFloat.binary_round 53 1024 false M e = normal v.
Proof.
  intros Hv Hl He HM.
  destruct (normal_mantissa v Hv Hl) as [Hpos Hc].
  pose proof (Z.log2_nonneg v) as Hl0.
  assert (HlM : Z.log2 (Z.pos M) = Z.log2 v - e).
  { rewrite HM, Z.log2_mul_pow2 by lia. lia. }
  unfold SpecFloat.binary_round, SpecFloat.fexp, SpecFloat.emin.
  rewrite digits2_log2, HlM.
  replace (Z.max (Z.log2 v - e + 1 + e - 53) (3 - 1024 - 53))
    with (Z.log2 v - 52) by lia.
  unfold SpecFloat.shl_align.
  unfold normal.
  destruct (Z.log2 v - 52 - e) as [| k | k] eqn:Hk.
  - rewrite (binary_round_aux_exact (Z.to_pos (v * 2 ^ (52 - Z.log2 v))) M 0 e);
      [f_equal; lia | assumption | lia | | lia].
    rewrite Z2Pos.id, HM by assumption. replace (- e) with (52 - Z.log2 v) by lia.
    ring.
  - rewrite (binary_round_aux_exact (Z.to_pos (v * 2 ^ (52 - Z.log2 v))) M (Z.pos k) e);
      [f_equal; lia | assumption | lia | | lia].
    rewrite Z2Pos.id, HM by assumption.
    rewrite <- Z.mul_assoc, <- Z.pow_add_r by lia. f_equal. f_equal. lia.
  - rewrite (binary_round_aux_exact (Z.to_pos (v * 2 ^ (52 - Z.log2 v)))
               (Pos.iter xO M k) 0 (Z.log2 v - 52));
      [f_equal; lia | assumption | lia | | lia].
    rewrite iter_xO, Z2Pos.id, HM by assumption.
    rewrite <- Z.mul_assoc, <- Z.pow_add_r by lia. rewrite Z.pow_0_r, Z.mul_1_r.
    f_equal. f_equal. lia.
Qed.

Lemma of_int_normal (v : Z) :
  0 < v < 2 ^ 53 -> of_int v = normal v.
Proof.
  intros Hv. destruct v as [| p | p]; [lia | | lia].
  unfold of_int, SpecFloat.binary_normalize.
  apply binary_round_exact; [lia | | lia | simpl; lia].
  apply Z.lt_succ_r. apply Z.log2_lt_pow2; lia.
Qed.

Lemma log2_small (v : Z) : 0 < v < 2 ^ 53 -> 0 <= Z.log2 v <= 52.
Proof.
  intros Hv. split; [apply Z.log2_nonneg |].
  apply Z.lt_succ_r. apply Z.log2_lt_pow2; lia.
Qed.

Lemma normal_mul (x y : Z) :
  0 < x -> 0 < y -> x * y < 2 ^ 53 ->
  fmul (normal x) (normal y) = normal (x * y).
Proof.
  intros Hx Hy Hxy.
  assert (Hxy0 : 0 < x * y) by lia.
  assert (Hx53 : 0 < x < 2 ^ 53) by nia.
  assert (Hy53 : 0 < y < 2 ^ 53) by nia.
  pose proof (log2_small x Hx53) as Hlx.
  pose proof (log2_small y Hy53) as Hly.
  pose proof (log2_small (x * y) (conj Hxy0 Hxy)) as Hlxy.
  pose proof (Z.log2_mul_below x y Hx Hy) as Hbelow.
  destruct (normal_mantissa x Hx (proj2 Hlx)) as [Hcx _].
  destruct (normal_mantissa y Hy (proj2 Hly)) as [Hcy _].
  destruct (normal_mantissa (x * y) Hxy0 (proj2 Hlxy)) as [Hcxy Hc].
  unfold fmul, normal at 1 2. cbn [SpecFloat.SFmul xorb].
  rewrite (binary_round_aux_exact (Z.to_pos (x * y * 2 ^ (52 - Z.log2 (x * y)))) _
             (52 + Z.log2 (x * y) - Z.log2 x - Z.log2 y)
             (Z.log2 x - 52 + (Z.log2 y - 52)));
    [unfold normal; f_equal; lia | assumption | lia | | lia].
  rewrite Pos2Z.inj_mul, !Z2Pos.id by assumption.
  replace (x * 2 ^ (52 - Z.log2 x) * (y * 2 ^ (52 - Z.log2 y)))
    with (x * y * (2 ^ (52 - Z.log2 x) * 2 ^ (52 - Z.log2 y))) by ring.
  rewrite <- (Z.mul_assoc (x * y)).
  rewrite <- (Z.pow_add_r 2 (52 - Z.log2 x)) by lia.
  rewrite <- (Z.pow_add_r 2 (52 - Z.log2 (x * y))) by lia.
  f_equal. f_equal. lia.
Qed.

Lemma shl_align_value (m : positive) (ex ez : Z) :
  ez <= ex ->
  Z.pos (fst (SpecFloat.shl_align m ex ez)) = Z.pos m * 2 ^ (ex - ez).
Proof.
  intros Hle. unfold SpecFloat.shl_align.
  destruct (ez - ex) as [| k | k] eqn:Hk; cbn [fst]; [| lia |].
  - replace (ex - ez) with 0 by lia. lia.
  - rewrite iter_xO. f_equal. f_equal. lia.
Qed.

Lemma normal_add (x y : Z) :
  0 < x -> 0 < y -> x + y < 2 ^ 53 ->
  fadd (normal x) (normal y) = normal (x + y).
Proof.
  intros Hx Hy Hxy.
  assert (Hx53 : 0 < x < 2 ^ 53) by lia.
  assert (Hy53 : 0 < y < 2 ^ 53) by lia.
  pose proof (log2_small x Hx53) as Hlx.
  pose proof (log2_small y Hy53) as Hly.
  pose proof (log2_small (x + y) ltac:(lia)) as Hlxy.
  destruct (normal_mantissa x Hx (proj2 Hlx)) as [Hcx _].
  destruct (normal_mantissa y Hy (proj2 Hly)) as [Hcy _].
  unfold fadd, normal at 1 2. cbn [SpecFloat.SFadd SpecFloat.cond_Zopp].
  set (ez := Z.min (Z.log2 x - 52) (Z.log2 y - 52)).
  rewrite <- Pos2Z.inj_add. cbn [SpecFloat.binary_normalize].
  apply binary_round_exact; [lia | lia | lia |].
  rewrite Pos2Z.inj_add, !shl_align_value, !Z2Pos.id by (assumption || lia).
  rewrite <- !Z.mul_assoc, <- !Z.pow_add_r by lia.
  replace (52 - Z.log2 x + (Z.log2 x - 52 - ez)) with (- ez) by lia.
  replace (52 - Z.log2 y + (Z.log2 y - 52 - ez)) with (- ez) by lia.
  ring.
Qed.

Lemma of_int_mul (x y : Z) :
  0 <= x < 2 ^ 53 -> 0 <= y < 2 ^ 53 -> x * y < 2 ^ 53 ->
  fmul (of_int x) (of_int y) = of_int (x * y).
Proof.
  intros Hx Hy Hxy.
  destruct (Z.eq_dec x 0) as [-> | Hx0].
  { destruct (Z.eq_dec y 0) as [-> | Hy0]; [reflexivity |].
    rewrite (of_int_normal y) by lia. reflexivity. }
  destruct (Z.eq_dec y 0) as [-> | Hy0].
  { rewrite Z.mul_0_r, (of_int_normal x) by lia. reflexivity. }
  rewrite (of_int_normal x), (of_int_normal y), (of_int_normal (x * y)) by nia.
  apply normal_mul; lia.
Qed.

Lemma of_int_add (x y : Z) :
  0 <= x -> 0 <= y -> x + y < 2 ^ 53 ->
  fadd (of_int x) (of_int y) = of_int (x + y).
Proof.
  intros Hx Hy Hxy.
  destruct (Z.eq_dec x 0) as [-> | Hx0].
  { destruct (Z.eq_dec y 0) as [-> | Hy0]; [reflexivity |].
    rewrite Z.add_0_l, (of_int_normal y) by lia. reflexivity. }
  destruct (Z.eq_dec y 0) as [-> | Hy0].
  { rewrite Z.add_0_r, (of_int_normal x) by lia. reflexivity. }
  rewrite (of_int_normal x), (of_int_normal y), (of_int_normal (x + y)) by lia.
  apply normal_add; lia.
Qed.

Lemma float_int_of_int (v : Z) :
  0 <= v < 2 ^ 53 -> float_int (of_int v) = Some v.
Proof.
  intros Hv. destruct (Z.eq_dec v 0) as [-> | Hv0]; [reflexivity |].
  rewrite of_int_normal by lia.
  pose proof (log2_small v ltac:(lia)) as Hl.
  destruct (normal_mantissa v ltac:(lia) (proj2 Hl)) as [Hpos _].
  unfold normal, float_int. rewrite Z2Pos.id by assumption.
  destruct (Z.leb_spec 0 (Z.log2 v - 52)) as [He | He].
  - replace (Z.log2 v - 52) with 0 by lia. replace (52 - Z.log2 v) with 0 by lia.
    f_equal. simpl. lia.
  - replace (- (Z.log2 v - 52)) with (52 - Z.log2 v) by lia.
    rewrite Z.mod_mul by (apply Z.pow_nonzero; lia). simpl Z.eqb.
    rewrite Z.div_mul by (apply Z.pow_nonzero; lia). reflexivity.
Qed.

Lemma accumulate_lower_bound (b : Z) (ds : list Z) (acc : Z) :
  1 <= b -> 0 <= acc -> Forall (fun d => 0 <= d) ds ->
  acc <= fold_left (fun r d => r * b + d) ds acc.
Proof.
  intros Hb Hacc Hds. rewrite accumulate_positional.
  pose proof (positional_nonneg b ds ltac:(lia) Hds).
  pose proof (Z.pow_pos_nonneg b (Z.of_nat (List.length ds)) ltac:(lia) ltac:(lia)).
  nia.
Qed.

(** While the accumulated value stays below 2^53, every product and sum of
    the loop is exact. *)
Lemma baseToDecimal_loop_exact (b : Z) (s : string) :
  1 <= b < 2 ^ 53 ->
  forall (ds : list Z) (acc : Z),
    Forall2 (fun c d => digit_value c = Some d /\ d < b)
      (list_ascii_of_string s) ds ->
    0 <= acc ->
    fold_left (fun r d => r * b + d) ds acc < 2 ^ 53 ->
    Solver.baseToDecimal_loop (Num b) (toLowerCase s) (of_int acc)
    = Returned (of_int (fold_left (fun r d => r * b + d) ds acc)).
Proof.
  intros Hb. induction s as [| c rest IH]; intros ds acc H Hacc Hlt.
  - inversion H; subst. reflexivity.
  - cbn [list_ascii_of_string] in H.
    inversion H as [| c' d cs ds' [Hd Hdb] Hrest]; subst.
    cbn [toLowerCase Solver.baseToDecimal_loop].
    rewrite indexOf_digits_lower, Hd.
    pose proof (digit_value_range c d Hd) as Hrange.
    destruct (Z.eqb_spec d (-1)); [lia |].
    destruct (Z.leb_spec b d); [lia |]. cbn [orb to_float].
    cbn [fold_left] in Hlt |- *.
    assert (Hds : Forall (fun d => 0 <= d) ds').
    { clear - Hrest. induction Hrest as [| c d cs ds' [Hd _] _ IHr]; constructor;
        [pose proof (digit_value_range c d Hd); lia | assumption]. }
    pose proof (accumulate_lower_bound b ds' (acc * b + d) ltac:(lia) ltac:(nia) Hds)
      as Hlow.
    rewrite of_int_mul, of_int_add by nia.
    apply IH; [assumption | nia | assumption].
Qed.

(** X28: below 2^53 the Number decoder is exact and agrees with the BigInt
    decoder: for a base [b >= 1] and a string of digits below [b] whose
    value [v], as [parseValueBigInt] returns it, is less than 2^53,
    [baseToDecimal] returns the double that is the integer [v]. *)
Theorem baseToDecimal_exact_below_2_53 (b : Z) (s : string) (v : Z) :
  1 <= b < 2 ^ 53 ->
  Forall (valid_for (Num b)) (list_ascii_of_string s) ->
  parseValueBigInt (Num b) s = Ok v ->
  v < 2 ^ 53 ->
  Solver.baseToDecimal s (Num b) = Returned (of_int v) /\
  float_int (of_int v) = Some v.
Proof.
  intros Hb Hvalid Hv Hlt.
  assert (Hds : exists ds, Forall2 (fun c d => digit_value c = Some d /\ d < b)
                             (list_ascii_of_string s) ds).
  { clear - Hvalid. induction (list_ascii_of_string s) as [| c cs IH].
    - exists []. constructor.
    - inversion Hvalid as [| ? ? [d [Hd Hdb]] Hrest]; subst.
      destruct (IH Hrest) as [ds Hds]. exists (d :: ds). constructor; auto. }
  destruct Hds as [ds Hds].
  assert (Hds' : Forall2 (fun c d => digit_value c = Some d)
                   (list_ascii_of_string s) ds).
  { clear - Hds. induction Hds as [| c d cs ds' [Hd _] _ IH]; constructor; assumption. }
  assert (Hnonneg : Forall (fun d => 0 <= d) ds).
  { clear - Hds'. induction Hds' as [| c d cs ds' Hd _ IH]; constructor;
      [pose proof (digit_value_range c d Hd); lia | assumption]. }
  rewrite (parseValueBigInt_positional b s ds Hds') in Hv. injection Hv as <-.
  pose proof (positional_nonneg b ds ltac:(lia) Hnonneg) as Hv0.
  assert (Hfold : fold_left (fun r d => r * b + d) ds 0 = positional b ds).
  { rewrite accumulate_positional. lia. }
  split.
  - unfold Solver.baseToDecimal.
    change fzero with (of_int 0).
    rewrite (baseToDecimal_loop_exact b s Hb ds 0 Hds) by lia.
    rewrite Hfold. reflexivity.
  - apply float_int_of_int. lia.
Qed.

Lemma baseToDecimal_exact_below_2_53_witness :
  Solver.baseToDecimal "1fffffffffffff" (Num 16) = Returned (of_int (2 ^ 53 - 1)) /\
  float_int (of_int (2 ^ 53 - 1)) = Some (2 ^ 53 - 1).
Proof.
  apply (baseToDecimal_exact_below_2_53 16 "1fffffffffffff" (2 ^ 53 - 1)).
  - lia.
  - repeat (constructor; [eexists; split; [reflexivity | reflexivity] |]).
    constructor.
  - reflexivity.
  - lia.
Defined.

(** ** The rounding of parseInt is that of binary64 *)

Lemma shr_1_spec (m : Z) (r s : bool) :
  0 <= m ->
  SpecFloat.shr_1 (SpecFloat.Build_shr_record m r s)
  = SpecFloat.Build_shr_record (m / 2) (Z.odd m) (r || s).
Proof.
  intros Hm. destruct m as [| p | p]; [reflexivity | | lia].
  destruct p as [p | p |]; cbn [SpecFloat.shr_1].
  - f_equal. rewrite Pos2Z.inj_xI. symmetry.
    replace (2 * Z.pos p + 1) with (1 + Z.pos p * 2) by lia.
    rewrite Z.div_add by lia. reflexivity.
  - f_equal. rewrite Pos2Z.inj_xO. symmetry.
    rewrite Z.mul_comm. apply Z.div_mul. lia.
  - reflexivity.
Qed.

Lemma shr_iter (m : Z) (k : nat) :
  0 <= m ->
  Nat.iter k SpecFloat.shr_1 (SpecFloat.Build_shr_record m false false)
  = SpecFloat.Build_shr_record (m / 2 ^ Z.of_nat k) (round_bit m k) (sticky_bit m k).
Proof.
  intros Hm. induction k as [| k IH].
  - cbn. unfold round_bit, sticky_bit. change (Z.of_nat 0) with 0.
    rewrite Z.pow_0_r, Z.div_1_r, Z.mod_1_r. reflexivity.
  - rewrite Nat.iter_succ, IH.
    assert (Hp : 0 < 2 ^ Z.of_nat k) by (apply Z.pow_pos_nonneg; lia).
    rewrite shr_1_spec by (apply Z.div_pos; lia).
    rewrite Nat2Z.inj_succ, Z.pow_succ_r by lia.
    set (P := 2 ^ Z.of_nat k) in *.
    pose proof (Z.div_mod m P ltac:(lia)) as Hdm.
    pose proof (Z.mod_pos_bound m P Hp) as Hlow.
    set (a := m / P) in *. set (low := m mod P) in *.
    assert (Ha : 0 <= a) by (apply Z.div_pos; lia).
    pose proof (Z.div_mod a 2 ltac:(lia)) as Hda.
    pose proof (Z.mod_pos_bound a 2 ltac:(lia)) as Hbit.
    assert (Hq : m / (2 * P) = a / 2).
    { rewrite Z.mul_comm. rewrite <- Z.div_div by lia. reflexivity. }
    assert (Hr : m mod (2 * P) = low + P * (a mod 2)).
    { symmetry. apply (Z.mod_unique m (2 * P) (a / 2)); [left; nia | nia]. }
    f_equal.
    + symmetry. exact Hq.
    + unfold round_bit. rewrite Nat2Z.inj_succ, Z.pow_succ_r by lia.
      fold P. rewrite Hr, Zodd_mod.
      assert (Hcase : a mod 2 = 0 \/ a mod 2 = 1) by lia.
      destruct Hcase as [E | E]; rewrite E.
      * rewrite Z.mul_0_r, Z.add_0_r.
        destruct (Z.leb_spec (2 * P) (2 * low)); [lia | reflexivity].
      * rewrite Z.mul_1_r.
        destruct (Z.leb_spec (2 * P) (2 * (low + P))); [reflexivity | lia].
    + unfold round_bit, sticky_bit. rewrite Nat2Z.inj_succ, Z.pow_succ_r by lia.
      fold P. fold low. rewrite Hr.
      assert (Hcase : a mod 2 = 0 \/ a mod 2 = 1) by lia.
      destruct Hcase as [E | E]; rewrite E;
        [rewrite Z.mul_0_r, Z.add_0_r | rewrite Z.mul_1_r];
        destruct (Z.leb_spec P (2 * low));
        destruct (Z.eqb_spec low 0);
        destruct (Z.eqb_spec (2 * low) P);
        cbn [negb andb orb];
        repeat match goal with
               | |- context [Z.eqb ?x ?y] => destruct (Z.eqb_spec x y)
               end;
        cbn [negb andb orb]; try reflexivity; lia.
Qed.

Lemma round_nearest_even_bits (v : Z) (k : nat) :
  0 <= v ->
  SpecFloat.round_nearest_even (v / 2 ^ Z.of_nat k)
    (SpecFloat.loc_of_shr_record
       (SpecFloat.Build_shr_record (v / 2 ^ Z.of_nat k) (round_bit v k) (sticky_bit v k)))
  = rounded_mantissa v (Z.of_nat k).
Proof.
  intros Hv. unfold rounded_mantissa, round_bit, sticky_bit.
  assert (Hp : 0 < 2 ^ Z.of_nat k) by (apply Z.pow_pos_nonneg; lia).
  pose proof (Z.mod_pos_bound v (2 ^ Z.of_nat k) Hp) as Hlow.
  set (P := 2 ^ Z.of_nat k) in *. set (low := v mod P) in *.
  destruct (Z.leb_spec P (2 * low));
    destruct (Z.eqb_spec low 0);
    destruct (Z.eqb_spec (2 * low) P);
    destruct (Z.ltb_spec (2 * low) P);
    destruct (Z.ltb_spec P (2 * low));
    cbn [negb andb SpecFloat.loc_of_shr_record SpecFloat.round_nearest_even];
    try reflexivity; lia.
Qed.

Lemma of_int_large (v : Z) :
  2 ^ 53 <= v < 2 ^ 1023 ->
  let e := Z.log2 v - 52 in
  let q' := rounded_mantissa v e in
  of_int v = if q' <? 2 ^ 53 then SpecFloat.S754_finite false (Z.to_pos q') e
             else SpecFloat.S754_finite false (Z.to_pos (2 ^ 52)) (e + 1).
Proof.
  intros Hv e q'.
  assert (Hl : 53 <= Z.log2 v < 1023).
  { split; [apply Z.log2_le_pow2; lia | apply Z.log2_lt_pow2; lia]. }
  assert (He : 1 <= e <= 970) by (unfold e; lia).
  assert (Hp : 0 < 2 ^ e) by (apply Z.pow_pos_nonneg; lia).
  pose proof (Z.log2_spec v ltac:(lia)) as Hspec.
  assert (Hq : 2 ^ 52 <= v / 2 ^ e < 2 ^ 53).
  { replace (Z.log2 v) with (52 + e) in Hspec by (unfold e; lia).
    replace (Z.succ (52 + e)) with (53 + e) in Hspec by lia.
    rewrite !Z.pow_add_r in Hspec by lia. split.
    - apply Z.div_le_lower_bound; lia.
    - apply Z.div_lt_upper_bound; lia. }
  assert (Hq' : 2 ^ 52 <= q' <= 2 ^ 53).
  { unfold q', rounded_mantissa.
    destruct (2 * (v mod 2 ^ e) <? 2 ^ e); [lia |].
    destruct (2 ^ e <? 2 * (v mod 2 ^ e)); [lia |].
    destruct (Z.even (v / 2 ^ e)); lia. }
  destruct v as [| p | p]; [lia | | lia].
  unfold of_int, SpecFloat.binary_normalize, SpecFloat.binary_round.
  unfold SpecFloat.fexp at 1. unfold SpecFloat.emin.
  rewrite digits2_log2.
  replace (Z.max (Z.log2 (Z.pos p) + 1 + 0 - 53) (3 - 1024 - 53)) with e
    by (unfold e; lia).
  unfold SpecFloat.shl_align. rewrite Z.sub_0_r.
  destruct e as [| k | k] eqn:Ek; [lia | | lia].
  unfold SpecFloat.binary_round_aux.
  assert (Hfirst : SpecFloat.shr_fexp 53 1024 (Z.pos p) 0 SpecFloat.loc_Exact
                   = (SpecFloat.Build_shr_record (Z.pos p / 2 ^ Z.pos k)
                        (round_bit (Z.pos p) (Pos.to_nat k))
                        (sticky_bit (Z.pos p) (Pos.to_nat k)), Z.pos k)).
  { unfold SpecFloat.shr_fexp, SpecFloat.Zdigits2, SpecFloat.fexp, SpecFloat.emin.
    rewrite digits2_log2.
    replace (Z.max (Z.log2 (Z.pos p) + 1 + 0 - 53) (3 - 1024 - 53) - 0)
      with (Z.pos k) by lia.
    cbn [SpecFloat.shr_record_of_loc SpecFloat.shr]. f_equal.
    rewrite iter_pos_nat, shr_iter by lia. rewrite positive_nat_Z. reflexivity. }
  rewrite Hfirst. cbn [SpecFloat.shr_m].
  rewrite <- (positive_nat_Z k) at 1 2.
  rewrite round_nearest_even_bits by lia. rewrite positive_nat_Z.
  fold q'.
  destruct (Z.ltb_spec q' (2 ^ 53)) as [Hlt | Hge].
  - assert (Hlq : Z.log2 q' = 52).
    { apply Z.log2_unique; [lia |]. change (Z.succ 52) with 53. lia. }
    destruct q' as [| c | c] eqn:Eq'; [lia | | lia].
    assert (Hsecond : SpecFloat.shr_fexp 53 1024 (Z.pos c) (Z.pos k) SpecFloat.loc_Exact
                      = (SpecFloat.Build_shr_record (Z.pos c) false false, Z.pos k)).
    { unfold SpecFloat.shr_fexp, SpecFloat.Zdigits2, SpecFloat.fexp, SpecFloat.emin.
      rewrite digits2_log2, Hlq.
      replace (Z.max (52 + 1 + Z.pos k - 53) (3 - 1024 - 53) - Z.pos k) with 0 by lia.
      reflexivity. }
    rewrite Hsecond. cbn [SpecFloat.shr_m].
    destruct (Z.leb_spec (Z.pos k) (1024 - 53)); [reflexivity | lia].
  - assert (Eq53 : q' = 2 ^ 53) by lia. rewrite Eq53.
    assert (Hsecond : SpecFloat.shr_fexp 53 1024 (2 ^ 53) (Z.pos k) SpecFloat.loc_Exact
                      = (SpecFloat.Build_shr_record (2 ^ 52) false false, Z.pos k + 1)).
    { unfold SpecFloat.shr_fexp, SpecFloat.fexp, SpecFloat.emin.
      change (SpecFloat.Zdigits2 (2 ^ 53)) with 54.
      replace (Z.max (54 + Z.pos k - 53) (3 - 1024 - 53) - Z.pos k) with 1 by lia.
      reflexivity. }
    rewrite Hsecond. cbn [SpecFloat.shr_m].
    change (2 ^ 52) with (Z.pos (Z.to_pos (2 ^ 52))) at 1. cbv iota.
    destruct (Z.leb_spec (Z.pos k + 1) (1024 - 53)); [reflexivity | lia].
Qed.

Lemma nearest_double_large (v : Z) :
  2 ^ 53 <= v ->
  nearest_double v = rounded_mantissa v (Z.log2 v - 52) * 2 ^ (Z.log2 v - 52).
Proof.
  intros Hv. unfold nearest_double, rounded_mantissa.
  assert (53 <= Z.log2 v) by (apply Z.log2_le_pow2; lia).
  destruct (Z.leb_spec (Z.log2 v - 52) 0); [lia | reflexivity].
Qed.

(** A multiple of a power of two with a 53-bit quotient is a double. *)
Lemma of_int_multiple (c n : Z) :
  2 ^ 52 <= c < 2 ^ 53 -> 1 <= n <= 970 ->
  of_int (c * 2 ^ n) = SpecFloat.S754_finite false (Z.to_pos c) n.
Proof.
  intros Hc Hn.
  assert (Hp : 0 < 2 ^ n) by (apply Z.pow_pos_nonneg; lia).
  assert (Hlc : Z.log2 c = 52).
  { apply Z.log2_unique; [lia |]. change (Z.succ 52) with 53. lia. }
  assert (Hl : Z.log2 (c * 2 ^ n) = 52 + n).
  { rewrite Z.log2_mul_pow2 by lia. lia. }
  assert (Hw : 2 ^ 53 <= c * 2 ^ n < 2 ^ 1023).
  { split.
    - replace 53 with (52 + 1) by lia. rewrite Z.pow_add_r by lia.
      assert (2 ^ 1 <= 2 ^ n) by (apply Z.pow_le_mono_r; lia). nia.
    - apply Z.log2_lt_pow2; [nia | lia]. }
  rewrite (of_int_large _ Hw). cbv zeta. rewrite Hl.
  replace (52 + n - 52) with n by lia.
  assert (Hm : rounded_mantissa (c * 2 ^ n) n = c).
  { unfold rounded_mantissa. rewrite Z.mod_mul, Z.div_mul by lia.
    destruct (Z.ltb_spec (2 * 0) (2 ^ n)); [reflexivity | lia]. }
  rewrite Hm. destruct (Z.ltb_spec c (2 ^ 53)); [reflexivity | lia].
Qed.

(** [nearest_double] is the rounding of binary64. *)
Lemma nearest_double_binary64 (v : Z) :
  0 <= v < 2 ^ 1022 ->
  of_int (nearest_double v) = of_int v /\
  float_int (of_int v) = Some (nearest_double v).
Proof.
  intros Hv. destruct (Z.lt_ge_cases v (2 ^ 53)) as [Hsmall | Hlarge].
  { rewrite nearest_double_small by lia. split; [reflexivity |].
    apply float_int_of_int. lia. }
  assert (Hv' : 2 ^ 53 <= v < 2 ^ 1023).
  { split; [assumption |].
    assert (2 ^ 1022 <= 2 ^ 1023) by (apply Z.pow_le_mono_r; lia). lia. }
  assert (Hl : 53 <= Z.log2 v < 1022).
  { split; [apply Z.log2_le_pow2; lia | apply Z.log2_lt_pow2; lia]. }
  rewrite (nearest_double_large v Hlarge), (of_int_large v Hv'). cbv zeta.
  set (e := Z.log2 v - 52). set (q' := rounded_mantissa v e).
  assert (He : 1 <= e <= 969) by (unfold e; lia).
  assert (Hp : 0 < 2 ^ e) by (apply Z.pow_pos_nonneg; lia).
  pose proof (Z.log2_spec v ltac:(lia)) as Hspec.
  assert (Hq : 2 ^ 52 <= v / 2 ^ e < 2 ^ 53).
  { replace (Z.log2 v) with (52 + e) in Hspec by (unfold e; lia).
    replace (Z.succ (52 + e)) with (53 + e) in Hspec by lia.
    rewrite !Z.pow_add_r in Hspec by lia. split.
    - apply Z.div_le_lower_bound; lia.
    - apply Z.div_lt_upper_bound; lia. }
  assert (Hq' : 2 ^ 52 <= q' <= 2 ^ 53).
  { unfold q', rounded_mantissa.
    destruct (2 * (v mod 2 ^ e) <? 2 ^ e); [lia |].
    destruct (2 ^ e <? 2 * (v mod 2 ^ e)); [lia |].
    destruct (Z.even (v / 2 ^ e)); lia. }
  destruct (Z.ltb_spec q' (2 ^ 53)) as [Hlt | Hge].
  - split.
    + apply of_int_multiple; lia.
    + unfold float_int. rewrite Z2Pos.id by lia.
      destruct (Z.leb_spec 0 e); [reflexivity | lia].
  - assert (Eq53 : q' = 2 ^ 53) by lia. rewrite Eq53. split.
    + replace (2 ^ 53 * 2 ^ e) with (2 ^ 52 * 2 ^ (e + 1))
        by (rewrite (Z.pow_add_r 2 e 1) by lia; lia).
      apply of_int_multiple; lia.
    + unfold float_int. rewrite Z2Pos.id by lia.
      destruct (Z.leb_spec 0 (e + 1)); [| lia].
      rewrite (Z.pow_add_r 2 e 1) by lia. f_equal. lia.
Qed.
